(** * Text codecs of CompressionAlgorithms: RLE, Huffman, LZW

    A shallow embedding of the three TypeScript codecs
    ([src/algorithms/rle.ts], [huffman-compression.ts] with its [MinHeap],
    [lzw-compression.ts]) and of the handlers of the page that call them
    ([App.tsx]), the properties their specification states, and further
    properties of the code.

    Conventions of the embedding.
    - A JavaScript string is the list of its UTF-16 code units ([list N]);
      [s[i]] reads one code unit, [for (const ch of s)] walks code points
      (a high surrogate followed by a low surrogate is one two-unit step).
    - Non-negative integer Numbers (counts, codes, frequencies, sizes) are
      [N]; they are exact in the source as long as they stay below 2^53,
      which every length of a string does.
    - A string of the embedding has any length. An engine holds strings
      up to a limit and throws a [RangeError] beyond it; RLE's
      [decompress], which makes its result from counts that it reads,
      is embedded with that limit as a parameter ([decompress_within]).
    - A function that can [throw] returns a [Result]. *)

From Stdlib Require Import ZArith NArith List Lia Bool.
From Stdlib Require Import Decimal DecimalN Ascii String.
From Equations Require Import Equations.
From stdpp Require Import base option list gmap countable.

#[local] Set Warnings "-register-all".

Local Open Scope N_scope.

(** ** JavaScript strings *)

Abbreviation jsstring := (list N).

(** An ASCII literal as a JavaScript string. *)
Fixpoint str (s : string) : jsstring :=
  match s with
  | EmptyString => []
  | String a r => N_of_ascii a :: str r
  end.

(** [!s] on a string: true exactly for the empty string. *)
Definition isEmpty (s : jsstring) : bool :=
  match s with [] => true | _ :: _ => false end.

(** [s.repeat(n)] *)
Definition repeat_str (s : jsstring) (n : nat) : jsstring :=
  concat (replicate n s).

(** [s[0]] used as a string operand: the first code unit, or the text
    [undefined] when [s] is empty. *)
Definition at0 (s : jsstring) : jsstring :=
  match s with
  | [] => str "undefined"
  | c :: _ => [c]
  end.

Definition isHighSurrogate (c : N) : bool := (0xD800 <=? c) && (c <=? 0xDBFF).
Definition isLowSurrogate (c : N) : bool := (0xDC00 <=? c) && (c <=? 0xDFFF).

(** The string iterator behind [for (const ch of text)]. *)
Fixpoint chars (s : jsstring) : list jsstring :=
  match s with
  | [] => []
  | c :: rest =>
      match rest with
      | d :: rest' =>
          if isHighSurrogate c && isLowSurrogate d
          then [c; d] :: chars rest'
          else [c] :: chars rest
      | [] => [[c]]
      end
  end.

(** [/\d/.test(ch)] *)
Definition isDigit (c : N) : bool := (48 <=? c) && (c <=? 57).

(** White space skipped by [parseInt]: WhiteSpace and LineTerminator. *)
Definition isWhiteSpace (c : N) : bool :=
  (c =? 9) || (c =? 10) || (c =? 11) || (c =? 12) || (c =? 13) || (c =? 32)
  || (c =? 160) || (c =? 0x1680) || ((0x2000 <=? c) && (c <=? 0x200A))
  || (c =? 0x2028) || (c =? 0x2029) || (c =? 0x202F) || (c =? 0x205F)
  || (c =? 0x3000) || (c =? 0xFEFF).

(** ** Decimal numerals *)

Fixpoint digits_of_uint (u : Decimal.uint) : jsstring :=
  match u with
  | Decimal.Nil => []
  | Decimal.D0 u => 48 :: digits_of_uint u
  | Decimal.D1 u => 49 :: digits_of_uint u
  | Decimal.D2 u => 50 :: digits_of_uint u
  | Decimal.D3 u => 51 :: digits_of_uint u
  | Decimal.D4 u => 52 :: digits_of_uint u
  | Decimal.D5 u => 53 :: digits_of_uint u
  | Decimal.D6 u => 54 :: digits_of_uint u
  | Decimal.D7 u => 55 :: digits_of_uint u
  | Decimal.D8 u => 56 :: digits_of_uint u
  | Decimal.D9 u => 57 :: digits_of_uint u
  end.

(** The longest prefix of decimal digits, as a numeral. *)
Fixpoint uint_of_digits (s : jsstring) : Decimal.uint :=
  match s with
  | [] => Decimal.Nil
  | c :: r =>
      match c with
      | 48 => Decimal.D0 (uint_of_digits r)
      | 49 => Decimal.D1 (uint_of_digits r)
      | 50 => Decimal.D2 (uint_of_digits r)
      | 51 => Decimal.D3 (uint_of_digits r)
      | 52 => Decimal.D4 (uint_of_digits r)
      | 53 => Decimal.D5 (uint_of_digits r)
      | 54 => Decimal.D6 (uint_of_digits r)
      | 55 => Decimal.D7 (uint_of_digits r)
      | 56 => Decimal.D8 (uint_of_digits r)
      | 57 => Decimal.D9 (uint_of_digits r)
      | _ => Decimal.Nil
      end
  end.

(** [n.toString()] for a non-negative integer [n]. *)
Definition toString (n : N) : jsstring := digits_of_uint (N.to_uint n).

(** [parseInt(s, 10)]: leading white space, an optional sign, then the
    longest run of digits; [None] is NaN. *)
Definition parseDigits (s : jsstring) : option Z :=
  match uint_of_digits s with
  | Decimal.Nil => None
  | u => Some (Z.of_N (N.of_uint u))
  end.

Fixpoint parseInt (s : jsstring) : option Z :=
  match s with
  | [] => None
  | c :: r =>
      if isWhiteSpace c then parseInt r
      else if c =? 45 then Z.opp <$> parseDigits r
      else if c =? 43 then parseDigits r
      else parseDigits s
  end.

(** ** Results of functions that may throw *)

Inductive Error : Type :=
| BadRepeatCount            (* rle: "Bad repeat count" *)
| EndsWithNumber            (* rle: "Compressed string cannot end with a number." *)
| FirstCodeNotInDictionary  (* lzw: "First code is not in initial dictionary." *)
| CodeOutOfBounds           (* lzw: "Code ... is out of dictionary bounds." *)
| SyntaxError               (* JSON.parse *)
| TypeError
| RangeError.               (* a string longer than the engine holds *)

Inductive Result (A : Type) : Type :=
| Ok (a : A)
| Throw (e : Error).
Arguments Ok {A} a.
Arguments Throw {A} e.

Definition bind {A B} (r : Result A) (k : A -> Result B) : Result B :=
  match r with
  | Ok a => k a
  | Throw e => Throw e
  end.

Notation "x <-! r ; k" := (bind r (fun x => k))
  (at level 100, r at next level, right associativity, only parsing).

(** A [for] loop over [l] whose body may throw. *)
Fixpoint forM {S A} (body : S -> A -> Result S) (l : list A) (st : S) : Result S :=
  match l with
  | [] => Ok st
  | a :: l' => st' <-! body st a; forM body l' st'
  end.

(** ** Run-length encoding ([rle.ts]) *)

Module RLE.

Record cstate := CState {
  result : jsstring;
  count : N;
  currentChar : N
}.

(** [result += (count > 1 ? count.toString() : "") + currentChar] *)
Definition appendRun (st : cstate) : jsstring :=
  result st ++ (if 1 <? count st then toString (count st) else []) ++ [currentChar st].

(** Body of the [for] loop of [compress], at [text[i] = c]. *)
Definition compress_step (st : cstate) (c : N) : cstate :=
  if c =? currentChar st
  then CState (result st) (count st + 1) (currentChar st)
  else CState (appendRun st) 1 c.

Definition compress (text : jsstring) : jsstring :=
  match text with
  | [] => []
  | c0 :: rest => appendRun (fold_left compress_step rest (CState [] 1 c0))
  end.

(** Decoder state: [result] and [countBuffer]. *)
Definition dstate : Type := jsstring * jsstring.

(** An engine holds strings of at most [limit] code units and throws a
    [RangeError] where a longer one would be made; [None] stands for no
    limit. *)
Definition tooLong (limit : option N) (n : N) : bool :=
  match limit with
  | Some l => l <? n
  | None => false
  end.

(** Body of the loop of [decompress], at [char], run with the string
    limit [limit]. [char.repeat(repeatCount)] and [result += ...] throw
    a [RangeError] when the string they make is longer than the limit.
    The language allows no string of 2^53 code units or more, so a limit
    is below 2^53: [parseInt] is exact on every count within the limit,
    and a count beyond it, which [parseInt] rounds or reads as
    [Infinity], stays beyond it and is refused by [repeat]. *)
Definition decompress_step_within (limit : option N) (st : dstate) (char : N)
    : Result dstate :=
  let '(result, countBuffer) := st in
  if isDigit char then Ok (result, countBuffer ++ [char])
  else
    let repeatCount := if isEmpty countBuffer then Some 1%Z else parseInt countBuffer in
    match repeatCount with
    | None => Throw BadRepeatCount
    | Some n =>
        if (n <? 0)%Z then Throw BadRepeatCount
        else if tooLong limit (N.of_nat (length result) + Z.to_N n)
        then Throw RangeError
        else Ok (result ++ repeat_str [char] (Z.to_nat n), [])
    end.

(** [decompress], run with the string limit [limit]. *)
Definition decompress_within (limit : option N) (compressed : jsstring)
    : Result jsstring :=
  if isEmpty compressed then Ok []
  else
    match forM (decompress_step_within limit) compressed ([], []) with
    | Throw e => Throw e
    | Ok (result, countBuffer) =>
        if isEmpty countBuffer then Ok result else Throw EndsWithNumber
    end.

(** [decompress] with strings of any length and exact counts. Run with
    a limit, [decompress] returns the same text wherever it returns,
    throws wherever this one throws, and throws a [RangeError] where the
    text this one builds is longer than the limit
    ([decompress_within_spec]). *)
Definition decompress_step : dstate -> N -> Result dstate :=
  decompress_step_within None.

Definition decompress : jsstring -> Result jsstring := decompress_within None.

End RLE.

(** ** LZW ([lzw-compression.ts]) *)

(** A Number as far as the decoder looks at it: a non-negative integer, or
    any other value (NaN, a negative, a fraction, an infinity), which is
    never a key of the dictionary and never equal to [dictSize]. *)
Inductive number : Type :=
| NatNum (n : N)
| OtherNum.

Definition number_eqb (a b : number) : bool :=
  match a, b with
  | NatNum x, NatNum y => x =? y
  | _, _ => false
  end.

(** The built-in [Number(s)] conversion of a string. *)
Class NumberBuiltin := Number : jsstring -> number.

(** [array.join(sep)] on already rendered elements. *)
Fixpoint join (sep : jsstring) (l : list jsstring) : jsstring :=
  match l with
  | [] => []
  | x :: l' =>
      match l' with
      | [] => x
      | _ :: _ => x ++ sep ++ join sep l'
      end
  end.

(** [s.split(sep)] for a one-unit separator. *)
Fixpoint split (sep : N) (s : jsstring) : list jsstring :=
  match s with
  | [] => [[]]
  | c :: r =>
      if c =? sep then [] :: split sep r
      else
        match split sep r with
        | p :: ps => (c :: p) :: ps
        | [] => [[c]]
        end
  end.

Module LZW.

(** [String.fromCharCode(i)] *)
Definition fromCharCode (i : N) : jsstring := [i].

Definition seedCodes : list N := N.of_nat <$> seq 0 256.

(** [for (i = 0; i < 256; i++) dictionary.set(String.fromCharCode(i), i)] *)
Definition initialDictionary : gmap jsstring N :=
  foldl (fun d i => <[fromCharCode i := i]> d) ∅ seedCodes.

(** [for (i = 0; i < 256; i++) dictionary.set(i, String.fromCharCode(i))] *)
Definition initialMirror : gmap N jsstring :=
  foldl (fun d i => <[i := fromCharCode i]> d) ∅ seedCodes.

Definition has {K V} `{Countable K} (d : gmap K V) (k : K) : bool :=
  match d !! k with Some _ => true | None => false end.

(** Encoder state. An element of [result] is [None] where
    [dictionary.get] returned [undefined]. *)
Record cstate := CState {
  dictionary : gmap jsstring N;
  dictSize : N;
  result : list (option N);
  currentPhrase : jsstring
}.

Definition compress_step (st : cstate) (char : jsstring) : cstate :=
  let newPhrase := currentPhrase st ++ char in
  if has (dictionary st) newPhrase
  then CState (dictionary st) (dictSize st) (result st) newPhrase
  else CState (<[newPhrase := dictSize st]> (dictionary st))
              (dictSize st + 1)
              (result st ++ [dictionary st !! currentPhrase st])
              char.

Definition scan (text : jsstring) : cstate :=
  foldl compress_step (CState initialDictionary 256 [] []) (chars text).

(** The array of codes before it is joined. *)
Definition codesOf (text : jsstring) : list (option N) :=
  let st := scan text in
  if isEmpty (currentPhrase st) then result st
  else result st ++ [dictionary st !! currentPhrase st].

(** An array element under [join]: [undefined] renders as the empty string. *)
Definition renderCode (c : option N) : jsstring :=
  match c with
  | Some n => toString n
  | None => []
  end.

Definition compress (text : jsstring) : jsstring :=
  if isEmpty text then []
  else join (str ",") (renderCode <$> codesOf text).

(** Decoder state. *)
Record dstate := DState {
  mirror : gmap N jsstring;
  nextCode : N;
  output : jsstring;
  prevPhrase : jsstring
}.

Definition lookupCode (d : gmap N jsstring) (code : number) : option jsstring :=
  match code with
  | NatNum n => d !! n
  | OtherNum => None
  end.

(** Body of the loop over [codes[1..]]. *)
Definition decompress_step (st : dstate) (currentCode : number) : Result dstate :=
  entry <-!
    match lookupCode (mirror st) currentCode with
    | Some e => Ok e
    | None =>
        if number_eqb currentCode (NatNum (nextCode st))
        then Ok (prevPhrase st ++ at0 (prevPhrase st))
        else Throw CodeOutOfBounds
    end;
  Ok (DState (<[nextCode st := prevPhrase st ++ at0 entry]> (mirror st))
             (nextCode st + 1)
             (output st ++ entry)
             entry).

(** Decoding of the parsed [codes] array. *)
Definition decode (codes : list number) : Result jsstring :=
  match codes with
  | [] => Throw FirstCodeNotInDictionary
  | firstCode :: rest =>
      match lookupCode initialMirror firstCode with
      | None => Throw FirstCodeNotInDictionary
      | Some p =>
          st <-! forM decompress_step rest (DState initialMirror 256 p p);
          Ok (output st)
      end
  end.

Definition decompress `{NumberBuiltin} (compressed : jsstring) : Result jsstring :=
  if isEmpty compressed then Ok []
  else decode (Number <$> split 44 compressed).

End LZW.

(** ** The binary min-heap ([min-heap.ts]) *)

Module MinHeap.
Section MinHeap.
Context {T : Type} (comparator : T -> T -> Z).
Local Open Scope nat_scope.

Definition size (heap : list T) : nat := length heap.

(** A value together with the equation that it is the value. *)
Definition inspect {A : Type} (x : A) : {y : A | x = y} := exist _ x eq_refl.

(** [[heap[i], heap[j]] = [heap[j], heap[i]]]; both indices are in range
    wherever the source swaps. *)
Definition swap (heap : list T) (i j : nat) : list T :=
  match heap !! i, heap !! j with
  | Some a, Some b => <[j := a]> (<[i := b]> heap)
  | _, _ => heap
  end.

(** [comparator(heap[i], heap[j]) < 0] *)
Definition less (heap : list T) (i j : nat) : bool :=
  match heap !! i, heap !! j with
  | Some a, Some b => (comparator a b <? 0)%Z
  | _, _ => false
  end.

Lemma length_swap heap i j : length (swap heap i j) = length heap.
Proof.
  unfold swap. destruct (heap !! i), (heap !! j); trivial.
  now rewrite !length_insert.
Qed.

(** The [while (index > 0)] loop of [bubbleUp]. *)
Equations? bubbleUp_from (heap : list T) (index : nat) : list T
  by wf index lt :=
  bubbleUp_from heap 0 := heap;
  bubbleUp_from heap (S i) with less heap (S i) ((S i - 1) / 2) := {
    | true := bubbleUp_from (swap heap (S i) ((S i - 1) / 2)) ((S i - 1) / 2)
    | false := heap }.
Proof.
  change ((i - 0) / 2 < S i).
  apply Nat.Div0.div_lt_upper_bound. lia.
Qed.

Definition bubbleUp (heap : list T) : list T :=
  bubbleUp_from heap (length heap - 1).

Definition insert (heap : list T) (item : T) : list T :=
  bubbleUp (heap ++ [item]).

(** One pass of the body of [bubbleDown]: the index to swap with. *)
Definition smallestOf (heap : list T) (index : nat) : nat :=
  let lastIndex := length heap - 1 in
  let leftChildIndex := 2 * index + 1 in
  let rightChildIndex := 2 * index + 2 in
  let smallestIndex := index in
  let smallestIndex :=
    if (leftChildIndex <=? lastIndex) && less heap leftChildIndex smallestIndex
    then leftChildIndex else smallestIndex in
  let smallestIndex :=
    if (rightChildIndex <=? lastIndex) && less heap rightChildIndex smallestIndex
    then rightChildIndex else smallestIndex in
  smallestIndex.

Lemma smallestOf_range heap index :
  smallestOf heap index <> index ->
  index < smallestOf heap index < length heap.
Proof.
  unfold smallestOf. cbv zeta.
  destruct ((2 * index + 1 <=? length heap - 1) && _) eqn:E1;
    destruct ((2 * index + 2 <=? length heap - 1) && _) eqn:E2;
    try apply andb_true_iff in E1 as [E1 _];
    try apply andb_true_iff in E2 as [E2 _];
    try apply Nat.leb_le in E1; try apply Nat.leb_le in E2; lia.
Qed.

(** The [while (true)] loop of [bubbleDown]. *)
Equations? bubbleDown_from (heap : list T) (index : nat) : list T
  by wf (length heap - index) lt :=
  bubbleDown_from heap index with inspect (smallestOf heap index =? index) := {
    | exist _ true _ := heap
    | exist _ false Hne :=
        bubbleDown_from (swap heap index (smallestOf heap index))
                        (smallestOf heap index) }.
Proof.
  apply Nat.eqb_neq in Hne. apply smallestOf_range in Hne.
  rewrite length_swap. lia.
Qed.

Definition bubbleDown (heap : list T) : list T := bubbleDown_from heap 0.

(** [extractMin]: the extracted item ([None] is [undefined]) and the
    heap that remains. *)
Definition extractMin (heap : list T) : option T * list T :=
  match heap with
  | [] => (None, [])
  | [x] => (Some x, [])
  | min :: tl => (Some min, bubbleDown (<[0 := List.last tl min]> (removelast heap)))
  end.

Definition peekMin (heap : list T) : option T := heap !! 0.

(** Sizes, as the loop of [buildHuffmanTree] needs them to terminate. *)
Lemma length_bubbleUp_from heap index :
  length (bubbleUp_from heap index) = length heap.
Proof.
  funelim (bubbleUp_from heap index); trivial.
  match goal with IH : length _ = length _ |- _ => rewrite IH end.
  apply length_swap.
Qed.

Lemma length_bubbleDown_from heap index :
  length (bubbleDown_from heap index) = length heap.
Proof.
  funelim (bubbleDown_from heap index); trivial.
  match goal with IH : length _ = length _ |- _ => rewrite IH end.
  apply length_swap.
Qed.

Lemma length_insert_heap heap item :
  length (insert heap item) = S (length heap).
Proof.
  unfold insert, bubbleUp. rewrite length_bubbleUp_from, length_app.
  simpl. lia.
Qed.

Lemma length_extractMin heap :
  length (extractMin heap).2 = length heap - 1.
Proof.
  destruct heap as [|a [|b tl]]; trivial.
  unfold extractMin, bubbleDown. cbn [snd].
  rewrite length_bubbleDown_from, length_insert, removelast_firstn_len.
  rewrite length_take. simpl length. lia.
Qed.

End MinHeap.
End MinHeap.

(** ** Huffman coding ([huffman-compression.ts]) *)

Module Huffman.
Import MinHeap.

(** [interface HuffmanNode { char?; freq; left?; right? }] *)
Inductive HuffmanNode : Type :=
| Node (char : option jsstring) (freq : N) (left right : option HuffmanNode).

Definition char (n : HuffmanNode) : option jsstring :=
  match n with Node c _ _ _ => c end.
Definition freq (n : HuffmanNode) : N :=
  match n with Node _ f _ _ => f end.
Definition left (n : HuffmanNode) : option HuffmanNode :=
  match n with Node _ _ l _ => l end.
Definition right (n : HuffmanNode) : option HuffmanNode :=
  match n with Node _ _ _ r => r end.

(** The built-ins [JSON.stringify] and [JSON.parse], at the type the
    source uses them at. *)
Class JSON := {
  JSON_stringify : HuffmanNode -> jsstring;
  JSON_parse : jsstring -> Result HuffmanNode
}.

Record HuffmanCompressionResult := CompressionResult {
  compressed : jsstring;
  tree : jsstring;
  originalCharForSingle : option jsstring
}.

(** A [Map] whose iteration order matters: the entries in insertion
    order, one per key. *)
Fixpoint mapGet {V} (m : list (jsstring * V)) (k : jsstring) : option V :=
  match m with
  | [] => None
  | (k', v) :: m' => if decide (k' = k) then Some v else mapGet m' k
  end.

Fixpoint mapSet {V} (m : list (jsstring * V)) (k : jsstring) (v : V) : list (jsstring * V) :=
  match m with
  | [] => [(k, v)]
  | (k', v') :: m' =>
      if decide (k' = k) then (k', v) :: m' else (k', v') :: mapSet m' k v
  end.

Definition buildFrequencyMap (text : jsstring) : list (jsstring * N) :=
  foldl (fun freqMap char => mapSet freqMap char (default 0 (mapGet freqMap char) + 1))
        [] (chars text).

(** [(a, b) => a.freq - b.freq] *)
Definition byFreq (a b : HuffmanNode) : Z := (Z.of_N (freq a) - Z.of_N (freq b))%Z.

(** The [while (minHeap.size() > 1)] loop. Reading [.freq] of an
    [undefined] extraction would be a [TypeError]. *)
Equations? mergeLoop (minHeap : list HuffmanNode) : Result (list HuffmanNode)
  by wf (length minHeap) lt :=
  mergeLoop minHeap with inspect (1 <? length minHeap)%nat := {
    | exist _ false _ := Ok minHeap
    | exist _ true Hsize with inspect (extractMin byFreq minHeap) := {
        | exist _ (Some left, h1) E1 with inspect (extractMin byFreq h1) := {
            | exist _ (Some right, h2) E2 :=
                mergeLoop (insert byFreq h2
                             (Node None (freq left + freq right) (Some left) (Some right)))
            | exist _ (None, _) _ := Throw TypeError }
        | exist _ (None, _) _ := Throw TypeError } }.
Proof.
  apply Nat.ltb_lt in Hsize.
  rewrite length_insert_heap.
  pose proof (length_extractMin byFreq minHeap) as L1.
  pose proof (length_extractMin byFreq h1) as L2.
  rewrite E1 in L1. rewrite E2 in L2. simpl in L1, L2. lia.
Qed.

Definition buildHuffmanTree (freqMap : list (jsstring * N)) : Result (option HuffmanNode) :=
  let minHeap :=
    foldl (fun heap '(char, freq) => insert byFreq heap (Node (Some char) freq None None))
          [] freqMap in
  if (length minHeap =? 1)%nat then Ok (extractMin byFreq minHeap).1
  else
    minHeap <-! mergeLoop minHeap;
    Ok (extractMin byFreq minHeap).1.

(** [node.char !== undefined && !node.left && !node.right] *)
Definition isLeaf (node : HuffmanNode) : bool :=
  match node with
  | Node (Some _) _ None None => true
  | _ => false
  end.

(** The inner function [traverse], threading [encodingMap]. *)
Fixpoint traverse (node : HuffmanNode) (code : jsstring)
    (encodingMap : gmap jsstring jsstring) : gmap jsstring jsstring :=
  match node with
  | Node (Some c) _ None None =>
      <[c := if isEmpty code then str "0" else code]> encodingMap
  | Node _ _ l r =>
      let encodingMap :=
        match l with
        | Some ln => traverse ln (code ++ str "0") encodingMap
        | None => encodingMap
        end in
      match r with
      | Some rn => traverse rn (code ++ str "1") encodingMap
      | None => encodingMap
      end
  end.

Definition buildEncodingMap (root : option HuffmanNode) : gmap jsstring jsstring :=
  match root with
  | None => ∅
  | Some root => traverse root [] ∅
  end.

(** [compressed += encodingMap.get(char)] over the characters of [text]. *)
Definition encode (encodingMap : gmap jsstring jsstring) (text : jsstring) : jsstring :=
  foldl (fun compressed char =>
           compressed ++ default (str "undefined") (encodingMap !! char))
        [] (chars text).

Definition compress `{JSON} (text : jsstring) : Result HuffmanCompressionResult :=
  if isEmpty text then Ok (CompressionResult [] [] None)
  else
    let freqMap := buildFrequencyMap text in
    match freqMap with
    | [(char, _)] =>
        let treeNode := Node (Some char) (default 0 (mapGet freqMap char)) None None in
        Ok (CompressionResult (repeat_str (str "0") (length text))
                              (JSON_stringify treeNode)
                              (Some char))
    | _ =>
        tree <-! buildHuffmanTree freqMap;
        match tree with
        | None => Ok (CompressionResult [] [] None)
        | Some tree =>
            let encodingMap := buildEncodingMap (Some tree) in
            Ok (CompressionResult (encode encodingMap text) (JSON_stringify tree) None)
        end
    end.

Definition malformed : jsstring := str "ERROR: Malformed data".

(** The loop over the bits of [compressed]; a [return] inside the loop
    ends it with that value. *)
Fixpoint decodeBits (tree : HuffmanNode) (bits : list jsstring)
    (result : jsstring) (currentNode : HuffmanNode) : jsstring :=
  match bits with
  | [] => result
  | bit :: bits' =>
      let next :=
        if decide (bit = str "0") then left currentNode
        else if decide (bit = str "1") then right currentNode
        else None in
      match next with
      | None => malformed
      | Some currentNode =>
          if isLeaf currentNode
          then decodeBits tree bits' (result ++ default [] (char currentNode)) tree
          else decodeBits tree bits' result currentNode
      end
  end.

(** [decompress] after [JSON.parse]. *)
Definition decompressTree (compressed : jsstring) (tree : HuffmanNode) : jsstring :=
  match tree with
  | Node (Some c) _ None None => repeat_str c (length compressed)
  | _ => decodeBits tree (chars compressed) [] tree
  end.

Definition decompress `{JSON} (compressed treeStr : jsstring) : Result jsstring :=
  if isEmpty compressed || isEmpty treeStr then Ok []
  else
    tree <-! JSON_parse treeStr;
    Ok (decompressTree compressed tree).

End Huffman.

(** ** The handlers of the page ([App.tsx])

    [handleDecompress] is synchronous and is embedded whole: the React
    state it reads and sets, and the message it passes to [alert]; what
    it writes with [console.error] is left out. Of [handleCompress],
    which awaits the PDF text and starts a download, only the [switch]
    over the algorithms is embedded. *)

Module App.

(** [type CompressionAlgorithm = "RLE" | "Huffman" | "LZW"] *)
Inductive CompressionAlgorithm : Type := RLE | Huffman | LZW.

(** [s.trim()]: white space and line terminators removed at both ends. *)
Fixpoint trimStart (s : jsstring) : jsstring :=
  match s with
  | [] => []
  | c :: r => if isWhiteSpace c then trimStart r else s
  end.

Definition trim (s : jsstring) : jsstring := rev (trimStart (rev (trimStart s))).

(** The state of the component that [handleDecompress] reads and sets. *)
Record state := State {
  algorithm : CompressionAlgorithm;
  loading : bool;
  compressedText : jsstring;
  decompressedText : jsstring;
  huffmanTree : jsstring
}.

(** What [handleDecompress] throws to its own [catch]: its two messages,
    or the error of a codec. *)
Inductive thrown : Type :=
| EnterCompressedText  (* "Please enter compressed text to decompress" *)
| TreeRequired         (* "Huffman tree is required for decompression" *)
| Raised (e : Error).

(** The [try] block up to [setDecompressedText]: the decompressed text,
    or what is thrown. The [default] branch of the [switch] is out of
    reach, [algorithm] being one of the three names. *)
Definition decompressed `{NumberBuiltin} `{Huffman.JSON} (st : state)
    : thrown + jsstring :=
  if isEmpty (trim (compressedText st)) then inl EnterCompressedText
  else
    let run (r : Result jsstring) : thrown + jsstring :=
      match r with
      | Ok text => inr text
      | Throw e => inl (Raised e)
      end in
    match algorithm st with
    | RLE => run (RLE.decompress (compressedText st))
    | Huffman =>
        if isEmpty (huffmanTree st) then inl TreeRequired
        else run (Huffman.decompress (compressedText st) (huffmanTree st))
    | LZW => run (LZW.decompress (compressedText st))
    end.

(** [handleDecompress]: the state once the handler has run
    ([setLoading(false)] in [finally]), and the error whose message it
    has passed to [alert], if any. *)
Definition handleDecompress `{NumberBuiltin} `{Huffman.JSON} (st : state)
    : state * option thrown :=
  match decompressed st with
  | inr text =>
      (State (algorithm st) false (compressedText st) text (huffmanTree st), None)
  | inl error =>
      (State (algorithm st) false (compressedText st) (decompressedText st)
             (huffmanTree st),
       Some error)
  end.

(** The [switch] of [handleCompress] on the extracted [text]: the
    compressed data, and the tree string the state holds after it
    ([setHuffmanTree] in the Huffman case). *)
Definition compressedData `{Huffman.JSON} (algorithm : CompressionAlgorithm)
    (text huffmanTree : jsstring) : Result (jsstring * jsstring) :=
  match algorithm with
  | RLE => Ok (RLE.compress text, huffmanTree)
  | Huffman =>
      huffmanResult <-! Huffman.compress text;
      Ok (Huffman.compressed huffmanResult, Huffman.tree huffmanResult)
  | LZW => Ok (LZW.compress text, huffmanTree)
  end.

End App.

(** ** Reference built-ins

    The codecs above are parametric in [Number], [JSON.stringify] and
    [JSON.parse]. The instances below implement the fragment of those
    built-ins that the codecs exercise on their own output, and serve to
    run the codecs on concrete inputs. *)

Module Reference.
Import Huffman.

(** [Number(s)] on the empty string and on decimal numerals. *)
#[export] Instance decimalNumber : NumberBuiltin := fun s =>
  if forallb isDigit s then NatNum (N.of_uint (uint_of_digits s)) else OtherNum.

Definition hexDigit (d : N) : N := if d <? 10 then 48 + d else 87 + d.

Definition unhex (c : N) : option N :=
  if (48 <=? c) && (c <=? 57) then Some (c - 48)
  else if (97 <=? c) && (c <=? 102) then Some (c - 87)
  else if (65 <=? c) && (c <=? 70) then Some (c - 55)
  else None.

Definition needsEscape (c : N) : bool :=
  (c <? 32) || ((0xD800 <=? c) && (c <=? 0xDFFF)).

(** One code unit inside a JSON string literal. Control characters and
    surrogates are written in the six-character [\uXXXX] form. *)
Definition escapeUnit (c : N) : jsstring :=
  if c =? 34 then [92; 34]
  else if c =? 92 then [92; 92]
  else if needsEscape c then
    [92; 117; hexDigit (c / 4096 mod 16); hexDigit (c / 256 mod 16);
     hexDigit (c / 16 mod 16); hexDigit (c mod 16)]
  else [c].

Definition quote (s : jsstring) : jsstring :=
  34 :: concat (escapeUnit <$> s) ++ [34].

(** ["key":] *)
Definition key (k : string) : jsstring := 34 :: str k ++ [34; 58].

Fixpoint stringify (node : HuffmanNode) : jsstring :=
  match node with
  | Node c f l r =>
      str "{"
      ++ match c with Some c => key "char" ++ quote c ++ str "," | None => [] end
      ++ key "freq" ++ toString f
      ++ match l with Some t => str "," ++ key "left" ++ stringify t | None => [] end
      ++ match r with Some t => str "," ++ key "right" ++ stringify t | None => [] end
      ++ str "}"
  end.

(** The rest of a string literal, after its opening quote: the decoded
    string and what follows the closing quote. *)
Fixpoint unquote (s : jsstring) : option (jsstring * jsstring) :=
  match s with
  | [] => None
  | c :: rest =>
      if c =? 34 then Some ([], rest)
      else if c =? 92 then
        match rest with
        | e :: rest' =>
            if e =? 117 then
              match rest' with
              | h3 :: h2 :: h1 :: h0 :: rest'' =>
                  match unhex h3, unhex h2, unhex h1, unhex h0, unquote rest'' with
                  | Some d3, Some d2, Some d1, Some d0, Some (t, r) =>
                      Some (((d3 * 16 + d2) * 16 + d1) * 16 + d0 :: t, r)
                  | _, _, _, _, _ => None
                  end
              | _ => None
              end
            else
              let plain :=
                if (e =? 34) || (e =? 92) || (e =? 47) then Some e
                else if e =? 98 then Some 8
                else if e =? 102 then Some 12
                else if e =? 110 then Some 10
                else if e =? 114 then Some 13
                else if e =? 116 then Some 9
                else None in
              match plain, unquote rest' with
              | Some d, Some (t, r) => Some (d :: t, r)
              | _, _ => None
              end
        | [] => None
        end
      else if c <? 32 then None
      else
        match unquote rest with
        | Some (t, r) => Some (c :: t, r)
        | None => None
        end
  end.

Fixpoint stripPrefix (p s : jsstring) : option jsstring :=
  match p, s with
  | [], _ => Some s
  | a :: p', b :: s' => if a =? b then stripPrefix p' s' else None
  | _ :: _, [] => None
  end.

(** The leading decimal digits and what follows them. *)
Fixpoint spanDigits (s : jsstring) : jsstring * jsstring :=
  match s with
  | c :: r =>
      if isDigit c then let '(d, r') := spanDigits r in (c :: d, r')
      else ([], s)
  | [] => ([], [])
  end.

(** A field that may be absent: [pre] announces it, [p] reads it. *)
Definition optional {A} (pre : jsstring)
    (p : jsstring -> option (A * jsstring)) (s : jsstring)
    : option (option A * jsstring) :=
  match stripPrefix pre s with
  | Some s' => '(x, s') ← p s'; Some (Some x, s')
  | None => Some (None, s)
  end.

Definition charField (s : jsstring) : option (jsstring * jsstring) :=
  '(c, s) ← unquote s;
  s ← stripPrefix (str ",") s;
  Some (c, s).

Definition freqField (s : jsstring) : option (N * jsstring) :=
  s ← stripPrefix (key "freq") s;
  let '(d, s) := spanDigits s in
  if isEmpty d then None else Some (N.of_uint (uint_of_digits d), s).

(** A node object in the layout [stringify] writes. *)
Fixpoint parseNode (fuel : nat) (s : jsstring) : option (HuffmanNode * jsstring) :=
  match fuel with
  | O => None
  | S fuel =>
      s ← stripPrefix (str "{") s;
      '(c, s) ← optional (key "char" ++ [34]) charField s;
      '(f, s) ← freqField s;
      '(l, s) ← optional (str "," ++ key "left") (parseNode fuel) s;
      '(r, s) ← optional (str "," ++ key "right") (parseNode fuel) s;
      s ← stripPrefix (str "}") s;
      Some (Node c f l r, s)
  end.

Definition parse (s : jsstring) : Result HuffmanNode :=
  match parseNode (S (length s)) s with
  | Some (node, []) => Ok node
  | _ => Throw SyntaxError
  end.

#[export] Instance nodeJSON : JSON := {
  JSON_stringify := stringify;
  JSON_parse := parse
}.

End Reference.

(** ** Vocabulary of the statements *)

(** Texts without an ASCII digit, and texts of code units up to 255. *)
Definition digitFree (s : jsstring) : Prop := Forall (fun c => isDigit c = false) s.

Definition latin1 (s : jsstring) : Prop := Forall (fun c => c < 256) s.

(** The text is one surrogate pair, repeated. *)
Definition oneRepeatedPair (text : jsstring) : bool :=
  match chars text with
  | [] => false
  | ch :: rest =>
      (length ch =? 2)%nat && forallb (fun x => bool_decide (x = ch)) rest
  end.

(** What the development assumes of the built-in [Number]: it reads a
    decimal numeral as the number it denotes. *)
Definition Number_reads_decimal `{NumberBuiltin} : Prop :=
  forall n, Number (toString n) = NatNum n.

(** What the development assumes of the built-ins [JSON.stringify] and
    [JSON.parse]: a node object written out is never the empty string,
    and reading it back gives the same node. *)
Definition JSON_faithful `{Huffman.JSON} : Prop :=
  forall node,
    Huffman.JSON_parse (Huffman.JSON_stringify node) = Ok node
    /\ Huffman.JSON_stringify node <> [].

(** The LZW decoder state once the codes [codes] have been read. *)
Definition decodeState (codes : list number) : Result LZW.dstate :=
  match codes with
  | [] => Throw FirstCodeNotInDictionary
  | firstCode :: rest =>
      match LZW.lookupCode LZW.initialMirror firstCode with
      | None => Throw FirstCodeNotInDictionary
      | Some p =>
          forM LZW.decompress_step rest (LZW.DState LZW.initialMirror 256 p p)
      end
  end.

(** The LZW decoder state after [entry] has been decoded. *)
Definition advance (st : LZW.dstate) (entry : jsstring) : LZW.dstate :=
  LZW.DState
    (<[LZW.nextCode st := LZW.prevPhrase st ++ at0 entry]> (LZW.mirror st))
    (LZW.nextCode st + 1) (LZW.output st ++ entry) entry.

(** The child the Huffman decoder moves to on [bit]; [None] where the
    source returns the error string. *)
Definition descend (node : Huffman.HuffmanNode) (bit : jsstring)
    : option Huffman.HuffmanNode :=
  if decide (bit = str "0") then Huffman.left node
  else if decide (bit = str "1") then Huffman.right node
  else None.

(** [walk tree bits node result]: after the bits [bits] the decoder is
    at [node] with [result] decoded, and has not returned yet. *)
Inductive walk (tree : Huffman.HuffmanNode)
    : list jsstring -> Huffman.HuffmanNode -> jsstring -> Prop :=
| walk_start : walk tree [] tree []
| walk_inner bits node result bit next :
    walk tree bits node result ->
    descend node bit = Some next -> Huffman.isLeaf next = false ->
    walk tree (bits ++ [bit]) next result
| walk_leaf bits node result bit next :
    walk tree bits node result ->
    descend node bit = Some next -> Huffman.isLeaf next = true ->
    walk tree (bits ++ [bit]) tree
         (result ++ default [] (Huffman.char next)).

(** The text that the counts and characters of [compressed] spell out,
    with exact counts; a count at the end, with no character, adds
    nothing. *)
Definition expansion (compressed : jsstring) : jsstring :=
  match forM RLE.decompress_step compressed ([], []) with
  | Ok (result, _) => result
  | Throw _ => []
  end.

(** The decoder's dictionary holds exactly the codes below the next free
    one. *)
Definition keys_below (st : LZW.dstate) : Prop :=
  forall k, is_Some (LZW.mirror st !! k) <-> k < LZW.nextCode st.

(** The code at position [i] is within the dictionary as it stands when
    the decoder reads it: a non-negative integer of at most [255 + i]. *)
Definition inBounds (i : nat) (code : number) : bool :=
  match code with
  | NatNum k => k <=? 255 + N.of_nat i
  | OtherNum => false
  end.

(** The number of steps of the string iterator that give [ch]. *)
Definition occurrences (ch : jsstring) (text : jsstring) : nat :=
  length (filter (fun x => x = ch) (chars text)).

(** The sum of the frequencies of a map. *)
Definition total (freqMap : list (jsstring * N)) : N :=
  foldr (fun entry acc => entry.2 + acc) 0 freqMap.

(** The leaves of a tree from left to right, with their frequencies. *)
Fixpoint leafEntries (t : Huffman.HuffmanNode) : list (jsstring * N) :=
  match t with
  | Huffman.Node (Some c) f None None => [(c, f)]
  | Huffman.Node _ _ l r =>
      match l with Some ln => leafEntries ln | None => [] end
      ++ match r with Some rn => leafEntries rn | None => [] end
  end.

(** The trees the merge loop makes: a leaf, or a parent of two such
    trees that carries the sum of their frequencies, the left one not
    more frequent than the right one. *)
Inductive merged : Huffman.HuffmanNode -> Prop :=
| merged_leaf c f : merged (Huffman.Node (Some c) f None None)
| merged_parent l r :
    merged l -> merged r -> Huffman.freq l <= Huffman.freq r ->
    merged (Huffman.Node None (Huffman.freq l + Huffman.freq r) (Some l) (Some r)).

(** A pushed code is below the size the dictionary has when it is pushed;
    [undefined] is no code. *)
Definition codeWithin (i : nat) (code : option N) : Prop :=
  forall k, code = Some k -> k <= 255 + N.of_nat i.

(** What [Number] reads from a rendered array element. *)
Definition numberOf (code : option N) : number :=
  match code with
  | Some k => NatNum k
  | None => NatNum 0
  end.

(** A string of white space only. *)
Definition blank (s : jsstring) : Prop := Forall (fun c => isWhiteSpace c = true) s.

(** The texts that come back through the two buttons. *)
Definition comesBack (algorithm : App.CompressionAlgorithm) (text : jsstring) : Prop :=
  match algorithm with
  | App.RLE => digitFree text /\ Exists (fun c => isWhiteSpace c = false) text
  | App.Huffman => oneRepeatedPair text = false /\ text <> []
  | App.LZW => latin1 text /\ text <> []
  end.

(** The decoder stops at [bit], after the bits [pre]. *)
Definition faultAt (tree : Huffman.HuffmanNode) (bits : list jsstring) : Prop :=
  exists pre bit post node result,
    bits = pre ++ bit :: post
    /\ walk tree pre node result /\ descend node bit = None.

(** * Properties *)

(** ** Loops, strings and numerals *)

Lemma forM_app {S A} (body : S -> A -> Result S) l1 l2 st :
  forM body (l1 ++ l2) st = bind (forM body l1 st) (forM body l2).
Proof.
  revert st. induction l1 as [|a l1 IH]; intros st; simpl; trivial.
  destruct (body st a); simpl; auto.
Qed.

Lemma uint_of_digits_of_uint u : uint_of_digits (digits_of_uint u) = u.
Proof. induction u; simpl; congruence. Qed.

Lemma digits_of_uint_isDigit u : Forall (fun c => isDigit c = true) (digits_of_uint u).
Proof. induction u; simpl; constructor; auto. Qed.

Lemma to_uint_not_Nil n : N.to_uint n <> Decimal.Nil.
Proof.
  destruct n as [|p]; [discriminate|].
  simpl. intros E.
  pose proof (DecimalPos.Unsigned.of_to p) as H. rewrite E in H. discriminate.
Qed.

Lemma toString_isDigit n : Forall (fun c => isDigit c = true) (toString n).
Proof. apply digits_of_uint_isDigit. Qed.

Lemma toString_not_empty n : toString n <> [].
Proof.
  unfold toString. pose proof (to_uint_not_Nil n).
  destruct (N.to_uint n); simpl; congruence.
Qed.

Lemma parseDigits_toString n : parseDigits (toString n) = Some (Z.of_N n).
Proof.
  unfold parseDigits, toString. rewrite uint_of_digits_of_uint.
  pose proof (to_uint_not_Nil n) as Hn.
  pose proof (DecimalN.Unsigned.of_to n) as Hof.
  destruct (N.to_uint n); try congruence; now rewrite Hof.
Qed.

Lemma isDigit_range c : isDigit c = true <-> 48 <= c <= 57.
Proof. unfold isDigit. rewrite andb_true_iff, !N.leb_le. tauto. Qed.

Lemma parseInt_digit_head c r :
  isDigit c = true -> parseInt (c :: r) = parseDigits (c :: r).
Proof.
  intros Hc%isDigit_range. simpl.
  replace (isWhiteSpace c) with false.
  - destruct (N.eqb_spec c 45); [lia|]. destruct (N.eqb_spec c 43); [lia|]. trivial.
  - symmetry. unfold isWhiteSpace.
    repeat (apply orb_false_iff; split);
      try (apply N.eqb_neq; lia).
    apply andb_false_iff. left. apply N.leb_gt. lia.
Qed.

Lemma parseInt_toString n : parseInt (toString n) = Some (Z.of_N n).
Proof.
  rewrite <- parseDigits_toString.
  pose proof (toString_isDigit n) as Hd. pose proof (toString_not_empty n) as Hne.
  destruct (toString n) as [|c r]; [congruence|].
  inversion Hd; subst. now apply parseInt_digit_head.
Qed.

Lemma repeat_str_unit c k : repeat_str [c] k = replicate k c.
Proof. unfold repeat_str. induction k; simpl; congruence. Qed.

Lemma concat_chars s : concat (chars s) = s.
Proof.
  induction s as [s IH] using (well_founded_induction
    (well_founded_ltof _ (@length N))).
  destruct s as [|c [|d r]]; trivial.
  change (chars (c :: d :: r)) with
    (if isHighSurrogate c && isLowSurrogate d
     then [c; d] :: chars r else [c] :: chars (d :: r)).
  destruct (isHighSurrogate c && isLowSurrogate d); cbn [concat app].
  - f_equal. f_equal. apply IH. unfold ltof. simpl. lia.
  - f_equal. apply IH. unfold ltof. simpl. lia.
Qed.

(** ** Run-length encoding *)

Module RLE_facts.
Import RLE.

(** Without a limit the loop never takes the [RangeError] branch. *)
Lemma decompress_step_eq result countBuffer char :
  decompress_step (result, countBuffer) char
  = if isDigit char then Ok (result, countBuffer ++ [char])
    else
      match (if isEmpty countBuffer then Some 1%Z else parseInt countBuffer) with
      | None => Throw BadRepeatCount
      | Some n =>
          if (n <? 0)%Z then Throw BadRepeatCount
          else Ok (result ++ repeat_str [char] (Z.to_nat n), [])
      end.
Proof. reflexivity. Qed.

Lemma decompress_eq compressed :
  decompress compressed
  = if isEmpty compressed then Ok []
    else
      match forM decompress_step compressed ([], []) with
      | Throw e => Throw e
      | Ok (result, countBuffer) =>
          if isEmpty countBuffer then Ok result else Throw EndsWithNumber
      end.
Proof. reflexivity. Qed.

Lemma forM_digits result buf ds :
  Forall (fun c => isDigit c = true) ds ->
  forM decompress_step ds (result, buf) = Ok (result, buf ++ ds).
Proof.
  revert buf. induction ds as [|d ds IH]; intros buf Hds; simpl.
  - now rewrite app_nil_r.
  - inversion Hds; subst. rewrite H1. simpl.
    rewrite IH by assumption. now rewrite <- app_assoc.
Qed.

(** Decoding the text of one run, [count] then the character. *)
Lemma forM_run result n c :
  isDigit c = false -> 1 <= n ->
  forM decompress_step ((if 1 <? n then toString n else []) ++ [c]) (result, [])
  = Ok (result ++ replicate (N.to_nat n) c, []).
Proof.
  intros Hc Hn. rewrite forM_app.
  destruct (N.ltb_spec 1 n) as [Hlt|Hle].
  - rewrite forM_digits by apply toString_isDigit. simpl. rewrite Hc.
    pose proof (toString_not_empty n).
    destruct (toString n) as [|d ds] eqn:E; [congruence|]. simpl isEmpty. cbv iota.
    rewrite <- E, parseInt_toString.
    destruct (Z.ltb_spec (Z.of_N n) 0); [lia|].
    now rewrite <- N_nat_Z, Nat2Z.id, repeat_str_unit.
  - assert (n = 1) as -> by lia. simpl. now rewrite Hc.
Qed.

Lemma decode_appendRun st orig :
  isDigit (currentChar st) = false -> 1 <= count st ->
  forM decompress_step (result st) ([], []) = Ok (orig, []) ->
  forM decompress_step (appendRun st) ([], [])
  = Ok (orig ++ replicate (N.to_nat (count st)) (currentChar st), []).
Proof.
  intros Hc Hn Hres. unfold appendRun.
  rewrite forM_app, Hres. simpl. now apply forM_run.
Qed.

Lemma decode_compress_loop rest : forall st orig,
  digitFree rest ->
  isDigit (currentChar st) = false -> 1 <= count st ->
  forM decompress_step (result st) ([], []) = Ok (orig, []) ->
  forM decompress_step (appendRun (fold_left compress_step rest st)) ([], [])
  = Ok (orig ++ replicate (N.to_nat (count st)) (currentChar st) ++ rest, []).
Proof.
  induction rest as [|x rest IH]; intros st orig Hrest Hc Hn Hres; simpl.
  - rewrite app_nil_r. now apply decode_appendRun.
  - inversion Hrest; subst. unfold compress_step at 2.
    destruct (N.eqb_spec x (currentChar st)) as [->|Hne].
    + rewrite (IH _ orig); simpl; trivial; try lia.
      rewrite N.add_1_r, N2Nat.inj_succ, replicate_S_end, <- !app_assoc.
      reflexivity.
    + rewrite (IH _ (orig ++ replicate (N.to_nat (count st)) (currentChar st)));
        simpl; trivial; try lia.
      * now rewrite <- !app_assoc.
      * now apply decode_appendRun.
Qed.


Lemma appendRun_not_empty st : isEmpty (appendRun st) = false.
Proof.
  unfold appendRun. destruct (result st); simpl; trivial.
  destruct (if 1 <? count st then toString (count st) else []); trivial.
Qed.

(** The count buffer only ever holds digits, so the loop itself never
    throws. *)
Lemma uint_of_digits_not_Nil c r :
  isDigit c = true -> uint_of_digits (c :: r) <> Decimal.Nil.
Proof.
  intros Hc%isDigit_range.
  assert (c = 48 \/ c = 49 \/ c = 50 \/ c = 51 \/ c = 52 \/ c = 53 \/
          c = 54 \/ c = 55 \/ c = 56 \/ c = 57) as Hcases by lia.
  repeat destruct Hcases as [-> | Hcases]; try subst c; discriminate.
Qed.

Lemma parseInt_digits ds :
  ds <> [] -> Forall (fun c => isDigit c = true) ds ->
  exists n, parseInt ds = Some (Z.of_N n).
Proof.
  intros Hne Hds. destruct ds as [|c r]; [congruence|].
  inversion Hds; subst. rewrite parseInt_digit_head by assumption.
  unfold parseDigits. pose proof (uint_of_digits_not_Nil c r H1).
  destruct (uint_of_digits (c :: r)); try congruence; eauto.
Qed.

Lemma forM_never_throws s : forall result buf,
  Forall (fun c => isDigit c = true) buf ->
  exists result' buf',
    forM decompress_step s (result, buf) = Ok (result', buf')
    /\ Forall (fun c => isDigit c = true) buf'.
Proof.
  induction s as [|c s IH]; intros result buf Hbuf; simpl; eauto.
  destruct (isDigit c) eqn:Hc; simpl.
  - apply IH. apply Forall_app; auto.
  - destruct buf as [|b buf]; simpl isEmpty; cbv iota.
    + simpl. apply IH. constructor.
    + destruct (parseInt_digits (b :: buf)) as [n ->]; try congruence; trivial.
      destruct (Z.ltb_spec (Z.of_N n) 0); [lia|]. simpl. apply IH. constructor.
Qed.

Lemma roundtrip_digitFree text :
  digitFree text -> decompress (compress text) = Ok text.
Proof.
  intros Ht. destruct text as [|c0 rest]; [reflexivity|].
  inversion Ht as [|? ? Hc0 Hrest]; subst.
  unfold compress. rewrite decompress_eq, appendRun_not_empty.
  rewrite (decode_compress_loop rest (CState [] 1 c0) []);
    simpl; trivial; try lia.
Qed.

Lemma trailing_digit_throws s d :
  isDigit d = true -> decompress (s ++ [d]) = Throw EndsWithNumber.
Proof.
  intros Hd. rewrite decompress_eq.
  assert (isEmpty (s ++ [d]) = false) as -> by now destruct s.
  rewrite forM_app.
  destruct (forM_never_throws s [] []) as (r & buf & -> & _); [constructor|].
  simpl. rewrite Hd. now destruct buf.
Qed.

End RLE_facts.

(** ** LZW *)

Lemma chars_units s :
  Forall (fun c => isHighSurrogate c = false) s -> chars s = (fun c => [c]) <$> s.
Proof.
  induction 1 as [|c rest Hc Hrest IH]; trivial.
  destruct rest as [|d r]; trivial.
  change (chars (c :: d :: r)) with
    (if isHighSurrogate c && isLowSurrogate d
     then [c; d] :: chars r else [c] :: chars (d :: r)).
  rewrite Hc, IH. reflexivity.
Qed.

Lemma lookup_foldl_insert {K V A} `{Countable K} (f : A -> K) (g : A -> V)
    (l : list A) (m : gmap K V) k v :
  (forall a b, f a = f b -> a = b) ->
  foldl (fun d i => <[f i := g i]> d) m l !! k = Some v <->
  (exists i, i ∈ l /\ f i = k /\ g i = v)
  \/ ((forall i, i ∈ l -> f i <> k) /\ m !! k = Some v).
Proof.
  intros Hinj. revert m. induction l as [|a l IH]; intros m; simpl.
  - split.
    + intros Hm. right. split; [|assumption]. intros i Hi. inversion Hi.
    + intros [(i & Hi & _) | [_ Hm]]; [inversion Hi | assumption].
  - rewrite IH. split.
    + intros [(i & Hi & Hf & Hg) | [Hl Hm]].
      * left. exists i. split; [now constructor | auto].
      * destruct (decide (f a = k)) as [Hk|Hk].
        -- subst k. rewrite lookup_insert_eq in Hm. left. exists a.
           split; [constructor | split; congruence].
        -- rewrite lookup_insert_ne in Hm by assumption. right. split; trivial.
           intros i Hi. inversion Hi; subst; auto.
    + intros [(i & Hi & Hf & Hg) | [Hl Hm]].
      * inversion Hi; subst.
        -- destruct (decide (f a ∈ f <$> l)) as [Hin|Hno].
           ++ apply list_elem_of_fmap in Hin as (j & Hfj & Hj).
              left. exists j. pose proof (Hinj _ _ Hfj). subst j. auto.
           ++ right. split.
              ** intros j Hj Hfj. apply Hno. apply list_elem_of_fmap. eauto.
              ** apply lookup_insert_eq.
        -- left. eauto.
      * right. split.
        -- intros i Hi. apply Hl. now constructor.
        -- rewrite lookup_insert_ne; trivial. apply Hl. constructor.
Qed.

Module LZW_facts.
Import LZW.

Lemma latin1_chars s : latin1 s -> chars s = (fun c => [c]) <$> s.
Proof.
  intros Hs. apply chars_units. eapply List.Forall_impl; [|exact Hs].
  intros c Hc. unfold isHighSurrogate. apply andb_false_iff. left.
  apply N.leb_gt. simpl in Hc. lia.
Qed.

Lemma elem_of_seedCodes i : i ∈ seedCodes <-> i < 256.
Proof.
  unfold seedCodes. rewrite list_elem_of_fmap. split.
  - intros (n & -> & Hn%elem_of_seq). lia.
  - intros Hi. exists (N.to_nat i). rewrite elem_of_seq, N2Nat.id.
    split; [reflexivity | lia].
Qed.

Lemma initialDictionary_lookup s k :
  initialDictionary !! s = Some k <-> s = [k] /\ k < 256.
Proof.
  unfold initialDictionary.
  rewrite (lookup_foldl_insert fromCharCode (fun i => i)).
  - rewrite lookup_empty. unfold fromCharCode. split.
    + intros [(i & Hi%elem_of_seedCodes & <- & <-) | [_ ?]]; [auto | discriminate].
    + intros [-> Hk]. left. exists k. rewrite elem_of_seedCodes. auto.
  - unfold fromCharCode. congruence.
Qed.

Lemma initialMirror_lookup k s :
  initialMirror !! k = Some s <-> s = [k] /\ k < 256.
Proof.
  unfold initialMirror.
  rewrite (lookup_foldl_insert (fun i => i) fromCharCode).
  - rewrite lookup_empty. unfold fromCharCode. split.
    + intros [(i & Hi%elem_of_seedCodes & <- & <-) | [_ ?]]; [auto | discriminate].
    + intros [-> Hk]. left. exists k. rewrite elem_of_seedCodes. auto.
  - congruence.
Qed.

(** What [compress] pushes after the scan. *)
Definition finish (st : cstate) : list (option N) :=
  if isEmpty (currentPhrase st) then result st
  else result st ++ [dictionary st !! currentPhrase st].

Lemma at0_head (s : jsstring) c : head s = Some c -> at0 s = [c].
Proof. destruct s; simpl; congruence. Qed.

(** The encoder after it has emitted a code and the decoder after it
    has read that code: the decoder lacks exactly the newest phrase,
    [prevPhrase ++ [c]], where [c] starts the encoder's current phrase. *)
Record synced (st : cstate) (ds : dstate) (c : N) : Prop := {
  sync_size : dictSize st = nextCode ds + 1;
  sync_current : is_Some (dictionary st !! currentPhrase st);
  sync_head : head (currentPhrase st) = Some c;
  sync_pending : dictionary st !! (prevPhrase ds ++ [c]) = Some (nextCode ds);
  sync_known : forall s k, dictionary st !! s = Some k ->
    mirror ds !! k = Some s \/ (k = nextCode ds /\ s = prevPhrase ds ++ [c]);
  sync_fresh : forall k, nextCode ds <= k -> mirror ds !! k = None;
  sync_prev : prevPhrase ds <> [];
  sync_seed : forall x, x < 256 -> is_Some (dictionary st !! [x])
}.

(** The decoder reads the code of the encoder's current phrase. *)
Lemma synced_decode st ds c k :
  synced st ds c ->
  dictionary st !! currentPhrase st = Some k ->
  decompress_step ds (NatNum k)
  = Ok (DState (<[nextCode ds := prevPhrase ds ++ [c]]> (mirror ds))
               (nextCode ds + 1)
               (output ds ++ currentPhrase st)
               (currentPhrase st)).
Proof.
  intros S Hk. unfold decompress_step. simpl lookupCode.
  pose proof (at0_head _ _ (sync_head _ _ _ S)) as Hw.
  destruct (sync_known _ _ _ S _ _ Hk) as [Hm | [-> Hs]].
  - rewrite Hm. simpl. now rewrite Hw.
  - rewrite (sync_fresh _ _ _ S) by lia.
    simpl. rewrite N.eqb_refl. simpl.
    assert (at0 (prevPhrase ds) = [c]) as Hp.
    { pose proof (sync_head _ _ _ S) as Hh. rewrite Hs in Hh.
      pose proof (sync_prev _ _ _ S).
      destruct (prevPhrase ds); [congruence|]. simpl in *. congruence. }
    rewrite Hp. rewrite Hs in Hw |- *. rewrite Hw. reflexivity.
Qed.

(** Emitting a code and starting the phrase [[x]] keeps the two in step. *)
Lemma synced_emit st ds c k x :
  synced st ds c -> x < 256 ->
  dictionary st !! currentPhrase st = Some k ->
  dictionary st !! (currentPhrase st ++ [x]) = None ->
  synced (CState (<[currentPhrase st ++ [x] := dictSize st]> (dictionary st))
                 (dictSize st + 1) (result st ++ [Some k]) [x])
         (DState (<[nextCode ds := prevPhrase ds ++ [c]]> (mirror ds))
                 (nextCode ds + 1)
                 (output ds ++ currentPhrase st)
                 (currentPhrase st))
         x.
Proof.
  intros S Hx Hk Hnew.
  pose proof (sync_size _ _ _ S) as Hsize.
  constructor; simpl.
  - lia.
  - destruct (decide (currentPhrase st ++ [x] = [x])) as [->|Hne].
    + rewrite lookup_insert_eq. eauto.
    + rewrite lookup_insert_ne by assumption. now apply (sync_seed _ _ _ S).
  - reflexivity.
  - rewrite lookup_insert_eq. f_equal. lia.
  - intros s j Hj.
    destruct (decide (currentPhrase st ++ [x] = s)) as [<-|Hne].
    + rewrite lookup_insert_eq in Hj. right. split; [|reflexivity].
      injection Hj as <-. lia.
    + rewrite lookup_insert_ne in Hj by assumption. left.
      destruct (sync_known _ _ _ S _ _ Hj) as [Hm | [-> ->]].
      * rewrite lookup_insert_ne; trivial.
        intros <-. rewrite (sync_fresh _ _ _ S) in Hm by lia. discriminate.
      * apply lookup_insert_eq.
  - intros j Hj. rewrite lookup_insert_ne by lia.
    apply (sync_fresh _ _ _ S). lia.
  - intros E. rewrite E in Hk. pose proof (sync_head _ _ _ S) as Hh.
    rewrite E in Hh. discriminate.
  - intros y Hy.
    destruct (decide (currentPhrase st ++ [x] = [y])) as [->|Hne].
    + rewrite lookup_insert_eq. eauto.
    + rewrite lookup_insert_ne by assumption. now apply (sync_seed _ _ _ S).
Qed.

Lemma finish_emit st ds c :
  synced st ds c ->
  exists k ds',
    finish st = result st ++ [Some k]
    /\ decompress_step ds (NatNum k) = Ok ds'
    /\ output ds' = output ds ++ currentPhrase st.
Proof.
  intros S. destruct (sync_current _ _ _ S) as [k Hk].
  exists k. eexists. split; [|split; [eapply synced_decode; eauto|reflexivity]].
  unfold finish. pose proof (sync_head _ _ _ S) as Hh.
  assert (isEmpty (currentPhrase st) = false) as ->
    by (destruct (currentPhrase st); [discriminate | reflexivity]).
  now rewrite Hk.
Qed.

(** Encoder and decoder stay in step over the rest of the input. *)
Lemma scan_synced cs : forall st ds c,
  latin1 cs -> synced st ds c ->
  exists ks ds',
    finish (foldl compress_step st ((fun x => [x]) <$> cs))
    = result st ++ (Some <$> ks)
    /\ forM decompress_step (NatNum <$> ks) ds = Ok ds'
    /\ output ds' = output ds ++ currentPhrase st ++ cs.
Proof.
  induction cs as [|x cs IH]; intros st ds c Hcs S.
  - destruct (finish_emit _ _ _ S) as (k & ds' & Hf & Hd & Ho).
    exists [k], ds'. simpl. rewrite Hd, app_nil_r. auto.
  - inversion Hcs as [|? ? Hx Hcs']; subst. simpl.
    unfold compress_step at 2. unfold has.
    destruct (dictionary st !! (currentPhrase st ++ [x])) as [j|] eqn:Hnew.
    + (* the phrase grows *)
      destruct (IH (CState (dictionary st) (dictSize st) (result st)
                           (currentPhrase st ++ [x])) ds c Hcs')
        as (ks & ds' & Hf & Hd & Ho).
      { destruct S. constructor; simpl; eauto.
        destruct (currentPhrase st); simpl in *; congruence. }
      exists ks, ds'. simpl in Hf, Ho.
      repeat split; [exact Hf | exact Hd | now rewrite Ho, <- app_assoc].
    + (* a code is emitted *)
      destruct (sync_current _ _ _ S) as [k Hk].
      pose proof (synced_decode _ _ _ _ S Hk) as Hstep.
      pose proof (synced_emit _ _ _ _ x S Hx Hk Hnew) as S'.
      destruct (IH _ _ _ Hcs' S') as (ks & ds' & Hf & Hd & Ho).
      exists (k :: ks), ds'. simpl in Hf, Ho. rewrite Hk.
      repeat split.
      * etransitivity; [exact Hf|]. now rewrite <- app_assoc.
      * cbn [fmap list_fmap forM]. rewrite Hstep. exact Hd.
      * now rewrite Ho, <- app_assoc.
Qed.

Lemma initial_singleton x : x < 256 -> initialDictionary !! [x] = Some x.
Proof. intros. apply initialDictionary_lookup. auto. Qed.

Lemma initialMirror_singleton x : x < 256 -> initialMirror !! x = Some [x].
Proof. intros. apply initialMirror_lookup. auto. Qed.

Lemma compress_step_extend st ch j :
  dictionary st !! (currentPhrase st ++ ch) = Some j ->
  compress_step st ch
  = CState (dictionary st) (dictSize st) (result st) (currentPhrase st ++ ch).
Proof. intros E. unfold compress_step, has. now rewrite E. Qed.

Lemma compress_step_emit st ch :
  dictionary st !! (currentPhrase st ++ ch) = None ->
  compress_step st ch
  = CState (<[currentPhrase st ++ ch := dictSize st]> (dictionary st))
           (dictSize st + 1)
           (result st ++ [dictionary st !! currentPhrase st])
           ch.
Proof. intros E. unfold compress_step, has. now rewrite E. Qed.

(** The state after the first code has been emitted and read. *)
Lemma synced_first x y :
  x < 256 -> y < 256 ->
  synced (CState (<[[x; y] := 256]> initialDictionary) 257 [Some x] [y])
         (DState initialMirror 256 [x] [x]) y.
Proof.
  intros Hx Hy.
  constructor;
    cbn [dictionary dictSize result currentPhrase
         mirror nextCode output prevPhrase head app].
  - reflexivity.
  - rewrite lookup_insert_ne by discriminate.
    rewrite initial_singleton; eauto.
  - reflexivity.
  - apply lookup_insert_eq.
  - intros s k Hk. destruct (decide ([x; y] = s)) as [<-|Hne].
    + rewrite lookup_insert_eq in Hk. right. split; congruence.
    + rewrite lookup_insert_ne in Hk by assumption. left.
      apply initialDictionary_lookup in Hk as [-> Hk].
      apply initialMirror_lookup. auto.
  - intros k Hk. destruct (initialMirror !! k) eqn:E; trivial.
    apply initialMirror_lookup in E. lia.
  - discriminate.
  - intros z Hz. rewrite lookup_insert_ne by discriminate.
    rewrite initial_singleton; eauto.
Qed.

Lemma codesOf_finish text : codesOf text = finish (scan text).
Proof. reflexivity. Qed.

(** On Latin-1 text every pushed code is a number, and decoding the
    codes gives the text back. *)
Lemma codes_roundtrip text :
  latin1 text -> text <> [] ->
  exists k ks,
    codesOf text = Some <$> (k :: ks)
    /\ decode (NatNum <$> (k :: ks)) = Ok text.
Proof.
  intros Ht Hne. destruct text as [|x cs]; [congruence|].
  rewrite codesOf_finish. unfold scan. rewrite latin1_chars by assumption.
  inversion Ht as [|? ? Hx Hcs]; subst.
  cbn [fmap list_fmap foldl].
  rewrite (compress_step_extend _ _ x) by now apply initial_singleton.
  cbn [dictionary dictSize result currentPhrase app].
  destruct cs as [|y cs].
  - exists x, []. split.
    + unfold finish.
      cbn [fmap list_fmap foldl currentPhrase isEmpty dictionary result app].
      now rewrite (initial_singleton x Hx).
    + cbn [fmap list_fmap decode lookupCode].
      rewrite (initialMirror_singleton x Hx).
      reflexivity.
  - inversion Hcs as [|? ? Hy Hcs']; subst.
    cbn [fmap list_fmap foldl].
    rewrite compress_step_emit; cbn [dictionary dictSize result currentPhrase app].
    2:{ destruct (initialDictionary !! [x; y]) eqn:E; trivial.
        apply initialDictionary_lookup in E as [E _]. discriminate. }
    rewrite (initial_singleton x Hx). change (256 + 1) with 257.
    pose proof (synced_first x y Hx Hy) as S0.
    destruct (scan_synced cs _ _ _ Hcs' S0) as (ks & ds' & Hf & Hd & Ho).
    cbn [result output currentPhrase] in Hf, Ho.
    exists x, ks. split.
    + exact Hf.
    + cbn [fmap list_fmap decode lookupCode].
      rewrite (initialMirror_singleton x Hx).
      change (list_fmap N number NatNum ks) with (NatNum <$> ks).
      rewrite Hd. cbn [bind]. now rewrite Ho.
Qed.

(** The textual form: [join] then [split]. *)
Lemma split_no_sep sep (x : jsstring) :
  Forall (fun c => c <> sep) x -> split sep x = [x].
Proof.
  induction 1 as [|c x Hc Hx IH]; trivial.
  simpl. destruct (N.eqb_spec c sep); [contradiction|]. now rewrite IH.
Qed.

Lemma split_app sep (x r : jsstring) :
  Forall (fun c => c <> sep) x -> split sep (x ++ sep :: r) = x :: split sep r.
Proof.
  induction 1 as [|c x Hc Hx IH]; simpl.
  - now rewrite N.eqb_refl.
  - destruct (N.eqb_spec c sep); [contradiction|]. now rewrite IH.
Qed.

Lemma split_join sep (l : list jsstring) :
  l <> [] -> Forall (Forall (fun c => c <> sep)) l ->
  split sep (join [sep] l) = l.
Proof.
  intros Hne Hl. induction Hl as [|x l Hx Hl IH]; [congruence|].
  destruct l as [|y l].
  - simpl. now apply split_no_sep.
  - change (join [sep] (x :: y :: l)) with (x ++ sep :: join [sep] (y :: l)).
    rewrite split_app by assumption. rewrite IH; congruence.
Qed.

Lemma toString_no_comma n : Forall (fun c => c <> 44) (toString n).
Proof.
  eapply List.Forall_impl; [|apply toString_isDigit].
  intros c Hc%isDigit_range. lia.
Qed.

Lemma join_not_empty sep x l : x <> [] -> isEmpty (join sep (x :: l)) = false.
Proof. destruct x; [congruence|]. destruct l; reflexivity. Qed.

Lemma parse_rendered `{NumberBuiltin} (ks : list N) :
  Number_reads_decimal -> ks <> [] ->
  Number <$> split 44 (join (str ",") (renderCode <$> (Some <$> ks)))
  = NatNum <$> ks.
Proof.
  intros HN Hne.
  rewrite <- list_fmap_compose.
  change (str ",") with [44].
  rewrite split_join.
  - rewrite <- list_fmap_compose. apply list_fmap_ext.
    intros i k _. apply HN.
  - destruct ks; [congruence | discriminate].
  - apply Forall_fmap, Forall_forall. intros k _. apply toString_no_comma.
Qed.

Lemma lzw_roundtrip_latin1 `{NumberBuiltin} text :
  Number_reads_decimal -> latin1 text ->
  decompress (compress text) = Ok text.
Proof.
  intros HN Ht. destruct text as [|x cs] eqn:E; [reflexivity|].
  rewrite <- E in *. assert (text <> []) as Hne by (subst; discriminate).
  destruct (codes_roundtrip text Ht Hne) as (k & ks & Hc & Hd).
  unfold compress, decompress.
  replace (isEmpty text) with false by (subst; reflexivity).
  rewrite Hc.
  replace (isEmpty _) with false.
  - rewrite parse_rendered by (trivial; discriminate). exact Hd.
  - symmetry. apply join_not_empty. apply toString_not_empty.
Qed.

(** *** The decoder, code by code *)

Lemma decode_decodeState codes :
  decode codes = bind (decodeState codes) (fun st => Ok (output st)).
Proof.
  destruct codes as [|c rest]; [reflexivity|]. simpl.
  now destruct (lookupCode initialMirror c).
Qed.

(** No phrase of the decoder is ever empty. *)
Definition phrases_nonempty (st : dstate) : Prop :=
  prevPhrase st <> [] /\ forall k s, mirror st !! k = Some s -> s <> [].

Lemma step_phrases_nonempty st code st' :
  phrases_nonempty st -> decompress_step st code = Ok st' ->
  phrases_nonempty st'.
Proof.
  intros [Hp Hm] Hstep. unfold decompress_step in Hstep.
  assert (forall entry, entry <> [] ->
            phrases_nonempty (advance st entry)) as Hadv.
  { intros entry He. split; [exact He|]. intros k s. simpl.
    destruct (decide (nextCode st = k)) as [->|Hne].
    - rewrite lookup_insert_eq. intros [= <-]. now destruct (prevPhrase st).
    - rewrite lookup_insert_ne by assumption. apply Hm. }
  destruct (lookupCode (mirror st) code) as [e|] eqn:El.
  - injection Hstep as <-. apply Hadv.
    destruct code; simpl in El; [eauto | discriminate].
  - destruct (number_eqb code (NatNum (nextCode st))); [|discriminate].
    injection Hstep as <-. apply Hadv. now destruct (prevPhrase st).
Qed.

Lemma forM_phrases_nonempty codes : forall st st',
  phrases_nonempty st -> forM decompress_step codes st = Ok st' ->
  phrases_nonempty st'.
Proof.
  induction codes as [|c codes IH]; intros st st' Hst Hrun; simpl in Hrun.
  - now injection Hrun as <-.
  - destruct (decompress_step st c) as [st1|] eqn:E; [|discriminate].
    eapply IH; [|exact Hrun]. eapply step_phrases_nonempty; eauto.
Qed.

Lemma decodeState_phrases_nonempty codes st :
  decodeState codes = Ok st -> phrases_nonempty st.
Proof.
  destruct codes as [|c rest]; [discriminate|]. simpl.
  destruct (lookupCode initialMirror c) as [p|] eqn:E; [|discriminate].
  apply forM_phrases_nonempty.
  destruct c as [k|]; [|discriminate]. simpl in E.
  split; simpl.
  - apply initialMirror_lookup in E as [-> _]. discriminate.
  - intros j s [-> _]%initialMirror_lookup. discriminate.
Qed.

Lemma decodeState_snoc first pre code st :
  decodeState (first :: pre) = Ok st ->
  decodeState (first :: pre ++ [code]) = decompress_step st code.
Proof.
  simpl. destruct (lookupCode initialMirror first); [|discriminate].
  intros E. rewrite forM_app, E. simpl. now destruct (decompress_step st code).
Qed.

Lemma decode_at first pre code post st :
  decodeState (first :: pre) = Ok st ->
  decode (first :: pre ++ code :: post)
  = bind (decompress_step st code)
         (fun st1 => bind (forM decompress_step post st1)
                          (fun st' => Ok (output st'))).
Proof.
  simpl. destruct (lookupCode initialMirror first); [|discriminate].
  intros E. rewrite forM_app, E. simpl. now destruct (decompress_step st code).
Qed.

End LZW_facts.

(** ** The min-heap keeps its items *)

Section MinHeap_facts.
Context {T : Type} (comparator : T -> T -> Z).
Import MinHeap.

Lemma insert_Permutation (l : list T) i x y :
  l !! i = Some y -> <[i := x]> l ≡ₚ x :: delete i l.
Proof.
  revert i. induction l as [|z l IH]; intros [|i] Hi; simplify_eq/=; auto.
  rewrite (IH i) by assumption. apply Permutation_swap.
Qed.

Lemma swap_Permutation (heap : list T) i j : swap heap i j ≡ₚ heap.
Proof.
  unfold swap.
  destruct (heap !! i) as [a|] eqn:Ha; [|reflexivity].
  destruct (heap !! j) as [b|] eqn:Hb; [|reflexivity].
  destruct (decide (i = j)) as [->|Hne].
  - assert (a = b) as -> by congruence.
    rewrite list_insert_insert_eq. now rewrite list_insert_id.
  - assert (<[i := b]> heap !! j = Some b) as Hj
      by now rewrite list_lookup_insert_ne.
    etransitivity; [apply (insert_Permutation _ j a b Hj)|].
    etransitivity; [|symmetry; apply (delete_Permutation heap i a Ha)].
    apply Permutation_skip.
    apply (Permutation_cons_inv (a := b)).
    etransitivity; [symmetry; apply (delete_Permutation _ j b Hj)|].
    now apply insert_Permutation with a.
Qed.

Lemma bubbleUp_from_Permutation heap index :
  bubbleUp_from comparator heap index ≡ₚ heap.
Proof.
  funelim (bubbleUp_from comparator heap index); try reflexivity.
  match goal with IH : _ ≡ₚ _ |- _ => rewrite IH end.
  apply swap_Permutation.
Qed.

Lemma bubbleDown_from_Permutation heap index :
  bubbleDown_from comparator heap index ≡ₚ heap.
Proof.
  funelim (bubbleDown_from comparator heap index); try reflexivity.
  match goal with IH : _ ≡ₚ _ |- _ => rewrite IH end.
  apply swap_Permutation.
Qed.

Lemma insert_heap_Permutation heap item :
  insert comparator heap item ≡ₚ item :: heap.
Proof.
  unfold insert, bubbleUp. rewrite bubbleUp_from_Permutation.
  symmetry. apply Permutation_cons_append.
Qed.

Lemma extractMin_Permutation heap :
  heap <> [] ->
  exists min rest,
    extractMin comparator heap = (Some min, rest) /\ heap ≡ₚ min :: rest.
Proof.
  intros Hne. destruct heap as [|a [|b tl]]; [congruence | eauto |].
  exists a. eexists. split; [reflexivity|].
  apply Permutation_skip. unfold bubbleDown.
  rewrite bubbleDown_from_Permutation.
  assert (b :: tl <> []) as Htl by discriminate.
  rewrite (app_removelast_last a Htl) at 1.
  change (removelast (a :: b :: tl)) with (a :: removelast (b :: tl)).
  cbn [base.insert list_insert]. symmetry. apply Permutation_cons_append.
Qed.

End MinHeap_facts.

(** ** Huffman coding *)

Module Huffman_facts.
Import Huffman.

(** The trees [buildHuffmanTree] makes: a leaf holds a character, an
    internal node two subtrees. *)
Inductive wf_tree : HuffmanNode -> Prop :=
| wf_leaf c f : wf_tree (Node (Some c) f None None)
| wf_internal f l r :
    wf_tree l -> wf_tree r -> wf_tree (Node None f (Some l) (Some r)).

(** [hasCode t p c]: the bits [p] lead from [t] to a leaf holding [c]. *)
Inductive hasCode : HuffmanNode -> jsstring -> jsstring -> Prop :=
| code_leaf c f : hasCode (Node (Some c) f None None) [] c
| code_left f l r p c :
    hasCode l p c -> hasCode (Node None f (Some l) (Some r)) (48 :: p) c
| code_right f l r p c :
    hasCode r p c -> hasCode (Node None f (Some l) (Some r)) (49 :: p) c.

Fixpoint leaves (t : HuffmanNode) : list jsstring :=
  match t with
  | Node (Some c) _ None None => [c]
  | Node _ _ l r =>
      match l with Some ln => leaves ln | None => [] end
      ++ match r with Some rn => leaves rn | None => [] end
  end.

Definition isBit (b : N) : Prop := b = 48 \/ b = 49.

Lemma hasCode_bits t p c : hasCode t p c -> Forall isBit p.
Proof. induction 1; constructor; unfold isBit; auto. Qed.

Lemma hasCode_leaf t p c :
  hasCode t p c -> isLeaf t = true -> p = [] /\ char t = Some c.
Proof. destruct 1; simpl; intros; try discriminate; auto. Qed.

Lemma hasCode_internal t p c : hasCode t p c -> isLeaf t = false -> p <> [].
Proof. destruct 1; simpl; intros; discriminate. Qed.

(** Reading the bits of a code moves from a node to the leaf and back
    to the root, with the character appended. *)
Lemma decode_path tree node p c :
  hasCode node p c -> isLeaf node = false ->
  forall bits result,
    decodeBits tree (((fun b => [b]) <$> p) ++ bits) result node
    = decodeBits tree bits (result ++ c) tree.
Proof.
  induction 1 as [c f | f l r p c Hl IH | f l r p c Hr IH];
    intros Hnode bits result; [discriminate | |].
  - cbn [fmap list_fmap app decodeBits].
    rewrite decide_True by reflexivity. cbn [left].
    destruct (isLeaf l) eqn:El.
    + destruct (hasCode_leaf _ _ _ Hl El) as [-> ->]. reflexivity.
    + now apply IH.
  - cbn [fmap list_fmap app decodeBits].
    rewrite decide_False by discriminate.
    rewrite decide_True by reflexivity. cbn [right].
    destruct (isLeaf r) eqn:Er.
    + destruct (hasCode_leaf _ _ _ Hr Er) as [-> ->]. reflexivity.
    + now apply IH.
Qed.

(** What [traverse] writes: every leaf character gets the bits of a
    path to it; other keys keep their entry. *)
Lemma traverse_spec t :
  wf_tree t ->
  forall code m k,
    (code <> [] \/ isLeaf t = false) ->
    (k ∈ leaves t ->
       exists p, hasCode t p k /\ traverse t code m !! k = Some (code ++ p))
    /\ (k ∉ leaves t -> traverse t code m !! k = m !! k).
Proof.
  induction 1 as [c f | f l r Hl IHl Hr IHr]; intros code m k Hcode.
  - assert (isEmpty code = false) as Hne.
    { destruct Hcode as [?|?]; [|discriminate].
      destruct code; [congruence | reflexivity]. }
    cbn [traverse leaves]. rewrite Hne. split.
    + intros ->%list_elem_of_singleton. exists []. split; [constructor|].
      rewrite lookup_insert_eq. now rewrite app_nil_r.
    + intros Hk. rewrite lookup_insert_ne; trivial.
      intros ->. apply Hk. constructor.
  - cbn [traverse leaves].
    assert (forall x, code ++ x :: [] <> []) as Hc by (intros x; destruct code; discriminate).
    destruct (IHl (code ++ str "0") m k (or_introl (Hc _))) as [Hl1 Hl2].
    destruct (IHr (code ++ str "1") (traverse l (code ++ str "0") m) k
                  (or_introl (Hc _))) as [Hr1 Hr2].
    split.
    + intros Hk. destruct (decide (k ∈ leaves r)) as [Hin|Hout].
      * destruct (Hr1 Hin) as (p & Hp & E). exists (49 :: p).
        split; [now constructor|]. rewrite E. now rewrite <- app_assoc.
      * rewrite (Hr2 Hout).
        apply elem_of_app in Hk as [Hk|Hk]; [|contradiction].
        destruct (Hl1 Hk) as (p & Hp & E). exists (48 :: p).
        split; [now constructor|]. rewrite E. now rewrite <- app_assoc.
    + intros Hk. rewrite elem_of_app in Hk.
      rewrite Hr2, Hl2; tauto.
Qed.

(** *** Malformed input to the decoder *)

Lemma decodeBits_walk tree bits node result :
  walk tree bits node result ->
  forall rest,
    decodeBits tree (bits ++ rest) [] tree = decodeBits tree rest result node.
Proof.
  induction 1 as [| bits node result bit next Hw IH Hd Hl
                  | bits node result bit next Hw IH Hd Hl]; intros rest.
  - reflexivity.
  - rewrite <- app_assoc, IH. cbn [app decodeBits].
    fold (descend node bit). now rewrite Hd, Hl.
  - rewrite <- app_assoc, IH. cbn [app decodeBits].
    fold (descend node bit). now rewrite Hd, Hl.
Qed.

Lemma decodeBits_fault tree bits node result bit rest :
  walk tree bits node result -> descend node bit = None ->
  decodeBits tree (bits ++ bit :: rest) [] tree = malformed.
Proof.
  intros Hw Hd. rewrite (decodeBits_walk _ _ _ _ Hw). cbn [decodeBits].
  fold (descend node bit). now rewrite Hd.
Qed.

(** *** The frequency map *)

Lemma mapSet_keys {V} (m : list (jsstring * V)) k v :
  (mapSet m k v).*1 = if decide (k ∈ m.*1) then m.*1 else m.*1 ++ [k].
Proof.
  induction m as [|[k' v'] m IH]; cbn [mapSet fmap list_fmap fst].
  - rewrite decide_False; [reflexivity | apply not_elem_of_nil].
  - destruct (decide (k' = k)) as [->|Hne]; cbn [fmap list_fmap fst].
    + rewrite decide_True; [reflexivity | constructor].
    + rewrite IH. destruct (decide (k ∈ m.*1)) as [Hin|Hout].
      * rewrite decide_True; [reflexivity | now constructor].
      * rewrite decide_False; [reflexivity|].
        intros [?|?]%elem_of_cons; congruence.
Qed.

Definition countChar (freqMap : list (jsstring * N)) (char : jsstring) :=
  mapSet freqMap char (default 0 (mapGet freqMap char) + 1).

Lemma countChar_keys m ch k : k ∈ (countChar m ch).*1 <-> k ∈ m.*1 \/ k = ch.
Proof.
  unfold countChar. rewrite mapSet_keys.
  destruct (decide (ch ∈ m.*1)).
  - split; [auto | intros [?| ->]; auto].
  - rewrite elem_of_app, list_elem_of_singleton. tauto.
Qed.

Lemma countChar_NoDup m ch : NoDup m.*1 -> NoDup (countChar m ch).*1.
Proof.
  intros Hm. unfold countChar. rewrite mapSet_keys.
  destruct (decide (ch ∈ m.*1)); trivial.
  apply list.NoDup_app. split; [assumption|]. split.
  - intros x Hx ->%list_elem_of_singleton. contradiction.
  - apply NoDup_singleton.
Qed.

Lemma foldl_countChar_keys cs : forall m k,
  k ∈ (foldl countChar m cs).*1 <-> k ∈ m.*1 \/ k ∈ cs.
Proof.
  induction cs as [|c cs IH]; intros m k; simpl.
  - rewrite elem_of_nil. tauto.
  - rewrite IH, countChar_keys, elem_of_cons. tauto.
Qed.

Lemma foldl_countChar_NoDup cs : forall m,
  NoDup m.*1 -> NoDup (foldl countChar m cs).*1.
Proof.
  induction cs as [|c cs IH]; intros m Hm; simpl; trivial.
  apply IH. now apply countChar_NoDup.
Qed.

Lemma buildFrequencyMap_keys text k :
  k ∈ (buildFrequencyMap text).*1 <-> k ∈ chars text.
Proof.
  unfold buildFrequencyMap.
  change (k ∈ (foldl countChar [] (chars text)).*1 <-> k ∈ chars text).
  rewrite foldl_countChar_keys. simpl. rewrite elem_of_nil. tauto.
Qed.

Lemma buildFrequencyMap_NoDup text : NoDup (buildFrequencyMap text).*1.
Proof.
  unfold buildFrequencyMap.
  change (NoDup (foldl countChar [] (chars text)).*1).
  apply foldl_countChar_NoDup. constructor.
Qed.

(** A text made of one character repeated has a one-entry map. *)
Lemma foldl_countChar_replicate ch n : forall v,
  foldl countChar [(ch, v)] (replicate n ch) = [(ch, v + N.of_nat n)].
Proof.
  induction n as [|n IH]; intros v; simpl.
  - now rewrite N.add_0_r.
  - unfold countChar at 2. simpl. rewrite !decide_True by reflexivity.
    simpl. rewrite IH. do 2 f_equal. lia.
Qed.

Lemma buildFrequencyMap_replicate text ch n :
  chars text = replicate (S n) ch ->
  buildFrequencyMap text = [(ch, N.of_nat (S n))].
Proof.
  intros E. unfold buildFrequencyMap.
  change (foldl countChar [] (chars text) = [(ch, N.of_nat (S n))]).
  rewrite E. simpl replicate. cbn [foldl].
  change (countChar [] ch) with [(ch, 1)].
  rewrite foldl_countChar_replicate. do 2 f_equal. lia.
Qed.

(** *** The tree built from the heap *)

Definition leafOf (entry : jsstring * N) : HuffmanNode :=
  Node (Some entry.1) entry.2 None None.

Definition insertLeaf (heap : list HuffmanNode) (entry : jsstring * N) :=
  let '(char, freq) := entry in
  MinHeap.insert byFreq heap (Node (Some char) freq None None).

Lemma foldl_insertLeaf freqMap : forall heap,
  foldl insertLeaf heap freqMap ≡ₚ (leafOf <$> freqMap) ++ heap.
Proof.
  induction freqMap as [|[c f] m IH]; intros heap; simpl; [reflexivity|].
  rewrite IH, insert_heap_Permutation.
  symmetry. apply Permutation_middle.
Qed.

(** [covers h k]: some tree of the heap has the leaf [k]. *)
Definition covers (heap : list HuffmanNode) (k : jsstring) : Prop :=
  exists t, t ∈ heap /\ k ∈ leaves t.

Lemma covers_Permutation h1 h2 k : h1 ≡ₚ h2 -> covers h1 k -> covers h2 k.
Proof. intros Hp (t & Ht & Hk). exists t. now rewrite <- Hp. Qed.

Lemma extract_two heap a h1 b h2 :
  (1 <? length heap)%nat = true ->
  MinHeap.extractMin byFreq heap = (Some a, h1) ->
  MinHeap.extractMin byFreq h1 = (Some b, h2) ->
  heap ≡ₚ a :: h1 /\ h1 ≡ₚ b :: h2.
Proof.
  intros Hsize E1 E2. apply Nat.ltb_lt in Hsize.
  assert (heap <> []) as Hne by (destruct heap; simpl in *; [lia | discriminate]).
  destruct (extractMin_Permutation byFreq heap Hne) as (m1 & r1 & X1 & P1).
  rewrite X1 in E1. injection E1 as <- <-.
  assert (r1 <> []) as Hne1.
  { apply Permutation_length in P1. destruct r1; simpl in *; [lia | discriminate]. }
  destruct (extractMin_Permutation byFreq r1 Hne1) as (m2 & r2 & X2 & P2).
  rewrite X2 in E2. injection E2 as <- <-. auto.
Qed.

Lemma mergeLoop_spec heap :
  Forall wf_tree heap -> heap <> [] ->
  exists t,
    mergeLoop heap = Ok [t] /\ wf_tree t
    /\ (forall k, covers heap k -> k ∈ leaves t).
Proof.
  funelim (mergeLoop heap); intros Hwf Hne; clear Heqcall;
    repeat match goal with
           | H : sigmaI _ _ _ = sigmaI _ _ _ |- _ => clear H
           end.
  - (* the loop ends *)
    match goal with E : (1 <? _)%nat = false |- _ => apply Nat.ltb_ge in E end.
    destruct minHeap as [|t [|u h]]; [congruence | | simpl in *; lia].
    exists t. split; [reflexivity|]. split; [now inversion Hwf|].
    intros k (u & ->%list_elem_of_singleton & Hk). exact Hk.
  - (* the first extraction cannot come back empty *)
    destruct (extractMin_Permutation byFreq minHeap Hne) as (m1 & r1 & X1 & P1).
    congruence.
  - (* two extractions and one insertion *)
    destruct (extract_two _ _ _ _ _ Hsize E1 E2) as [P1 P2].
    rewrite P1 in Hwf. apply list.Forall_cons in Hwf as [Hleft Hwf].
    rewrite P2 in Hwf. apply list.Forall_cons in Hwf as [Hright Hwf].
    match goal with
    | IH : Forall wf_tree (MinHeap.insert _ _ ?parentNode) -> _ |- _ =>
        destruct IH as (t & Ht & Hwt & Hcov);
        [ rewrite insert_heap_Permutation;
          constructor; [now constructor | assumption]
        | intros E; apply (f_equal length) in E;
          rewrite MinHeap.length_insert_heap in E; discriminate
        | ];
        exists t; split; [exact Ht|]; split; [exact Hwt|];
        intros k Hk; apply Hcov;
        apply (covers_Permutation _ _ _ P1) in Hk;
        destruct Hk as (u & Hu & Hk);
        apply (covers_Permutation (parentNode :: h2));
        [ symmetry; apply insert_heap_Permutation | ];
        apply elem_of_cons in Hu as [-> | Hu];
        [ exists parentNode; split; [constructor|];
          simpl; apply elem_of_app; now left | ];
        rewrite P2 in Hu; apply elem_of_cons in Hu as [-> | Hu];
        [ exists parentNode; split; [constructor|];
          simpl; apply elem_of_app; now right
        | exists u; split; [now constructor | assumption] ]
    end.
  - (* nor the second *)
    match goal with
    | E1 : MinHeap.extractMin _ minHeap = (Some ?a, ?h1),
      E2 : MinHeap.extractMin _ ?h1 = (None, _) |- _ =>
        destruct (extractMin_Permutation byFreq minHeap Hne) as (m1 & r1 & X1 & P1);
        rewrite X1 in E1; injection E1 as <- <-;
        assert (r1 <> []) as Hne1
          by (apply Nat.ltb_lt in Hsize; apply Permutation_length in P1;
              destruct r1; simpl in *; [lia | discriminate]);
        destruct (extractMin_Permutation byFreq r1 Hne1) as (m2 & r2 & X2 & P2);
        congruence
    end.
Qed.

Lemma buildHuffmanTree_spec freqMap :
  (2 <= length freqMap)%nat ->
  exists t,
    buildHuffmanTree freqMap = Ok (Some t) /\ wf_tree t
    /\ (forall k, k ∈ freqMap.*1 -> k ∈ leaves t).
Proof.
  intros Hlen. unfold buildHuffmanTree.
  change (foldl _ [] freqMap) with (foldl insertLeaf [] freqMap).
  pose proof (foldl_insertLeaf freqMap []) as P. rewrite app_nil_r in P.
  set (minHeap := foldl insertLeaf [] freqMap) in *.
  assert (length minHeap = length freqMap) as Hl
    by now rewrite P, length_fmap.
  destruct (mergeLoop_spec minHeap) as (t & Ht & Hwt & Hcov).
  - rewrite P. apply Forall_fmap, Forall_forall. intros [c f] _. constructor.
  - intros E. rewrite E in Hl. simpl in Hl. lia.
  - exists t. cbv zeta.
    destruct (Nat.eqb_spec (length minHeap) 1); [lia|].
    rewrite Ht. split; [reflexivity|]. split; [assumption|].
    intros k ([c f] & -> & Hin)%list_elem_of_fmap. apply Hcov.
    exists (leafOf (c, f)). split; [|simpl; constructor].
    rewrite P. apply list_elem_of_fmap. eauto.
Qed.

Lemma two_leaves_internal t k1 k2 :
  wf_tree t -> k1 ∈ leaves t -> k2 ∈ leaves t -> k1 <> k2 -> isLeaf t = false.
Proof.
  destruct 1; simpl; trivial.
  intros ->%list_elem_of_singleton ->%list_elem_of_singleton. congruence.
Qed.

(** *** Encoding then decoding *)

Lemma foldl_append {A} (f : A -> jsstring) l : forall acc,
  foldl (fun acc x => acc ++ f x) acc l = acc ++ concat (f <$> l).
Proof.
  induction l as [|x l IH]; intros acc; simpl.
  - now rewrite app_nil_r.
  - now rewrite IH, <- app_assoc.
Qed.

Definition codeIn (encodingMap : gmap jsstring jsstring) (ch : jsstring) : jsstring :=
  default (str "undefined") (encodingMap !! ch).

Lemma encode_concat m text : encode m text = concat (codeIn m <$> chars text).
Proof. unfold encode. now rewrite (foldl_append (codeIn m)). Qed.

Lemma decode_codes tree m cs :
  isLeaf tree = false ->
  (forall ch, ch ∈ cs -> exists p, hasCode tree p ch /\ m !! ch = Some p) ->
  forall result,
    decodeBits tree ((fun b => [b]) <$> concat (codeIn m <$> cs)) result tree
    = result ++ concat cs.
Proof.
  intros Hroot. induction cs as [|ch cs IH]; intros Hcs result; simpl.
  - now rewrite app_nil_r.
  - destruct (Hcs ch) as (p & Hp & Hm); [constructor|].
    unfold codeIn at 1. rewrite Hm. cbn [default from_option].
    rewrite fmap_app, (decode_path tree tree p ch Hp Hroot).
    rewrite IH, <- app_assoc; trivial.
    intros c Hc. apply Hcs. now constructor.
Qed.

Lemma codes_are_bits tree m cs :
  (forall ch, ch ∈ cs -> exists p, hasCode tree p ch /\ m !! ch = Some p) ->
  Forall isBit (concat (codeIn m <$> cs)).
Proof.
  induction cs as [|ch cs IH]; intros Hcs; simpl; [constructor|].
  apply Forall_app. split.
  - destruct (Hcs ch) as (p & Hp & Hm); [constructor|].
    unfold codeIn. rewrite Hm. simpl. eapply hasCode_bits; eauto.
  - apply IH. intros c Hc. apply Hcs. now constructor.
Qed.

Lemma bits_chars s : Forall isBit s -> chars s = (fun b => [b]) <$> s.
Proof.
  intros Hs. apply chars_units. eapply List.Forall_impl; [|exact Hs].
  intros b [-> | ->]; reflexivity.
Qed.

Lemma decompressTree_internal compressed tree :
  isLeaf tree = false ->
  decompressTree compressed tree = decodeBits tree (chars compressed) [] tree.
Proof. destruct tree as [[c|] f [l|] [r|]]; simpl; congruence. Qed.

Lemma decompress_stringify `{JSON} compressed tree :
  JSON_faithful -> compressed <> [] ->
  decompress compressed (JSON_stringify tree)
  = Ok (decompressTree compressed tree).
Proof.
  intros HJ Hc. destruct (HJ tree) as [Hparse Hne]. unfold decompress.
  assert (isEmpty compressed = false) as ->
    by (destruct compressed; [congruence | reflexivity]).
  assert (isEmpty (JSON_stringify tree) = false) as ->
    by (destruct (JSON_stringify tree); [congruence | reflexivity]).
  cbn [orb]. now rewrite Hparse.
Qed.

Lemma chars_not_empty s : s <> [] -> chars s <> [].
Proof. destruct s as [|c [|d r]]; simpl; try congruence. now destruct (_ && _). Qed.

(** Two or more distinct characters: the general path. *)
Lemma roundtrip_general `{JSON} text :
  JSON_faithful ->
  (2 <= length (buildFrequencyMap text))%nat ->
  exists r,
    compress text = Ok r /\ decompress (compressed r) (tree r) = Ok text.
Proof.
  intros HJ Hlen.
  assert (text <> []) as Hne by (intros ->; simpl in Hlen; lia).
  destruct (buildHuffmanTree_spec _ Hlen) as (t & Ht & Hwt & Hcov).
  assert (isLeaf t = false) as Hroot.
  { pose proof (buildFrequencyMap_NoDup text) as Hnd.
    destruct (buildFrequencyMap text) as [|[k1 v1] [|[k2 v2] m]];
      try (simpl in Hlen; lia).
    apply (two_leaves_internal t k1 k2 Hwt).
    - apply Hcov. simpl. constructor.
    - apply Hcov. simpl. constructor. constructor.
    - simpl in Hnd. inversion Hnd as [|? ? Hk1 _]. subst.
      intros ->. apply Hk1. constructor. }
  assert (forall ch, ch ∈ chars text ->
            exists p, hasCode t p ch /\ buildEncodingMap (Some t) !! ch = Some p)
    as Hcodes.
  { intros ch Hch. apply buildFrequencyMap_keys, Hcov in Hch.
    destruct (traverse_spec t Hwt [] ∅ ch (or_intror Hroot)) as [Hin _].
    destruct (Hin Hch) as (p & Hp & E). exists p. split; [assumption|].
    exact E. }
  exists (CompressionResult (encode (buildEncodingMap (Some t)) text)
                            (JSON_stringify t) None).
  split.
  - unfold compress. destruct text as [|c0 text']; [congruence|].
    cbn [isEmpty]. cbv zeta. rewrite Ht. cbn [bind].
    destruct (buildFrequencyMap (c0 :: text')) as [|e1 [|e2 m]];
      simpl in Hlen; try lia; destruct e1; reflexivity.
  - cbn [compressed tree]. rewrite decompress_stringify; trivial.
    + f_equal. rewrite decompressTree_internal by assumption.
      rewrite encode_concat.
      rewrite bits_chars by (eapply codes_are_bits; eauto).
      rewrite (decode_codes t _ (chars text) Hroot Hcodes).
      apply concat_chars.
    + rewrite encode_concat.
      pose proof (chars_not_empty text Hne) as Hcs.
      destruct (chars text) as [|ch cs]; [congruence|].
      destruct (Hcodes ch) as (p & Hp & E); [constructor|].
      cbn [fmap list_fmap concat]. unfold codeIn at 1. rewrite E.
      cbn [default from_option].
      pose proof (hasCode_internal _ _ _ Hp Hroot).
      destruct p; [congruence | discriminate].
Qed.

(** *** One distinct character *)

Lemma length_repeat_unit c n : length (repeat_str [c] n) = n.
Proof. rewrite repeat_str_unit. apply length_replicate. Qed.

Lemma chars_nil_inv s : chars s = [] -> s = [].
Proof.
  intros E. destruct s as [|c r]; trivial.
  exfalso. revert E. apply chars_not_empty. discriminate.
Qed.

Lemma compress_single `{JSON} text ch n :
  chars text = replicate (S n) ch ->
  compress text
  = Ok (CompressionResult (repeat_str (str "0") (length text))
          (JSON_stringify (Node (Some ch) (N.of_nat (S n)) None None))
          (Some ch)).
Proof.
  intros E. unfold compress.
  assert (isEmpty text = false) as ->.
  { destruct text; [discriminate | reflexivity]. }
  rewrite (buildFrequencyMap_replicate text ch n E).
  cbn [mapGet]. rewrite decide_True by reflexivity. reflexivity.
Qed.

Lemma decompress_leaf `{JSON} compressed treeStr ch f :
  treeStr <> [] ->
  JSON_parse treeStr = Ok (Node (Some ch) f None None) ->
  decompress compressed treeStr = Ok (repeat_str ch (length compressed)).
Proof.
  intros Hne Hparse. unfold decompress.
  destruct compressed as [|b bs]; [reflexivity|].
  destruct treeStr; [congruence|]. cbn [isEmpty orb]. now rewrite Hparse.
Qed.

Lemma roundtrip_single `{JSON} text c n :
  JSON_faithful ->
  chars text = replicate (S n) [c] ->
  exists r,
    compress text = Ok r /\ decompress (compressed r) (tree r) = Ok text.
Proof.
  intros HJ E. eexists. split; [apply (compress_single text [c] n E)|].
  cbn [compressed tree]. destruct (HJ (Node (Some [c]) (N.of_nat (S n)) None None))
    as [Hparse Hne].
  rewrite (decompress_leaf _ _ [c] (N.of_nat (S n))) by assumption.
  f_equal. change (str "0") with [48]. rewrite length_repeat_unit.
  rewrite <- (concat_chars text) at 2. rewrite <- (concat_chars text) at 1.
  rewrite E. change (concat (replicate (S n) [c])) with (repeat_str [c] (S n)).
  now rewrite length_repeat_unit.
Qed.

Lemma chars_lengths s :
  Forall (fun ch => length ch = 1%nat \/ length ch = 2%nat) (chars s).
Proof.
  induction s as [s IH] using (well_founded_induction
    (well_founded_ltof _ (@length N))).
  destruct s as [|c [|d r]]; [constructor | repeat constructor |].
  change (chars (c :: d :: r)) with
    (if isHighSurrogate c && isLowSurrogate d
     then [c; d] :: chars r else [c] :: chars (d :: r)).
  destruct (isHighSurrogate c && isLowSurrogate d); constructor; auto;
    apply IH; unfold ltof; simpl; lia.
Qed.

Lemma all_equal_replicate {A} (x : A) l :
  (forall y, y ∈ l -> y = x) -> l = replicate (length l) x.
Proof.
  induction l as [|y l IH]; intros Hl; simpl; trivial.
  rewrite <- IH by (intros; apply Hl; now constructor).
  f_equal. apply Hl. constructor.
Qed.

Lemma roundtrip `{JSON} text :
  JSON_faithful -> oneRepeatedPair text = false ->
  exists r,
    compress text = Ok r /\ decompress (compressed r) (tree r) = Ok text.
Proof.
  intros HJ Hpair.
  destruct (decide (2 <= length (buildFrequencyMap text))%nat) as [Hlen|Hlen];
    [now apply roundtrip_general|].
  destruct (decide (text = [])) as [->|Hne]; [eexists; split; reflexivity|].
  pose proof (buildFrequencyMap_keys text) as Hkeys.
  pose proof (chars_not_empty text Hne) as Hcs.
  destruct (buildFrequencyMap text) as [|[ch v] [|e m]];
    [ | | simpl in Hlen; lia].
  - destruct (chars text) as [|x cs]; [congruence|].
    exfalso. apply (not_elem_of_nil x). apply Hkeys. constructor.
  - assert (forall y, y ∈ chars text -> y = ch) as Hall.
    { intros y Hy%Hkeys. simpl in Hy. now apply list_elem_of_singleton in Hy. }
    pose proof (all_equal_replicate ch _ Hall) as Hrep.
    pose proof (chars_lengths text) as Hlens.
    unfold oneRepeatedPair in Hpair.
    destruct (chars text) as [|x cs] eqn:Ecs; [congruence|].
    assert (x = ch) as -> by (apply Hall; constructor).
    assert (forallb (fun y => bool_decide (y = ch)) cs = true) as Hfb.
    { apply forallb_forall. intros y Hy. apply bool_decide_eq_true, Hall.
      apply list_elem_of_In in Hy. now constructor. }
    rewrite Hfb, andb_true_r in Hpair. apply Nat.eqb_neq in Hpair.
    inversion Hlens as [|? ? [H1|H2] _]; subst; [|congruence].
    destruct ch as [|c [|? ?]]; try discriminate.
    apply (roundtrip_single text c (length cs) HJ).
    rewrite Ecs. exact Hrep.
Qed.

End Huffman_facts.

(** ** The reference built-ins satisfy what the development assumes *)

Module Reference_facts.
Import Huffman Reference.

Lemma forallb_isDigit_toString n : forallb isDigit (toString n) = true.
Proof.
  apply forallb_forall. intros c Hc.
  pose proof (toString_isDigit n) as Hd. rewrite List.Forall_forall in Hd. auto.
Qed.

Lemma decimalNumber_reads_decimal :
  @Number_reads_decimal decimalNumber.
Proof.
  intros n. unfold Number, decimalNumber.
  rewrite forallb_isDigit_toString. unfold toString.
  now rewrite uint_of_digits_of_uint, DecimalN.Unsigned.of_to.
Qed.

Lemma stripPrefix_app p s : stripPrefix p (p ++ s) = Some s.
Proof.
  induction p as [|a p IH]; simpl; [now destruct s|].
  now rewrite N.eqb_refl.
Qed.

Lemma unhex_hexDigit d : d < 16 -> unhex (hexDigit d) = Some d.
Proof.
  intros Hd.
  assert (d = 0 \/ d = 1 \/ d = 2 \/ d = 3 \/ d = 4 \/ d = 5 \/ d = 6 \/ d = 7
          \/ d = 8 \/ d = 9 \/ d = 10 \/ d = 11 \/ d = 12 \/ d = 13 \/ d = 14
          \/ d = 15) as Hcases by lia.
  repeat destruct Hcases as [-> | Hcases]; try subst d; reflexivity.
Qed.

Lemma needsEscape_bound c : needsEscape c = true -> c < 65536.
Proof.
  unfold needsEscape.
  intros [H%N.ltb_lt | [_ H%N.leb_le]%andb_true_iff]%orb_true_iff; lia.
Qed.

Lemma hex4_value c :
  c < 65536 ->
  ((c / 4096 mod 16 * 16 + c / 256 mod 16) * 16 + c / 16 mod 16) * 16 + c mod 16 = c.
Proof.
  intros Hc.
  pose proof (N.div_mod c 16) as H0.
  pose proof (N.div_mod (c / 16) 16) as H1.
  pose proof (N.div_mod (c / 256) 16) as H2.
  rewrite N.Div0.div_div in H1, H2.
  change (16 * 16) with 256 in H1. change (256 * 16) with 4096 in H2.
  assert (c / 4096 < 16) as H3 by (apply N.Div0.div_lt_upper_bound; lia).
  rewrite (N.mod_small (c / 4096) 16 H3). lia.
Qed.

Lemma unquote_escape s rest :
  unquote (concat (escapeUnit <$> s) ++ 34 :: rest) = Some (s, rest).
Proof.
  induction s as [|c s IH]; [reflexivity|].
  cbn [fmap list_fmap concat]. rewrite <- app_assoc. unfold escapeUnit at 1.
  destruct (N.eqb_spec c 34) as [->|H34].
  { cbn [app unquote N.eqb Pos.eqb orb]. now rewrite IH. }
  destruct (N.eqb_spec c 92) as [->|H92].
  { cbn [app unquote N.eqb Pos.eqb orb]. now rewrite IH. }
  destruct (needsEscape c) eqn:Hesc.
  - pose proof (needsEscape_bound c Hesc) as Hc.
    cbn [app unquote N.eqb Pos.eqb].
    rewrite !unhex_hexDigit by (apply N.mod_lt; lia).
    now rewrite IH, hex4_value.
  - cbn [app unquote].
    destruct (N.eqb_spec c 34); [contradiction|].
    destruct (N.eqb_spec c 92); [contradiction|].
    unfold needsEscape in Hesc. apply orb_false_iff in Hesc as [-> _].
    now rewrite IH.
Qed.

Lemma spanDigits_app ds rest :
  Forall (fun c => isDigit c = true) ds ->
  match rest with [] => True | c :: _ => isDigit c = false end ->
  spanDigits (ds ++ rest) = (ds, rest).
Proof.
  intros Hds Hrest. induction Hds as [|d ds Hd _ IH]; cbn [app spanDigits].
  - destruct rest as [|c r]; [reflexivity|]. cbn [spanDigits]. now rewrite Hrest.
  - now rewrite Hd, IH.
Qed.

Lemma charField_quote c Y :
  charField (concat (escapeUnit <$> c) ++ 34 :: str "," ++ Y) = Some (c, Y).
Proof.
  unfold charField. rewrite unquote_escape. cbn [mbind option_bind].
  now rewrite stripPrefix_app.
Qed.

Lemma freqField_toString f Y :
  match Y with [] => True | c :: _ => isDigit c = false end ->
  freqField (key "freq" ++ toString f ++ Y) = Some (f, Y).
Proof.
  intros HY. unfold freqField. rewrite stripPrefix_app. cbn [mbind option_bind].
  rewrite spanDigits_app by (trivial; apply toString_isDigit).
  pose proof (toString_not_empty f) as Hne.
  destruct (toString f) eqn:E; [congruence|]. cbn [isEmpty].
  rewrite <- E. unfold toString.
  now rewrite uint_of_digits_of_uint, DecimalN.Unsigned.of_to.
Qed.

Lemma optional_present {A} pre (p : jsstring -> option (A * jsstring)) X x Y :
  p X = Some (x, Y) -> optional pre p (pre ++ X) = Some (Some x, Y).
Proof.
  intros Hp. unfold optional. rewrite stripPrefix_app, Hp. reflexivity.
Qed.

(** The text that follows the [freq] field. *)
Definition children (l r : option HuffmanNode) (rest : jsstring) : jsstring :=
  match l with Some t => str "," ++ key "left" ++ stringify t | None => [] end
  ++ match r with Some t => str "," ++ key "right" ++ stringify t | None => [] end
  ++ str "}" ++ rest.

Lemma stringify_unfold c f l r rest :
  stringify (Node c f l r) ++ rest
  = str "{"
    ++ match c with Some c => key "char" ++ quote c ++ str "," | None => [] end
    ++ key "freq" ++ toString f ++ children l r rest.
Proof.
  unfold children. cbn [stringify]. now rewrite <- !app_assoc.
Qed.

Lemma children_head l r rest :
  match children l r rest with [] => True | c :: _ => isDigit c = false end.
Proof. destruct l, r; reflexivity. Qed.

Lemma length_child_l c f t r :
  (length (stringify t) < length (stringify (Node c f (Some t) r)))%nat.
Proof. cbn [stringify]. rewrite !length_app. simpl. lia. Qed.

Lemma length_child_r c f l t :
  (length (stringify t) < length (stringify (Node c f l (Some t))))%nat.
Proof. cbn [stringify]. rewrite !length_app. simpl. lia. Qed.

Lemma char_layout c Y :
  (key "char" ++ quote c ++ str ",") ++ Y
  = (key "char" ++ [34]) ++ (concat (escapeUnit <$> c) ++ 34 :: str "," ++ Y).
Proof.
  unfold quote. rewrite <- !app_assoc. cbn [app].
  now rewrite <- !app_assoc.
Qed.

Lemma parseNode_stringify fuel : forall node rest,
  (length (stringify node) < fuel)%nat ->
  parseNode fuel (stringify node ++ rest) = Some (node, rest).
Proof.
  induction fuel as [|fuel IH]; intros [c f l r] rest Hlen; [lia|].
  rewrite stringify_unfold. cbn [parseNode].
  rewrite stripPrefix_app. cbn [mbind option_bind].
  (* the [char] field *)
  assert (optional (key "char" ++ [34]) charField
            (match c with
             | Some c => key "char" ++ quote c ++ str ","
             | None => []
             end ++ key "freq" ++ toString f ++ children l r rest)
          = Some (c, key "freq" ++ toString f ++ children l r rest)) as ->.
  { destruct c as [c|]; [|reflexivity].
    rewrite char_layout. apply optional_present, charField_quote. }
  cbn [mbind option_bind].
  rewrite freqField_toString by apply children_head.
  cbn [mbind option_bind]. unfold children.
  (* the [left] field *)
  assert (optional (str "," ++ key "left") (parseNode fuel)
            (match l with
             | Some t => str "," ++ key "left" ++ stringify t
             | None => []
             end
             ++ match r with
                | Some t => str "," ++ key "right" ++ stringify t
                | None => []
                end ++ str "}" ++ rest)
          = Some (l, match r with
                     | Some t => str "," ++ key "right" ++ stringify t
                     | None => []
                     end ++ str "}" ++ rest)) as ->.
  { destruct l as [t|]; [|destruct r; reflexivity].
    rewrite <- !app_assoc, (app_assoc (str ",")).
    apply optional_present, IH.
    pose proof (length_child_l c f t r). lia. }
  cbn [mbind option_bind].
  (* the [right] field *)
  assert (optional (str "," ++ key "right") (parseNode fuel)
            (match r with
             | Some t => str "," ++ key "right" ++ stringify t
             | None => []
             end ++ str "}" ++ rest)
          = Some (r, str "}" ++ rest)) as ->.
  { destruct r as [t|]; [|reflexivity].
    rewrite <- !app_assoc, (app_assoc (str ",")).
    apply optional_present, IH.
    pose proof (length_child_r c f l t). lia. }
  cbn [mbind option_bind].
  now rewrite stripPrefix_app.
Qed.

Lemma nodeJSON_faithful : @JSON_faithful nodeJSON.
Proof.
  intros node. split; [|destruct node; discriminate].
  unfold JSON_parse, JSON_stringify, nodeJSON, parse.
  rewrite <- (app_nil_r (stringify node)) at 2.
  rewrite parseNode_stringify by lia. reflexivity.
Qed.

End Reference_facts.

(** * The stated properties *)

Import RLE_facts LZW_facts Huffman_facts Reference_facts.

(** ** Round trips *)

(** C1, as stated, fails: RLE does not give back a text that holds a
    digit. The text ["1"] compresses to ["1"], which the decoder rejects as
    a count with no character. *)
Lemma roundtrip_fails_on_digit_text :
  RLE.decompress (RLE.compress (str "1")) <> Ok (str "1").
Proof. discriminate. Qed.

(** The other two codecs lose a text as well: LZW one with a code unit
    above 255, Huffman one that is a single surrogate pair, which comes
    back doubled. *)
Example lzw_roundtrip_fails_above_255 :
  LZW.decompress (H := Reference.decimalNumber) (LZW.compress [8364])
  <> Ok [8364].
Proof. vm_compute. discriminate. Qed.

Example huffman_roundtrip_fails_on_one_pair :
  exists r,
    Huffman.compress (H := Reference.nodeJSON) [0xD83D; 0xDE00] = Ok r
    /\ Huffman.decompress (H := Reference.nodeJSON)
         (Huffman.compressed r) (Huffman.tree r)
       = Ok [0xD83D; 0xDE00; 0xD83D; 0xDE00].
Proof. eexists. split; vm_compute; reflexivity. Qed.

(** C1, amended. Decompressing what [compress] returned gives the text
    back: for RLE when the text holds no ASCII digit; for LZW when every
    code unit of the text is at most 255; for Huffman, with the returned
    tree passed on unchanged, unless the text is one surrogate pair
    repeated. The empty text and texts of one distinct character are
    included. *)
Theorem roundtrip_of_the_three_codecs
    `{NumberBuiltin} `{Huffman.JSON} (text : jsstring) :
  Number_reads_decimal -> JSON_faithful ->
  (digitFree text -> RLE.decompress (RLE.compress text) = Ok text)
  /\ (latin1 text -> LZW.decompress (LZW.compress text) = Ok text)
  /\ (oneRepeatedPair text = false ->
      exists r,
        Huffman.compress text = Ok r
        /\ Huffman.decompress (Huffman.compressed r) (Huffman.tree r) = Ok text).
Proof.
  intros HN HJ. split; [|split].
  - apply roundtrip_digitFree.
  - now apply lzw_roundtrip_latin1.
  - now apply Huffman_facts.roundtrip.
Qed.

Lemma roundtrip_of_the_three_codecs_witness :
  let text := str "AAABBC" in
  RLE.decompress (RLE.compress text) = Ok text
  /\ LZW.decompress (H := Reference.decimalNumber) (LZW.compress text) = Ok text
  /\ exists r,
       Huffman.compress (H := Reference.nodeJSON) text = Ok r
       /\ Huffman.decompress (H := Reference.nodeJSON)
            (Huffman.compressed r) (Huffman.tree r) = Ok text.
Proof.
  intros text.
  destruct (roundtrip_of_the_three_codecs
              (H := Reference.decimalNumber) (H0 := Reference.nodeJSON) text
              decimalNumber_reads_decimal nodeJSON_faithful)
    as (Hrle & Hlzw & Hhuf).
  split; [|split].
  - apply Hrle. repeat constructor.
  - apply Hlzw. repeat constructor.
  - apply Hhuf. reflexivity.
Defined.

(** C10. RLE gives back every text that holds no ASCII digit. *)
Theorem rle_roundtrip_without_digits (text : jsstring) :
  Forall (fun c => isDigit c = false) text ->
  RLE.decompress (RLE.compress text) = Ok text.
Proof. apply roundtrip_digitFree. Qed.

Lemma rle_roundtrip_without_digits_witness :
  Forall (fun c => isDigit c = false) (str "AAABBC")
  /\ RLE.decompress (RLE.compress (str "AAABBC")) = Ok (str "AAABBC").
Proof.
  split; [repeat constructor|].
  apply (rle_roundtrip_without_digits (str "AAABBC")). repeat constructor.
Defined.

(** ** Empty input *)

(** C9. Each codec maps the empty string to the empty string, in both
    directions and without an error; Huffman also returns an empty tree. *)
Theorem empty_string_both_ways `{NumberBuiltin} `{Huffman.JSON} :
  RLE.compress [] = [] /\ RLE.decompress [] = Ok []
  /\ LZW.compress [] = [] /\ LZW.decompress [] = Ok []
  /\ Huffman.compress [] = Ok (Huffman.CompressionResult [] [] None)
  /\ (forall treeStr, Huffman.decompress [] treeStr = Ok []).
Proof. repeat split. Qed.

(** ** Malformed RLE input *)

(** C5. A compressed string that ends in a digit makes RLE [decompress]
    throw; in particular ["3A2"] throws and does not return ["AAA"]. *)
Theorem rle_trailing_count_throws :
  (forall s d, isDigit d = true ->
     exists e, RLE.decompress (s ++ [d]) = Throw e)
  /\ RLE.decompress (str "3A2") = Throw EndsWithNumber
  /\ RLE.decompress (str "3A2") <> Ok (str "AAA").
Proof.
  split; [|split; [reflexivity | discriminate]].
  intros s d Hd. exists EndsWithNumber. now apply trailing_digit_throws.
Qed.

Lemma rle_trailing_count_throws_witness :
  isDigit 50 = true /\ exists e, RLE.decompress (str "3A" ++ [50]) = Throw e.
Proof.
  split; [reflexivity|].
  apply (proj1 rle_trailing_count_throws (str "3A") 50). reflexivity.
Defined.

(** ** LZW *)

(** C2. The lookup can fail. On the one-character text U+20AC the first
    phrase looked up is the empty string, which has no code: the array of
    codes starts with [undefined], the compressed text is [",256"], and
    it decompresses to three NUL characters. *)
Theorem lzw_lookup_fails_outside_seed :
  LZW.codesOf [8364] = [None; Some 256]
  /\ LZW.compress [8364] = str ",256"
  /\ LZW.decompress (H := Reference.decimalNumber) (LZW.compress [8364])
     = Ok [0; 0; 0].
Proof. repeat split; vm_compute; reflexivity. Qed.

(** C6. [decompress] at a code after the first, in the state [st] it has
    reached on the codes before it: a code of the dictionary stands for
    its phrase and decoding goes on; the next free code stands for the
    previous phrase followed by its own first character, is no error,
    and decoding goes on; any other code makes [decompress] throw. *)
Theorem lzw_decode_code_cases `{NumberBuiltin}
    (compressed : jsstring) (first : number) (pre : list number)
    (code : number) (post : list number) (st : LZW.dstate) :
  compressed <> [] ->
  Number <$> split 44 compressed = first :: pre ++ code :: post ->
  decodeState (first :: pre) = Ok st ->
  (forall phrase,
     LZW.lookupCode (LZW.mirror st) code = Some phrase ->
     decodeState (first :: pre ++ [code]) = Ok (advance st phrase)
     /\ LZW.decompress compressed
        = bind (forM LZW.decompress_step post (advance st phrase))
               (fun st' => Ok (LZW.output st')))
  /\ (LZW.lookupCode (LZW.mirror st) code = None ->
      code = NatNum (LZW.nextCode st) ->
      exists c w,
        LZW.prevPhrase st = c :: w
        /\ decodeState (first :: pre ++ [code])
           = Ok (advance st (LZW.prevPhrase st ++ [c]))
        /\ LZW.decompress compressed
           = bind (forM LZW.decompress_step post
                        (advance st (LZW.prevPhrase st ++ [c])))
                  (fun st' => Ok (LZW.output st')))
  /\ (LZW.lookupCode (LZW.mirror st) code = None ->
      code <> NatNum (LZW.nextCode st) ->
      LZW.decompress compressed = Throw CodeOutOfBounds).
Proof.
  intros Hne Hcodes Hst.
  assert (LZW.decompress compressed
          = bind (LZW.decompress_step st code)
                 (fun st1 => bind (forM LZW.decompress_step post st1)
                                  (fun st' => Ok (LZW.output st')))) as Hrun.
  { unfold LZW.decompress.
    assert (isEmpty compressed = false) as ->
      by (destruct compressed; [congruence | reflexivity]).
    rewrite Hcodes. exact (decode_at _ _ _ _ _ Hst). }
  split; [|split].
  - intros phrase Hl.
    assert (LZW.decompress_step st code = Ok (advance st phrase)) as E
      by (unfold LZW.decompress_step; now rewrite Hl).
    split; [now rewrite (decodeState_snoc _ _ _ _ Hst) | now rewrite Hrun, E].
  - intros Hl ->.
    destruct (decodeState_phrases_nonempty _ _ Hst) as [Hp _].
    destruct (LZW.prevPhrase st) as [|c w] eqn:E; [congruence|].
    exists c, w. split; [reflexivity|].
    assert (LZW.decompress_step st (NatNum (LZW.nextCode st))
            = Ok (advance st ((c :: w) ++ [c]))) as E'.
    { unfold LZW.decompress_step, advance. rewrite Hl. cbn [number_eqb].
      rewrite N.eqb_refl. cbn [bind]. rewrite !E. reflexivity. }
    split; [now rewrite (decodeState_snoc _ _ _ _ Hst) | now rewrite Hrun, E'].
  - intros Hl Hcode. rewrite Hrun.
    unfold LZW.decompress_step. rewrite Hl.
    destruct code as [k|]; simpl; [|reflexivity].
    destruct (N.eqb_spec k (LZW.nextCode st)); [congruence | reflexivity].
Qed.

Lemma lzw_decode_code_cases_witness :
  let st := LZW.DState LZW.initialMirror 256 [65] [65] in
  decodeState [NatNum 65] = Ok st
  /\ exists c w,
       LZW.prevPhrase st = c :: w
       /\ decodeState ([NatNum 65] ++ [NatNum 256])
          = Ok (advance st (LZW.prevPhrase st ++ [c]))
       /\ LZW.decompress (H := Reference.decimalNumber) (str "65,256")
          = bind (forM LZW.decompress_step []
                       (advance st (LZW.prevPhrase st ++ [c])))
                 (fun st' => Ok (LZW.output st')).
Proof.
  intros st.
  assert (decodeState [NatNum 65] = Ok st) as E by (vm_compute; reflexivity).
  split; [exact E|].
  apply (proj1 (proj2 (lzw_decode_code_cases (H := Reference.decimalNumber)
                         (str "65,256") (NatNum 65) [] (NatNum 256) [] st
                         ltac:(discriminate) eq_refl E)));
    vm_compute; reflexivity.
Defined.

(** C8. ["ABABABA"] compresses to the codes 65, 66, 256, 258: ["AB"] has
    the code 256 from its first occurrence on, and that code is emitted
    when ["AB"] comes again. Decompressing the result gives ["ABABABA"],
    and the last code, 258, is read while 258 is the next free code. *)
Theorem lzw_ABABABA `{NumberBuiltin} :
  Number_reads_decimal ->
  LZW.compress (str "ABABABA") = str "65,66,256,258"
  /\ LZW.dictionary (LZW.scan (str "AB")) !! str "AB" = Some 256
  /\ LZW.codesOf (str "ABAB") = [Some 65; Some 66; Some 256]
  /\ LZW.decompress (str "65,66,256,258") = Ok (str "ABABABA")
  /\ exists st,
       decodeState [NatNum 65; NatNum 66; NatNum 256] = Ok st
       /\ LZW.nextCode st = 258
       /\ LZW.lookupCode (LZW.mirror st) (NatNum 258) = None.
Proof.
  intros HN. repeat split; try (vm_compute; reflexivity).
  - unfold LZW.decompress.
    change (split 44 (str "65,66,256,258"))
      with [toString 65; toString 66; toString 256; toString 258].
    change (isEmpty (str "65,66,256,258")) with false.
    cbn [fmap list_fmap]. rewrite !HN. vm_compute. reflexivity.
  - eexists. repeat split; vm_compute; reflexivity.
Qed.

Lemma lzw_ABABABA_witness :
  LZW.compress (str "ABABABA") = str "65,66,256,258"
  /\ LZW.decompress (H := Reference.decimalNumber) (str "65,66,256,258")
     = Ok (str "ABABABA").
Proof.
  destruct (lzw_ABABABA (H := Reference.decimalNumber) decimalNumber_reads_decimal)
    as (Hc & _ & _ & Hd & _).
  split; assumption.
Defined.

(** ** Huffman *)

(** The tree of a two-letter alphabet: [a] is [0], [b] is [1]. *)
Definition tree_ab : Huffman.HuffmanNode :=
  Huffman.Node None 2
    (Some (Huffman.Node (Some (str "a")) 1 None None))
    (Some (Huffman.Node (Some (str "b")) 1 None None)).

(** C3, as stated, fails: on the bits ["02"] and the tree of [tree_ab]
    the decoder meets the character [2] and returns normally, with the
    text ["ERROR: Malformed data"] as its result. *)
Lemma huffman_bad_bit_is_a_normal_return :
  Huffman.decompress (H := Reference.nodeJSON)
    (str "02") (Reference.stringify tree_ab)
  = Ok (str "ERROR: Malformed data").
Proof. vm_compute. reflexivity. Qed.

(** C3, amended. With a parsed tree that is not a lone leaf, when the
    decoder meets a character other than [0] and [1], or has to descend
    to a child that is missing, [decompress] stops there and returns the
    fixed text ["ERROR: Malformed data"] as its result, whatever was
    decoded before and whatever follows; it does not throw. *)
Theorem huffman_malformed_returns_error_text `{Huffman.JSON}
    (compressed treeStr : jsstring) (tree node : Huffman.HuffmanNode)
    (bits : list jsstring) (bit : jsstring) (rest : list jsstring)
    (result : jsstring) :
  treeStr <> [] ->
  Huffman.JSON_parse treeStr = Ok tree ->
  Huffman.isLeaf tree = false ->
  chars compressed = bits ++ bit :: rest ->
  walk tree bits node result ->
  (bit <> str "0" /\ bit <> str "1"
   \/ bit = str "0" /\ Huffman.left node = None
   \/ bit = str "1" /\ Huffman.right node = None) ->
  Huffman.decompress compressed treeStr = Ok (str "ERROR: Malformed data").
Proof.
  intros Hts Hparse Hroot Hbits Hwalk Hfault.
  assert (descend node bit = None) as Hd.
  { unfold descend.
    destruct Hfault as [[H0 H1] | [[-> Hl] | [-> Hr]]].
    - now rewrite !decide_False.
    - now rewrite decide_True.
    - rewrite decide_False by discriminate. now rewrite decide_True. }
  unfold Huffman.decompress.
  assert (isEmpty compressed = false) as ->.
  { destruct compressed; [|reflexivity]. now destruct bits. }
  assert (isEmpty treeStr = false) as ->
    by (destruct treeStr; [congruence | reflexivity]).
  cbn [orb]. rewrite Hparse. cbn [bind]. f_equal.
  rewrite decompressTree_internal by assumption.
  rewrite Hbits. now apply decodeBits_fault with node result.
Qed.

Lemma huffman_malformed_returns_error_text_witness :
  Huffman.decompress (H := Reference.nodeJSON)
    (str "02") (Reference.stringify tree_ab)
  = Ok (str "ERROR: Malformed data").
Proof.
  apply (huffman_malformed_returns_error_text (H := Reference.nodeJSON)
           (str "02") (Reference.stringify tree_ab) tree_ab tree_ab
           [str "0"] (str "2") [] (str "a")).
  - discriminate.
  - vm_compute. reflexivity.
  - reflexivity.
  - reflexivity.
  - apply (walk_leaf tree_ab [] tree_ab [] (str "0")
             (Huffman.Node (Some (str "a")) 1 None None));
      [constructor | reflexivity | reflexivity].
  - left. split; discriminate.
Defined.

(** C4, as stated, fails: with bits to decode and an empty tree string,
    [decompress] returns normally, with the empty string. *)
Lemma huffman_missing_tree_is_a_normal_return :
  Huffman.decompress (H := Reference.nodeJSON) (str "0101") [] = Ok [].
Proof. reflexivity. Qed.

(** C4, amended. Called with an empty tree string, Huffman [decompress]
    returns the empty string as its result, for every compressed string,
    and does not throw; asking for the tree is left to the caller. *)
Theorem huffman_missing_tree_returns_empty `{Huffman.JSON}
    (compressed : jsstring) :
  Huffman.decompress compressed [] = Ok [].
Proof. unfold Huffman.decompress. now destruct compressed. Qed.

Lemma chars_repeat_pair hi lo n :
  isHighSurrogate hi = true -> isLowSurrogate lo = true ->
  chars (repeat_str [hi; lo] n) = replicate n [hi; lo].
Proof.
  intros Hhi Hlo. induction n as [|n IH]; [reflexivity|].
  change (repeat_str [hi; lo] (S n)) with (hi :: lo :: repeat_str [hi; lo] n).
  cbn [chars replicate]. rewrite Hhi, Hlo. cbn [andb]. now rewrite IH.
Qed.

Lemma repeat_str_add (s : jsstring) m n :
  repeat_str s (m + n) = repeat_str s m ++ repeat_str s n.
Proof. unfold repeat_str. now rewrite replicate_add, concat_app. Qed.

Lemma length_repeat_str (s : jsstring) n :
  length (repeat_str s n) = (n * length s)%nat.
Proof.
  induction n as [|n IH]; [reflexivity|].
  change (repeat_str s (S n)) with (s ++ repeat_str s n).
  rewrite length_app, IH. lia.
Qed.

(** C7. The payload does not hold one [0] for each character. For a text
    that is one surrogate pair repeated, [compress] counts characters
    for the frequency of the leaf but UTF-16 code units for the payload
    (["0".repeat(text.length)]), two for each character, and
    [decompress] repeats the character once for each [0]: the text comes
    back doubled. The one-character text U+1F600 gives the frequency 1
    and the payload ["00"], and comes back as two characters. *)
Theorem huffman_one_pair_comes_back_doubled `{Huffman.JSON} (hi lo : N) (n : nat) :
  JSON_faithful ->
  isHighSurrogate hi = true -> isLowSurrogate lo = true ->
  let ch := [hi; lo] in
  let text := repeat_str ch (S n) in
  chars text = replicate (S n) ch
  /\ exists r,
       Huffman.compress text = Ok r
       /\ Huffman.tree r
          = Huffman.JSON_stringify
              (Huffman.Node (Some ch) (N.of_nat (S n)) None None)
       /\ Huffman.compressed r = repeat_str (str "0") (2 * S n)
       /\ Huffman.decompress (Huffman.compressed r) (Huffman.tree r)
          = Ok (text ++ text).
Proof.
  intros HJ Hhi Hlo ch text.
  pose proof (chars_repeat_pair hi lo (S n) Hhi Hlo) as Hchars.
  fold ch in Hchars. fold text in Hchars. split; [exact Hchars|].
  assert (length text = (2 * S n)%nat) as Hlen.
  { unfold text, ch. rewrite length_repeat_str. cbn [length]. lia. }
  eexists. split; [apply (compress_single text ch n Hchars)|].
  cbn [Huffman.tree Huffman.compressed]. rewrite Hlen.
  split; [reflexivity|]. split; [reflexivity|].
  destruct (HJ (Huffman.Node (Some ch) (N.of_nat (S n)) None None)) as [Hparse Hne].
  rewrite (decompress_leaf _ _ ch (N.of_nat (S n)) Hne Hparse). f_equal.
  change (str "0") with [48]. rewrite length_repeat_unit.
  replace (2 * S n)%nat with (S n + S n)%nat by lia.
  apply repeat_str_add.
Qed.

Lemma huffman_one_pair_comes_back_doubled_witness :
  chars [0xD83D; 0xDE00] = [[0xD83D; 0xDE00]]
  /\ exists r,
       Huffman.compress (H := Reference.nodeJSON) [0xD83D; 0xDE00] = Ok r
       /\ Huffman.tree r
          = Reference.stringify
              (Huffman.Node (Some [0xD83D; 0xDE00]) 1 None None)
       /\ Huffman.compressed r = str "00"
       /\ Huffman.decompress (H := Reference.nodeJSON)
            (Huffman.compressed r) (Huffman.tree r)
          = Ok [0xD83D; 0xDE00; 0xD83D; 0xDE00].
Proof.
  apply (huffman_one_pair_comes_back_doubled (H := Reference.nodeJSON)
           0xD83D 0xDE00 0 nodeJSON_faithful); reflexivity.
Defined.

(** * Further properties of the codecs and of the page *)

(** ** RLE: what [decompress] accepts and returns *)

Lemma rle_forM_shift s : forall r buf,
  forM RLE.decompress_step s (r, buf)
  = match forM RLE.decompress_step s ([], buf) with
    | Ok (r', buf') => Ok (r ++ r', buf')
    | Throw e => Throw e
    end.
Proof.
  induction s as [|c s IH]; intros r buf; cbn [forM].
  - now rewrite app_nil_r.
  - rewrite !decompress_step_eq. destruct (isDigit c).
    + cbn [bind]. apply IH.
    + destruct (if isEmpty buf then Some 1%Z else parseInt buf) as [n|];
        [|reflexivity].
      destruct (n <? 0)%Z; [reflexivity|]. cbn [bind app].
      rewrite (IH (r ++ _)), (IH (repeat_str [c] (Z.to_nat n))).
      destruct (forM RLE.decompress_step s ([], [])) as [[r' b']|e];
        [|reflexivity].
      now rewrite app_assoc.
Qed.

Lemma rle_forM_digitFree s : forall r buf r' buf',
  forM RLE.decompress_step s (r, buf) = Ok (r', buf') ->
  digitFree r -> digitFree r'.
Proof.
  induction s as [|c s IH]; intros r buf r' buf'; cbn [forM].
  - now intros [= <- <-].
  - rewrite decompress_step_eq. destruct (isDigit c) eqn:Hc.
    + cbn [bind]. apply IH.
    + destruct (if isEmpty buf then Some 1%Z else parseInt buf) as [n|];
        [|discriminate].
      destruct (n <? 0)%Z; [discriminate|]. cbn [bind].
      intros Hrun Hr. eapply IH; [exact Hrun|].
      apply Forall_app. split; [exact Hr|].
      rewrite repeat_str_unit. apply Forall_replicate. exact Hc.
Qed.

Lemma rle_forM_buffer_after s c r buf r' buf' :
  forM RLE.decompress_step (s ++ [c]) (r, buf) = Ok (r', buf') ->
  isDigit c = false -> buf' = [].
Proof.
  rewrite forM_app.
  destruct (forM RLE.decompress_step s (r, buf)) as [[r1 b1]|e]; [|discriminate].
  cbn [bind forM]. rewrite decompress_step_eq. intros Hrun Hc. rewrite Hc in Hrun.
  destruct (if isEmpty b1 then Some 1%Z else parseInt b1) as [n|]; [|discriminate].
  destruct (n <? 0)%Z; [discriminate|]. cbn [bind] in Hrun. congruence.
Qed.

Lemma rle_decompress_Ok_inv s r :
  RLE.decompress s = Ok r ->
  forM RLE.decompress_step s ([], []) = Ok (r, []).
Proof.
  rewrite decompress_eq. destruct s as [|c s]; [now intros [= <-]|].
  cbn [isEmpty].
  destruct (forM RLE.decompress_step (c :: s) ([], [])) as [[r' b']|e];
    [|discriminate].
  destruct b'; [now intros [= <-] | discriminate].
Qed.

(** X2. What RLE [decompress] returns never holds a digit. *)
Theorem rle_decompress_output_has_no_digit (compressed text : jsstring) :
  RLE.decompress compressed = Ok text ->
  Forall (fun c => isDigit c = false) text.
Proof.
  intros H%rle_decompress_Ok_inv.
  eapply rle_forM_digitFree; [exact H | constructor].
Qed.

Lemma rle_decompress_output_has_no_digit_witness :
  RLE.decompress (str "3A2BC") = Ok (str "AAABBC")
  /\ Forall (fun c => isDigit c = false) (str "AAABBC").
Proof.
  split; [reflexivity|].
  apply (rle_decompress_output_has_no_digit (str "3A2BC")). reflexivity.
Defined.

(** X3. RLE gives a text back exactly when the text holds no digit. *)
Theorem rle_roundtrip_iff_digit_free (text : jsstring) :
  RLE.decompress (RLE.compress text) = Ok text <-> digitFree text.
Proof.
  split; [|apply roundtrip_digitFree].
  intros H%rle_decompress_Ok_inv.
  eapply rle_forM_digitFree; [exact H | constructor].
Qed.

(** ** RLE: [decompress] and the longest string of the engine *)

Lemma tooLong_mono limit m n :
  m <= n -> RLE.tooLong limit n = false -> RLE.tooLong limit m = false.
Proof.
  destruct limit as [l|]; cbn [RLE.tooLong]; [|reflexivity].
  rewrite !N.ltb_ge. lia.
Qed.

Lemma tooLong_0 limit : RLE.tooLong limit 0 = false.
Proof.
  destruct limit as [l|]; cbn [RLE.tooLong]; [|reflexivity].
  apply N.ltb_ge. lia.
Qed.

(** The count the loop reads is a natural number. *)
Lemma rle_count buf :
  Forall (fun c => isDigit c = true) buf ->
  exists n, (if isEmpty buf then Some 1%Z else parseInt buf) = Some (Z.of_N n).
Proof.
  intros Hbuf. destruct buf as [|b buf]; cbn [isEmpty].
  - exists 1. reflexivity.
  - apply parseInt_digits; [discriminate | assumption].
Qed.

Lemma rle_forM_length s : forall r buf r' buf',
  forM RLE.decompress_step s (r, buf) = Ok (r', buf') ->
  (length r <= length r')%nat.
Proof.
  induction s as [|c s IH]; intros r buf r' buf'; cbn [forM].
  - intros [= <- <-]. lia.
  - rewrite decompress_step_eq. destruct (isDigit c).
    + cbn [bind]. apply IH.
    + destruct (if isEmpty buf then Some 1%Z else parseInt buf) as [n|];
        [|discriminate].
      destruct (n <? 0)%Z; [discriminate|]. cbn [bind].
      intros Hrun%IH. rewrite length_app in Hrun. lia.
Qed.

(** The loop with a limit, from the loop without: the same state when
    the text built stays within the limit, a [RangeError] once it does
    not. *)
Lemma rle_forM_within limit s : forall r buf r' buf',
  Forall (fun c => isDigit c = true) buf ->
  RLE.tooLong limit (N.of_nat (length r)) = false ->
  forM RLE.decompress_step s (r, buf) = Ok (r', buf') ->
  forM (RLE.decompress_step_within limit) s (r, buf)
  = if RLE.tooLong limit (N.of_nat (length r')) then Throw RangeError
    else Ok (r', buf').
Proof.
  induction s as [|c s IH]; intros r buf r' buf' Hbuf Hr; cbn [forM].
  - intros [= <- <-]. now rewrite Hr.
  - rewrite decompress_step_eq. unfold RLE.decompress_step_within.
    destruct (isDigit c) eqn:Hc; cbn [bind].
    + apply IH; [|assumption]. apply Forall_app. auto.
    + destruct (rle_count buf Hbuf) as [n ->].
      destruct (Z.ltb_spec (Z.of_N n) 0); [lia|]. rewrite N2Z.id. cbn [bind].
      assert (length (r ++ repeat_str [c] (Z.to_nat (Z.of_N n)))
              = (length r + N.to_nat n)%nat) as Hlen.
      { rewrite length_app, repeat_str_unit, length_replicate. lia. }
      intros Hrun.
      destruct (RLE.tooLong limit (N.of_nat (length r) + n)) eqn:Hlong; cbn [bind].
      * apply rle_forM_length in Hrun. rewrite Hlen in Hrun.
        destruct (RLE.tooLong limit (N.of_nat (length r'))) eqn:E; [reflexivity|].
        rewrite (tooLong_mono limit (N.of_nat (length r) + n)
                   (N.of_nat (length r'))) in Hlong;
          [discriminate | lia | exact E].
      * apply IH; [constructor | | exact Hrun].
        rewrite Hlen, Nat2N.inj_add, N2Nat.id. exact Hlong.
Qed.

Lemma rle_forM_expansion s :
  exists buf,
    forM RLE.decompress_step s ([], []) = Ok (expansion s, buf)
    /\ Forall (fun c => isDigit c = true) buf.
Proof.
  unfold expansion.
  destruct (forM_never_throws s [] []) as (r & buf & E & Hbuf); [constructor|].
  rewrite E. eauto.
Qed.

Lemma rle_last_buffer s buf :
  forM RLE.decompress_step s ([], []) = Ok (expansion s, buf) ->
  match list.last s with
  | None => buf = []
  | Some c => if isDigit c then buf <> [] else buf = []
  end.
Proof.
  destruct s as [|c0 s0] using rev_ind; [now intros [= <-]|].
  rewrite last_snoc. intros E. destruct (isDigit c0) eqn:Hc.
  - revert E. rewrite forM_app.
    destruct (forM RLE.decompress_step s0 ([], [])) as [[r1 b1]|e]; [|discriminate].
    cbn [bind forM]. rewrite decompress_step_eq, Hc. cbn [bind].
    intros [= _ <-]. now destruct b1.
  - apply (rle_forM_buffer_after _ _ _ _ _ _ E Hc).
Qed.

(** [decompress] with a limit, in full. *)
Lemma decompress_within_spec limit compressed :
  RLE.decompress_within limit compressed
  = if RLE.tooLong limit (N.of_nat (length (expansion compressed)))
    then Throw RangeError
    else
      match list.last compressed with
      | None => Ok []
      | Some c =>
          if isDigit c then Throw EndsWithNumber else Ok (expansion compressed)
      end.
Proof.
  destruct (rle_forM_expansion compressed) as (buf & E & Hbuf).
  pose proof (rle_last_buffer compressed buf E) as Hlast.
  unfold RLE.decompress_within.
  destruct compressed as [|c0 s0] eqn:Es.
  { change (N.of_nat (length (expansion []))) with 0. now rewrite tooLong_0. }
  rewrite <- Es in *. assert (isEmpty compressed = false) as -> by now subst.
  rewrite (rle_forM_within limit compressed [] [] _ _ ltac:(constructor)
             (tooLong_0 limit) E).
  destruct (RLE.tooLong limit (N.of_nat (length (expansion compressed))));
    [reflexivity|].
  destruct (list.last compressed) as [c|] eqn:El.
  - destruct (isDigit c).
    + destruct buf; [congruence | reflexivity].
    + now rewrite Hlast.
  - subst compressed. apply last_None in El.  discriminate.
Qed.

(** With a limit, [decompress] is [decompress] without one, but for the
    [RangeError]. *)
Lemma decompress_within_unlimited limit compressed :
  RLE.decompress_within limit compressed
  = if RLE.tooLong limit (N.of_nat (length (expansion compressed)))
    then Throw RangeError
    else RLE.decompress compressed.
Proof.
  change (RLE.decompress compressed) with (RLE.decompress_within None compressed).
  now rewrite (decompress_within_spec limit), (decompress_within_spec None).
Qed.


(** X25. Within the string limit RLE gives back every text that holds no
    ASCII digit: the counts that [compress] writes are at most the
    length of the text. *)
Theorem rle_roundtrip_within_limit (limit : option N) (text : jsstring) :
  digitFree text ->
  RLE.tooLong limit (N.of_nat (length text)) = false ->
  RLE.decompress_within limit (RLE.compress text) = Ok text.
Proof.
  intros Ht Hlen. pose proof (roundtrip_digitFree text Ht) as Hrt.
  rewrite decompress_within_unlimited, Hrt.
  unfold expansion. rewrite (rle_decompress_Ok_inv _ _ Hrt). now rewrite Hlen.
Qed.

Lemma rle_roundtrip_within_limit_witness :
  RLE.decompress_within (Some 6) (RLE.compress (str "AAABBC")) = Ok (str "AAABBC").
Proof.
  apply (rle_roundtrip_within_limit (Some 6) (str "AAABBC")).
  - unfold digitFree. repeat constructor.
  - reflexivity.
Defined.

Lemma expansion_app s1 s2 text1 :
  forM RLE.decompress_step s1 ([], []) = Ok (text1, []) ->
  expansion (s1 ++ s2) = text1 ++ expansion s2.
Proof.
  intros E. destruct (rle_forM_expansion s2) as (buf & E2 & _).
  unfold expansion at 1. rewrite forM_app, E. cbn [bind].
  now rewrite rle_forM_shift, E2.
Qed.

(** X4. Decoding a concatenation, with the string limit [limit]: when the
    first part decodes to [text1], the whole throws a [RangeError] if
    [text1] and the text the second part spells out are together longer
    than the limit; otherwise it decodes to the two results joined, and
    throws as the second part does. *)
Theorem rle_decompress_app (limit : option N) (s1 s2 text1 : jsstring) :
  RLE.decompress_within limit s1 = Ok text1 ->
  RLE.decompress_within limit (s1 ++ s2)
  = if RLE.tooLong limit (N.of_nat (length text1 + length (expansion s2)))
    then Throw RangeError
    else bind (RLE.decompress_within limit s2) (fun text2 => Ok (text1 ++ text2)).
Proof.
  intros H1.
  assert (forM RLE.decompress_step s1 ([], []) = Ok (text1, [])) as E1.
  { apply rle_decompress_Ok_inv. revert H1. rewrite decompress_within_unlimited.
    now destruct (RLE.tooLong limit _). }
  rewrite (decompress_within_spec limit (s1 ++ s2)), (decompress_within_spec limit s2).
  rewrite (expansion_app s1 s2 text1 E1), length_app.
  destruct (RLE.tooLong limit (N.of_nat (length text1 + length (expansion s2))))
    eqn:Hlong; [reflexivity|].
  assert (RLE.tooLong limit (N.of_nat (length (expansion s2))) = false) as ->.
  { eapply tooLong_mono; [|exact Hlong]. lia. }
  destruct s2 as [|c s2] using rev_ind.
  - rewrite app_nil_r. cbn [list.last bind]. rewrite app_nil_r. clear Hlong.
    revert H1. rewrite (decompress_within_spec limit s1).
    assert (expansion s1 = text1) as -> by (unfold expansion; now rewrite E1).
    destruct (RLE.tooLong limit _); [discriminate|].
    intros ->. now rewrite app_nil_r.
  - rewrite app_assoc, !last_snoc. now destruct (isDigit c).
Qed.

Lemma rle_decompress_app_witness :
  RLE.decompress_within (Some 5) (str "3A") = Ok (str "AAA")
  /\ RLE.decompress_within (Some 5) (str "2BC") = Ok (str "BBC")
  /\ RLE.decompress_within (Some 5) (str "3A" ++ str "2BC") = Throw RangeError
  /\ RLE.decompress_within (Some 6) (str "3A" ++ str "2BC") = Ok (str "AAABBC").
Proof.
  split; [reflexivity|]. split; [reflexivity|]. split.
  - apply (rle_decompress_app (Some 5) (str "3A") (str "2BC") (str "AAA")).
    reflexivity.
  - apply (rle_decompress_app (Some 6) (str "3A") (str "2BC") (str "AAA")).
    reflexivity.
Defined.

(** ** RLE: the output is never longer than the text *)

Lemma usize_digits u :
  DecimalPos.Unsigned.usize u = N.of_nat (length (digits_of_uint u)).
Proof.
  induction u; cbn [DecimalPos.Unsigned.usize digits_of_uint length];
    rewrite ?IHu, ?Nat2N.inj_succ; reflexivity.
Qed.

Lemma pow10_ge m : 1 <= m -> m + 2 <= 10 ^ m.
Proof.
  induction m as [|m IH] using N.peano_ind; [lia|]. intros _.
  rewrite N.pow_succ_r'. destruct (N.eq_dec m 0) as [->|Hm]; [simpl; lia|].
  assert (m + 2 <= 10 ^ m) by (apply IH; lia). lia.
Qed.

Lemma of_uint_acc_ge d acc :
  10 ^ DecimalPos.Unsigned.usize d <= N.pos (Pos.of_uint_acc d acc).
Proof.
  rewrite DecimalPos.Unsigned.of_uint_acc_rev.
  assert (1 <= N.pos acc) by lia.
  assert (0 < 10 ^ DecimalPos.Unsigned.usize d)
    by (apply N.neq_0_lt_0, N.pow_nonzero; lia).
  nia.
Qed.

Lemma to_uint_no_leading_zero p d : Pos.to_uint p <> Decimal.D0 d.
Proof.
  intros E.
  pose proof (DecimalPos.Unsigned.to_of (Pos.to_uint p)) as H.
  rewrite DecimalPos.Unsigned.of_to in H. cbn [N.to_uint] in H.
  rewrite E in H. rewrite DecimalFacts.unorm_D0 in H.
  destruct d;
    [ pose proof (DecimalPos.Unsigned.of_to p) as H'; rewrite E in H';
      discriminate | .. ].
  all: apply (f_equal Decimal.nb_digits) in H;
    match type of H with
    | _ = Decimal.nb_digits (Decimal.unorm ?u) =>
        pose proof (DecimalFacts.nb_digits_unorm u ltac:(discriminate))
    end; cbn [Decimal.nb_digits] in *; lia.
Qed.

Lemma toString_length_bound n :
  2 <= n -> (length (toString n) + 1 <= N.to_nat n)%nat.
Proof.
  intros Hn. destruct n as [|p]; [lia|]. unfold toString. cbn [N.to_uint].
  pose proof (DecimalPos.Unsigned.of_to p) as Hof.
  pose proof (to_uint_no_leading_zero p) as Hz.
  destruct (Pos.to_uint p) as [|d|d|d|d|d|d|d|d|d|d];
    [discriminate | now elim (Hz d) | ..].
  all: cbn [Pos.of_uint] in Hof;
    match type of Hof with
    | N.pos (Pos.of_uint_acc _ ?a) = _ => pose proof (of_uint_acc_ge d a) as Hge
    end;
    rewrite Hof, usize_digits in Hge;
    cbn [digits_of_uint length];
    destruct (length (digits_of_uint d)) as [|m] eqn:El;
    [ simpl; lia
    | pose proof (pow10_ge (N.of_nat (S m)) ltac:(lia)); lia ].
Qed.

Lemma rle_length_appendRun st :
  1 <= RLE.count st ->
  (length (RLE.appendRun st)
   <= length (RLE.result st) + N.to_nat (RLE.count st))%nat.
Proof.
  intros Hn. unfold RLE.appendRun. rewrite !length_app. cbn [length].
  destruct (N.ltb_spec 1 (RLE.count st)) as [Hlt|Hle].
  - pose proof (toString_length_bound (RLE.count st) ltac:(lia)). lia.
  - cbn [length]. lia.
Qed.

Lemma rle_length_step st x :
  1 <= RLE.count st ->
  1 <= RLE.count (RLE.compress_step st x)
  /\ (length (RLE.result (RLE.compress_step st x))
      + N.to_nat (RLE.count (RLE.compress_step st x))
      <= length (RLE.result st) + N.to_nat (RLE.count st) + 1)%nat.
Proof.
  intros Hn. unfold RLE.compress_step.
  destruct (x =? RLE.currentChar st); cbn [RLE.count RLE.result].
  - lia.
  - pose proof (rle_length_appendRun st Hn). lia.
Qed.

Lemma rle_length_fold rest : forall st,
  1 <= RLE.count st ->
  1 <= RLE.count (fold_left RLE.compress_step rest st)
  /\ (length (RLE.result (fold_left RLE.compress_step rest st))
      + N.to_nat (RLE.count (fold_left RLE.compress_step rest st))
      <= length (RLE.result st) + N.to_nat (RLE.count st) + length rest)%nat.
Proof.
  induction rest as [|x rest IH]; intros st Hn; cbn [fold_left length].
  - lia.
  - destruct (rle_length_step st x Hn) as [S1 S2].
    destruct (IH _ S1) as [H1 H2]. split; [exact H1 | lia].
Qed.

(** X5. RLE never lengthens a text: the compressed string has at most as
    many code units as the text. *)
Theorem rle_compress_never_longer (text : jsstring) :
  (length (RLE.compress text) <= length text)%nat.
Proof.
  destruct text as [|c0 rest]; [reflexivity|]. unfold RLE.compress.
  destruct (rle_length_fold rest (RLE.CState [] 1 c0)) as [H1 H2];
    [cbn [RLE.count]; lia|].
  pose proof (rle_length_appendRun _ H1). cbn [RLE.count RLE.result length] in *.
  lia.
Qed.

(** ** LZW: which code sequences the decoder accepts *)

Lemma lzw_step_accepts st code :
  keys_below st ->
  (forall k, code = NatNum k -> k <= LZW.nextCode st ->
     exists st', LZW.decompress_step st code = Ok st'
                 /\ keys_below st' /\ LZW.nextCode st' = LZW.nextCode st + 1)
  /\ ((forall k, code = NatNum k -> LZW.nextCode st < k) ->
      LZW.decompress_step st code = Throw CodeOutOfBounds).
Proof.
  intros Hkeys.
  assert (forall entry, keys_below (advance st entry)) as Hadv.
  { intros entry k. cbn [advance LZW.mirror LZW.nextCode].
    destruct (decide (LZW.nextCode st = k)) as [<-|Hne].
    - rewrite lookup_insert_eq. split; [lia | eauto].
    - rewrite lookup_insert_ne by assumption.
      split; intros H; [apply Hkeys in H | apply Hkeys]; lia. }
  split.
  - intros k -> Hk. unfold LZW.decompress_step. cbn [LZW.lookupCode].
    destruct (LZW.mirror st !! k) as [e|] eqn:E.
    + exists (advance st e). cbn [bind].
      split; [reflexivity | split; [apply Hadv | reflexivity]].
    + assert (k = LZW.nextCode st) as ->.
      { destruct (N.lt_ge_cases k (LZW.nextCode st)) as [Hlt|Hge]; [|lia].
        apply Hkeys in Hlt. rewrite E in Hlt. now destruct Hlt. }
      cbn [number_eqb]. rewrite N.eqb_refl.
      exists (advance st (LZW.prevPhrase st ++ at0 (LZW.prevPhrase st))).
      cbn [bind]. split; [reflexivity | split; [apply Hadv | reflexivity]].
  - intros Hbig. unfold LZW.decompress_step. destruct code as [k|]; [|reflexivity].
    specialize (Hbig k eq_refl). cbn [LZW.lookupCode number_eqb].
    destruct (LZW.mirror st !! k) as [e|] eqn:E.
    + assert (k < LZW.nextCode st) by (apply Hkeys; rewrite E; eauto). lia.
    + destruct (N.eqb_spec k (LZW.nextCode st)); [lia | reflexivity].
Qed.

Lemma lzw_forM_accepts codes : forall st,
  keys_below st ->
  (forall i c, codes !! i = Some c ->
     exists k, c = NatNum k /\ k <= LZW.nextCode st + N.of_nat i) ->
  exists st',
    forM LZW.decompress_step codes st = Ok st' /\ keys_below st'
    /\ LZW.nextCode st' = LZW.nextCode st + N.of_nat (length codes).
Proof.
  induction codes as [|code codes IH]; intros st Hkeys Hall.
  - exists st. cbn [forM length]. split; [reflexivity|]. split; [assumption | lia].
  - destruct (lzw_step_accepts st code Hkeys) as [Hok _].
    destruct (Hall 0%nat code eq_refl) as (k & -> & Hk).
    destruct (Hok k eq_refl ltac:(lia)) as (st1 & E1 & K1 & N1).
    destruct (IH st1 K1) as (st' & Hrun & K' & N').
    { intros i c Hi. destruct (Hall (S i) c Hi) as (j & -> & Hj).
      exists j. split; [auto | lia]. }
    exists st'. cbn [forM length]. rewrite E1. cbn [bind].
    split; [assumption|]. split; [assumption | lia].
Qed.

Lemma lzw_forM_accepted codes : forall st st',
  keys_below st ->
  forM LZW.decompress_step codes st = Ok st' ->
  forall i c, codes !! i = Some c ->
    exists k, c = NatNum k /\ k <= LZW.nextCode st + N.of_nat i.
Proof.
  induction codes as [|code codes IH]; intros st st' Hkeys Hrun i c Hi;
    [discriminate|].
  destruct (lzw_step_accepts st code Hkeys) as [Hok Hbad].
  cbn [forM] in Hrun.
  assert (exists k, code = NatNum k /\ k <= LZW.nextCode st) as (k & -> & Hk).
  { destruct code as [k|].
    - destruct (N.le_gt_cases k (LZW.nextCode st)) as [Hle|Hgt]; [eauto|].
      rewrite Hbad in Hrun; [discriminate|]. intros ? [= <-]. exact Hgt.
    - rewrite Hbad in Hrun; [discriminate|]. intros ? [=]. }
  destruct (Hok k eq_refl Hk) as (st1 & E1 & K1 & N1).
  rewrite E1 in Hrun. cbn [bind] in Hrun.
  destruct i as [|i].
  - injection Hi as <-. exists k. split; [auto | lia].
  - destruct (IH st1 st' K1 Hrun i c Hi) as (j & -> & Hj).
    exists j. split; [auto | lia].
Qed.

Lemma lzw_inBounds_spec i code :
  inBounds i code = true <-> exists k, code = NatNum k /\ k <= 255 + N.of_nat i.
Proof.
  destruct code as [k|]; cbn [inBounds].
  - rewrite N.leb_le. split; [eauto | now intros (? & [= <-] & ?)].
  - split; [discriminate | now intros (? & [=] & _)].
Qed.

Lemma lzw_keys_below_initial p : keys_below (LZW.DState LZW.initialMirror 256 p p).
Proof.
  intros k. cbn [LZW.mirror LZW.nextCode]. split.
  - intros [s Hs]. now apply initialMirror_lookup in Hs.
  - intros Hk. exists [k]. now apply initialMirror_lookup.
Qed.

Lemma lzw_first_code code :
  match LZW.lookupCode LZW.initialMirror code with
  | Some p => inBounds 0 code = true
  | None => inBounds 0 code = false
  end.
Proof.
  destruct code as [k|]; cbn [LZW.lookupCode inBounds]; [|reflexivity].
  destruct (LZW.initialMirror !! k) as [s|] eqn:E.
  - apply initialMirror_lookup in E. apply N.leb_le. lia.
  - apply N.leb_gt. destruct (N.lt_ge_cases k 256) as [Hlt|Hge]; [|lia].
    rewrite (initialMirror_singleton k Hlt) in E. discriminate.
Qed.

Lemma lzw_forM_throws codes : forall st e,
  forM LZW.decompress_step codes st = Throw e -> e = CodeOutOfBounds.
Proof.
  induction codes as [|code codes IH]; intros st e; cbn [forM]; [discriminate|].
  destruct (LZW.decompress_step st code) as [st1|e1] eqn:E; cbn [bind].
  - apply IH.
  - intros [= <-]. unfold LZW.decompress_step in E.
    destruct (LZW.lookupCode (LZW.mirror st) code); [discriminate|].
    destruct (number_eqb code (NatNum (LZW.nextCode st))); [discriminate|].
    cbn [bind] in E. congruence.
Qed.

Lemma lzw_decode_in_bounds (codes : list number) :
  codes <> [] ->
  (forall i c, codes !! i = Some c -> inBounds i c = true) ->
  exists text, LZW.decode codes = Ok text.
Proof.
  intros Hne Hall. destruct codes as [|first rest]; [congruence|].
  cbn [LZW.decode]. pose proof (lzw_first_code first) as Hfirst.
  destruct (LZW.lookupCode LZW.initialMirror first) as [p|].
  2:{ specialize (Hall 0%nat first eq_refl). congruence. }
  destruct (lzw_forM_accepts rest _ (lzw_keys_below_initial p)) as (st' & E & _).
  { intros i c Hi. specialize (Hall (S i) c Hi).
    apply lzw_inBounds_spec in Hall as (k & -> & Hk).
    exists k. split; [reflexivity|]. cbn [LZW.nextCode]. lia. }
  rewrite E. cbn [bind]. eauto.
Qed.

(** X6. Which arrays of codes LZW [decompress] decodes: exactly the non-empty
    ones whose code at each position [i] (from 0) is a non-negative
    integer of at most [255 + i]. It throws "First code is not in initial
    dictionary" exactly when the first code is missing or is not an
    integer in 0..255, and "out of dictionary bounds" in every other
    failing case. *)
Theorem lzw_decode_accepts_codes_in_bounds (codes : list number) :
  ((exists text, LZW.decode codes = Ok text)
   <-> codes <> [] /\ forall i c, codes !! i = Some c -> inBounds i c = true)
  /\ (LZW.decode codes = Throw FirstCodeNotInDictionary
      <-> forall c, head codes = Some c -> inBounds 0 c = false)
  /\ (forall e, LZW.decode codes = Throw e ->
        e = FirstCodeNotInDictionary \/ e = CodeOutOfBounds).
Proof.
  destruct codes as [|first rest].
  { cbn [LZW.decode head]. split; [|split].
    - split; [now intros [? ?] | intros [? _]; congruence].
    - split; [discriminate | reflexivity].
    - intros e [= <-]. now left. }
  cbn [LZW.decode head]. pose proof (lzw_first_code first) as Hfirst.
  destruct (LZW.lookupCode LZW.initialMirror first) as [p|].
  2:{ split; [|split].
      - split; [now intros [? ?]|].
        intros [_ Hall]. specialize (Hall 0%nat first eq_refl). congruence.
      - split; [now intros _ c [= <-] | reflexivity].
      - intros e [= <-]. now left. }
  pose proof (lzw_keys_below_initial p) as Hkeys.
  split; [|split].
  - split.
    + intros [text Hrun]. split; [discriminate|].
      destruct (forM LZW.decompress_step rest _) as [st'|] eqn:E; [|discriminate].
      intros [|i] c Hi.
      * injection Hi as <-. exact Hfirst.
      * apply lzw_inBounds_spec.
        destruct (lzw_forM_accepted rest _ _ Hkeys E i c Hi) as (k & -> & Hk).
        exists k. split; [reflexivity|]. cbn [LZW.nextCode] in Hk. lia.
    + intros [_ Hall].
      destruct (lzw_forM_accepts rest _ Hkeys) as (st' & E & _).
      { intros i c Hi. specialize (Hall (S i) c Hi).
        apply lzw_inBounds_spec in Hall as (k & -> & Hk).
        exists k. split; [reflexivity|]. cbn [LZW.nextCode]. lia. }
      rewrite E. cbn [bind]. eauto.
  - split.
    + destruct (forM LZW.decompress_step rest _) as [st'|e] eqn:E;
        cbn [bind]; [discriminate|].
      apply lzw_forM_throws in E. congruence.
    + intros Hc. specialize (Hc first eq_refl). congruence.
  - intros e. destruct (forM LZW.decompress_step rest _) as [st'|e'] eqn:E;
      cbn [bind]; [discriminate|].
    apply lzw_forM_throws in E. intros [= <-]. now right.
Qed.

(** *** The dictionary of the decoder *)

(** X23. Once the decoder has read [n] codes, its dictionary holds exactly
    the codes below [255 + n], the next free one, and no empty phrase:
    it grows by one entry with each code after the first, and
    [prevPhrase[0]] is never [undefined]. *)
Theorem lzw_decoder_dictionary (codes : list number) (st : LZW.dstate) :
  decodeState codes = Ok st ->
  LZW.nextCode st = 255 + N.of_nat (length codes)
  /\ (forall k, is_Some (LZW.mirror st !! k) <-> k < LZW.nextCode st)
  /\ LZW.prevPhrase st <> []
  /\ (forall k phrase, LZW.mirror st !! k = Some phrase -> phrase <> []).
Proof.
  intros Hrun.
  destruct (decodeState_phrases_nonempty codes st Hrun) as [Hprev Hphr].
  destruct codes as [|first rest]; [discriminate|]. cbn [decodeState] in Hrun.
  destruct (LZW.lookupCode LZW.initialMirror first) as [p|]; [|discriminate].
  pose proof (lzw_keys_below_initial p) as Hkeys.
  pose proof (lzw_forM_accepted rest _ _ Hkeys Hrun) as Hall.
  destruct (lzw_forM_accepts rest _ Hkeys Hall) as (st' & E & Hkeys' & Hnext).
  assert (st' = st) as -> by congruence.
  cbn [LZW.nextCode length] in Hnext.
  split; [cbn [length]; lia|]. split; [exact Hkeys'|]. split; assumption.
Qed.

Lemma lzw_decoder_dictionary_witness :
  exists st,
    decodeState [NatNum 65; NatNum 66; NatNum 256; NatNum 258] = Ok st
    /\ LZW.nextCode st = 259.
Proof.
  destruct (decodeState [NatNum 65; NatNum 66; NatNum 256; NatNum 258])
    as [st|e] eqn:E; [|vm_compute in E; discriminate].
  exists st. split; [reflexivity|].
  apply (lzw_decoder_dictionary [NatNum 65; NatNum 66; NatNum 256; NatNum 258] st E).
Defined.

(** ** LZW: the codes that [compress] emits *)

Record emits_within (st : LZW.cstate) : Prop := {
  within_size : LZW.dictSize st = 256 + N.of_nat (length (LZW.result st));
  within_dictionary : forall s k,
    LZW.dictionary st !! s = Some k -> k < LZW.dictSize st;
  within_result : forall i c, LZW.result st !! i = Some c -> codeWithin i c
}.

Lemma lzw_push_within st :
  emits_within st ->
  forall i c,
    (LZW.result st ++ [LZW.dictionary st !! LZW.currentPhrase st]) !! i = Some c ->
    codeWithin i c.
Proof.
  intros [Hsize Hdict Hres] i c Hi.
  apply lookup_app_Some in Hi as [Hi | [Hlen Hi]]; [now apply (Hres i)|].
  apply list_lookup_singleton_Some in Hi as [Hi <-].
  intros k Hk. apply Hdict in Hk. lia.
Qed.

Lemma lzw_step_within st ch :
  emits_within st -> emits_within (LZW.compress_step st ch).
Proof.
  intros Hst. pose proof Hst as [Hsize Hdict Hres]. unfold LZW.compress_step, LZW.has.
  destruct (LZW.dictionary st !! (LZW.currentPhrase st ++ ch)) as [j|] eqn:E.
  - constructor; assumption.
  - constructor; cbn [LZW.dictionary LZW.dictSize LZW.result LZW.currentPhrase].
    + rewrite length_app. cbn [length]. lia.
    + intros s k. destruct (decide (LZW.currentPhrase st ++ ch = s)) as [<-|Hne].
      * rewrite lookup_insert_eq. intros [= <-]. lia.
      * rewrite lookup_insert_ne by assumption. intros Hk%Hdict. lia.
    + now apply lzw_push_within.
Qed.

Lemma lzw_fold_within cs : forall st,
  emits_within st -> emits_within (foldl LZW.compress_step st cs).
Proof.
  induction cs as [|ch cs IH]; intros st Hst; cbn [foldl]; [assumption|].
  apply IH. now apply lzw_step_within.
Qed.

Lemma lzw_initial_within : emits_within (LZW.CState LZW.initialDictionary 256 [] []).
Proof.
  constructor; cbn [LZW.dictionary LZW.dictSize LZW.result length].
  - reflexivity.
  - intros s k Hk. now apply initialDictionary_lookup in Hk.
  - intros i c Hi. discriminate.
Qed.

Lemma lzw_codesOf_within text i c :
  LZW.codesOf text !! i = Some c -> codeWithin i c.
Proof.
  unfold LZW.codesOf. cbv zeta.
  pose proof (lzw_fold_within (chars text) _ lzw_initial_within) as Hst.
  fold (LZW.scan text) in Hst.
  destruct (isEmpty (LZW.currentPhrase (LZW.scan text))).
  - apply (within_result _ Hst).
  - now apply lzw_push_within.
Qed.

(** *** The text form of the codes *)

Lemma lzw_renderCode_no_comma code : Forall (fun c => c <> 44) (LZW.renderCode code).
Proof. destruct code; [apply toString_no_comma | constructor]. Qed.

Lemma lzw_parse_compress `{NumberBuiltin} (codes : list (option N)) :
  Number_reads_decimal -> Number [] = NatNum 0 -> codes <> [] ->
  Number <$> split 44 (join (str ",") (LZW.renderCode <$> codes))
  = numberOf <$> codes.
Proof.
  intros HN H0 Hne. change (str ",") with [44].
  rewrite split_join.
  - rewrite <- list_fmap_compose. apply list_fmap_ext.
    intros i [k|] _; cbn [compose LZW.renderCode numberOf]; [apply HN | exact H0].
  - destruct codes; [congruence | discriminate].
  - apply Forall_fmap, Forall_forall. intros c _. apply lzw_renderCode_no_comma.
Qed.

(** X7. LZW [decompress] never throws on what [compress] returns, for any
    text: every code is below the size the dictionary has at its
    position, and an [undefined] code reads back as 0. *)
Theorem lzw_decompress_accepts_compress_output `{NumberBuiltin} (text : jsstring) :
  Number_reads_decimal -> Number [] = NatNum 0 ->
  exists out, LZW.decompress (LZW.compress text) = Ok out.
Proof.
  intros HN H0. unfold LZW.decompress.
  destruct (isEmpty (LZW.compress text)) eqn:Ee; [eauto|].
  unfold LZW.compress in *. destruct (isEmpty text); [discriminate|].
  assert (LZW.codesOf text <> []) as Hne.
  { intros E. rewrite E in Ee. discriminate. }
  rewrite lzw_parse_compress by assumption.
  apply lzw_decode_in_bounds.
  - destruct (LZW.codesOf text); [congruence | discriminate].
  - intros i c Hi. apply list_lookup_fmap_Some in Hi as (code & -> & Hi).
    pose proof (lzw_codesOf_within text i code Hi) as Hw.
    destruct code as [k|]; cbn [numberOf inBounds]; apply N.leb_le; [now apply Hw | lia].
Qed.

Lemma lzw_decompress_accepts_compress_output_witness :
  exists out,
    LZW.decompress (H := Reference.decimalNumber) (LZW.compress [8364]) = Ok out.
Proof.
  apply (lzw_decompress_accepts_compress_output (H := Reference.decimalNumber) [8364]).
  - apply decimalNumber_reads_decimal.
  - reflexivity.
Defined.

(** *** How many codes, and never none *)

Lemma chars_elements_not_empty s : Forall (fun ch => ch <> []) (chars s).
Proof.
  eapply List.Forall_impl; [|apply chars_lengths].
  intros ch [H|H] ->; discriminate.
Qed.

Lemma lzw_step_started st ch :
  ch <> [] ->
  LZW.currentPhrase (LZW.compress_step st ch) <> []
  /\ (LZW.result (LZW.compress_step st ch) = [] ->
      is_Some (LZW.dictionary (LZW.compress_step st ch)
                 !! LZW.currentPhrase (LZW.compress_step st ch))).
Proof.
  intros Hch. unfold LZW.compress_step, LZW.has.
  destruct (LZW.dictionary st !! (LZW.currentPhrase st ++ ch)) as [j|] eqn:E;
    cbn [LZW.dictionary LZW.dictSize LZW.result LZW.currentPhrase].
  - split.
    + destruct (LZW.currentPhrase st); [exact Hch | discriminate].
    + intros _. rewrite E. eauto.
  - split; [exact Hch|]. intros H. now destruct (LZW.result st).
Qed.

Lemma lzw_join_not_empty (sep : jsstring) (l : list jsstring) x :
  sep <> [] -> l <> [] -> join sep (l ++ [x]) <> [].
Proof.
  intros Hsep Hl. destruct l as [|y l]; [congruence|].
  cbn [app join]. destruct (l ++ [x]) eqn:E.
  - now destruct l.
  - intros H. apply app_eq_nil in H as [_ H]. apply app_eq_nil in H as [H _].
    congruence.
Qed.

Lemma lzw_compress_not_empty text : text <> [] -> LZW.compress text <> [].
Proof.
  intros Hne. unfold LZW.compress.
  assert (isEmpty text = false) as -> by (destruct text; [congruence | reflexivity]).
  unfold LZW.codesOf, LZW.scan. cbv zeta.
  pose proof (chars_not_empty text Hne) as Hcs.
  pose proof (chars_elements_not_empty text) as Hel.
  destruct (exists_last Hcs) as (cs0 & c0 & Ec). rewrite Ec in Hel |- *.
  apply Forall_app in Hel as [_ Hch]. apply list.Forall_cons in Hch as [Hch _].
  rewrite foldl_snoc.
  set (st := foldl LZW.compress_step _ cs0).
  destruct (lzw_step_started st c0 Hch) as [Hcur Hfirst].
  assert (isEmpty (LZW.currentPhrase (LZW.compress_step st c0)) = false) as ->
    by (destruct (LZW.currentPhrase (LZW.compress_step st c0)); [congruence | reflexivity]).
  rewrite fmap_app. cbn [fmap list_fmap].
  destruct (LZW.result (LZW.compress_step st c0)) as [|r0 rs] eqn:Er.
  - destruct (Hfirst eq_refl) as [k ->]. cbn [fmap list_fmap app join LZW.renderCode].
    apply toString_not_empty.
  - apply lzw_join_not_empty; discriminate.
Qed.

(** X8. RLE and LZW [compress] return the empty string for the empty text
    only. *)
Theorem rle_lzw_output_empty_only_for_empty_text (text : jsstring) :
  (RLE.compress text = [] <-> text = [])
  /\ (LZW.compress text = [] <-> text = []).
Proof.
  split; split.
  - destruct text as [|c0 rest]; [reflexivity|]. unfold RLE.compress.
    intros E. pose proof (appendRun_not_empty
      (fold_left RLE.compress_step rest (RLE.CState [] 1 c0))) as H.
    rewrite E in H. discriminate.
  - now intros ->.
  - intros E. destruct (decide (text = [])) as [|Hne]; [assumption|].
    now apply lzw_compress_not_empty in Hne.
  - now intros ->.
Qed.

Lemma lzw_step_result_length st ch :
  (length (LZW.result (LZW.compress_step st ch)) <= S (length (LZW.result st)))%nat.
Proof.
  unfold LZW.compress_step. destruct (LZW.has _ _); cbn [LZW.result]; [lia|].
  rewrite length_app. cbn [length]. lia.
Qed.

Lemma lzw_fold_result_length cs : forall st,
  (length (LZW.result (foldl LZW.compress_step st cs))
   <= length (LZW.result st) + length cs)%nat.
Proof.
  induction cs as [|ch cs IH]; intros st; cbn [foldl length]; [lia|].
  pose proof (IH (LZW.compress_step st ch)).
  pose proof (lzw_step_result_length st ch). lia.
Qed.

Lemma lzw_finish_length st :
  (length (finish st) <= S (length (LZW.result st)))%nat.
Proof.
  unfold finish. destruct (isEmpty _); [lia|].
  rewrite length_app. cbn [length]. lia.
Qed.

(** X9. LZW emits at most one code for each character of the text, when the
    text starts with a character of the initial dictionary, and at most
    one more otherwise. *)
Theorem lzw_code_count (text : jsstring) :
  (length (LZW.codesOf text)
   <= length (chars text)
      + match head text with
        | Some c => if (c <? 256)%N then 0 else 1
        | None => 0
        end)%nat.
Proof.
  rewrite codesOf_finish. unfold LZW.scan.
  destruct text as [|c rest]; [cbn; lia|]. cbn [head].
  destruct (N.ltb_spec c 256) as [Hc|Hc].
  - assert (chars (c :: rest) = [c] :: chars rest) as ->.
    { destruct rest as [|d r]; [reflexivity|].
      change (chars (c :: d :: r)) with
        (if isHighSurrogate c && isLowSurrogate d
         then [c; d] :: chars r else [c] :: chars (d :: r)).
      assert (isHighSurrogate c = false) as ->; [|reflexivity].
      unfold isHighSurrogate. apply andb_false_iff. left. apply N.leb_gt. lia. }
    cbn [foldl length].
    rewrite (compress_step_extend _ _ c) by now apply initial_singleton.
    cbn [LZW.dictionary LZW.dictSize LZW.result LZW.currentPhrase app].
    match goal with |- (length (finish (foldl _ ?st _)) <= _)%nat =>
      pose proof (lzw_finish_length (foldl LZW.compress_step st (chars rest)));
      pose proof (lzw_fold_result_length (chars rest) st) as Hl
    end.
    cbn [LZW.result length] in Hl. lia.
  - match goal with |- (length (finish (foldl _ ?st ?cs)) <= _)%nat =>
      pose proof (lzw_finish_length (foldl LZW.compress_step st cs));
      pose proof (lzw_fold_result_length cs st) as Hl
    end.
    cbn [LZW.result length] in Hl. lia.
Qed.

(** *** The characters of the output *)

Lemma lzw_join_alphabet (l : list (option N)) :
  Forall (fun c => isDigit c = true \/ c = 44)
         (join (str ",") (LZW.renderCode <$> l)).
Proof.
  assert (forall code, Forall (fun c => isDigit c = true \/ c = 44)
                         (LZW.renderCode code)) as Hcode.
  { intros [k|]; [|constructor]. cbn [LZW.renderCode].
    eapply List.Forall_impl; [|apply toString_isDigit]. auto. }
  induction l as [|code l IH]; [constructor|].
  cbn [fmap list_fmap join]. destruct l as [|code' l]; [apply Hcode|].
  cbn [fmap list_fmap] in *. apply Forall_app. split; [apply Hcode|].
  apply Forall_app. split; [|exact IH].
  change (str ",") with [44]. constructor; [now right | constructor].
Qed.

Lemma lzw_compress_alphabet text :
  Forall (fun c => isDigit c = true \/ c = 44) (LZW.compress text).
Proof.
  unfold LZW.compress. destruct (isEmpty text); [constructor|].
  apply lzw_join_alphabet.
Qed.

(** X10. The output of LZW [compress] holds decimal digits and commas only. *)
Theorem lzw_output_is_digits_and_commas (text : jsstring) :
  Forall (fun c => isDigit c = true \/ c = 44) (LZW.compress text).
Proof. apply lzw_compress_alphabet. Qed.

(** ** The min-heap: heap order and the least item

    [insert] and [extractMin] keep the array in heap order, and
    [extractMin] returns an item that none of the others compares below,
    for a comparator that orders the items as [(a, b) => a.freq - b.freq]
    does. *)

Section MinHeap_order.
Context {T : Type} (comparator : T -> T -> Z).
Import MinHeap.

(** [parent index] is [Math.floor((index - 1) / 2)]. *)
Definition parent (index : nat) : nat := (index - 1) / 2.

(** Heap order: no item compares below its parent. *)
Definition ordered (heap : list T) : Prop :=
  forall j, (0 < j)%nat -> less comparator heap j (parent j) = false.

(** The comparator orders the items: [a] is not below [b] when [b] is
    below [a], and "not below" is transitive. *)
Definition orders : Prop :=
  (forall a b, (comparator a b <? 0)%Z = true -> (comparator b a <? 0)%Z = false)
  /\ (forall a b c, (comparator b a <? 0)%Z = false ->
        (comparator c b <? 0)%Z = false -> (comparator c a <? 0)%Z = false).

Hypothesis Horders : orders.

Lemma below_trans a b c :
  (comparator a b <? 0)%Z = true -> (comparator b c <? 0)%Z = true ->
  (comparator a c <? 0)%Z = true.
Proof.
  destruct Horders as [Hasym Htrans]. intros Hab Hbc.
  destruct (comparator a c <? 0)%Z eqn:E; [reflexivity|].
  pose proof (Htrans _ _ _ E (Hasym _ _ Hab)). congruence.
Qed.

Lemma parent_child j i :
  (0 < j)%nat -> parent j = i <-> j = (2 * i + 1)%nat \/ j = (2 * i + 2)%nat.
Proof.
  unfold parent. intros Hj.
  pose proof (Nat.div_mod_eq (j - 1) 2).
  pose proof (Nat.mod_upper_bound (j - 1) 2).
  split.
  - intros <-. lia.
  - intros [-> | ->].
    + replace (2 * i + 1 - 1)%nat with (i * 2)%nat by lia. apply Nat.div_mul. lia.
    + replace (2 * i + 2 - 1)%nat with (1 + i * 2)%nat by lia.
      rewrite Nat.div_add by lia. reflexivity.
Qed.

Lemma parent_lt j : (0 < j)%nat -> (parent j < j)%nat.
Proof.
  intros Hj. unfold parent.
  pose proof (Nat.div_mod_eq (j - 1) 2).
  pose proof (Nat.mod_upper_bound (j - 1) 2). lia.
Qed.

Lemma swap_lookup (heap : list T) i j a b k :
  heap !! i = Some a -> heap !! j = Some b -> i <> j ->
  swap heap i j !! k
  = if decide (k = j) then Some a else if decide (k = i) then Some b else heap !! k.
Proof.
  intros Ha Hb Hne. unfold swap. rewrite Ha, Hb.
  pose proof (lookup_lt_Some _ _ _ Ha). pose proof (lookup_lt_Some _ _ _ Hb).
  destruct (decide (k = j)) as [->|Hkj].
  - apply list_lookup_insert_eq. now rewrite length_insert.
  - rewrite list_lookup_insert_ne by congruence.
    destruct (decide (k = i)) as [->|Hki].
    + now apply list_lookup_insert_eq.
    + now rewrite list_lookup_insert_ne by congruence.
Qed.

Lemma less_true heap i j :
  less comparator heap i j = true ->
  exists a b, heap !! i = Some a /\ heap !! j = Some b
              /\ (comparator a b <? 0)%Z = true.
Proof.
  unfold less. destruct (heap !! i) as [a|], (heap !! j) as [b|]; try discriminate.
  eauto.
Qed.

Lemma less_false heap i j a b :
  less comparator heap i j = false ->
  heap !! i = Some a -> heap !! j = Some b -> (comparator a b <? 0)%Z = false.
Proof. unfold less. intros H Ha Hb. now rewrite Ha, Hb in H. Qed.


(** While an item moves up from [i]: every edge but the one above [i]
    is in order, and the children of [i] are not below its parent. *)
Definition up_inv (heap : list T) (i : nat) : Prop :=
  (forall j, (0 < j)%nat -> j <> i -> less comparator heap j (parent j) = false)
  /\ (forall j, (0 < j)%nat -> parent j = i -> (0 < i)%nat ->
        less comparator heap j (parent i) = false).

Lemma less_lookup heap heap' i j :
  heap' !! i = heap !! i -> heap' !! j = heap !! j ->
  less comparator heap' i j = less comparator heap i j.
Proof. unfold less. now intros -> ->. Qed.

Lemma less_values heap i j a b :
  heap !! i = Some a -> heap !! j = Some b ->
  less comparator heap i j = (comparator a b <? 0)%Z.
Proof. unfold less. now intros -> ->. Qed.

Lemma less_out_l heap i j : heap !! i = None -> less comparator heap i j = false.
Proof. unfold less. now intros ->. Qed.

Lemma bubbleUp_from_ordered heap index :
  up_inv heap index -> ordered (bubbleUp_from comparator heap index).
Proof.
  funelim (bubbleUp_from comparator heap index);
    destruct Horders as [Hasym Htrans].
  - intros [Ha _] j Hj. apply Ha; lia.
  - intros [Ha Hb]. apply H; clear H.
    fold (parent (S i)) in *. set (p := parent (S i)) in *.
    assert (p < S i)%nat as Hp by (apply parent_lt; lia).
    apply less_true in Heq as (x & y & Hx & Hy & Hxy).
    assert (S i <> p) as Hne by lia.
    pose proof (swap_lookup heap (S i) p x y) as Hsw.
    split.
    + intros j Hj Hjp.
      destruct (decide (j = S i)) as [->|Hji].
      * fold p. erewrite less_values; [apply (Hasym _ _ Hxy) | |].
        -- rewrite Hsw by assumption. rewrite decide_False by lia.
           now rewrite decide_True.
        -- rewrite Hsw by assumption. now rewrite decide_True.
      * destruct (decide (parent j = S i)) as [Hpj|Hpj].
        -- pose proof (parent_lt j Hj).
           specialize (Hb j Hj Hpj ltac:(lia)). fold p in Hb.
           rewrite Hpj. unfold less. rewrite !Hsw by assumption.
           rewrite decide_False by lia. rewrite decide_False by lia.
           rewrite decide_False by lia. rewrite decide_True by reflexivity.
           unfold less in Hb. now rewrite Hy in Hb.
        -- destruct (decide (parent j = p)) as [Hpp|Hpp].
           ++ specialize (Ha j Hj Hji). rewrite Hpp in *.
              unfold less in *. rewrite !Hsw by assumption.
              rewrite decide_False by lia. rewrite decide_False by lia.
              rewrite decide_True by reflexivity. rewrite Hy in Ha.
              destruct (heap !! j) as [s|]; [|reflexivity].
              destruct (comparator s x <? 0)%Z eqn:E; [|reflexivity].
              pose proof (below_trans _ _ _ E Hxy). congruence.
           ++ rewrite <- (Ha j Hj Hji). apply less_lookup.
              ** rewrite Hsw by assumption. rewrite decide_False by lia.
                 now rewrite decide_False by lia.
              ** rewrite Hsw by assumption. rewrite decide_False by lia.
                 now rewrite decide_False by lia.
    + intros j Hj Hpj Hp0.
      pose proof (parent_lt p Hp0) as Hg.
      pose proof (Ha p Hp0 ltac:(lia)) as Hedge.
      unfold less in *. rewrite !Hsw by assumption.
      rewrite (decide_False (P := parent p = p)) by lia.
      rewrite (decide_False (P := parent p = S i)) by lia.
      rewrite Hy in Hedge.
      pose proof (parent_lt j Hj).
      rewrite (decide_False (P := j = p)) by lia.
      destruct (decide (j = S i)) as [->|Hji]; [exact Hedge|].
      specialize (Ha j Hj Hji). rewrite Hpj, Hy in Ha.
      destruct (heap !! j) as [s|]; [|reflexivity].
      destruct (heap !! parent p) as [g|]; [|reflexivity].
      eapply Htrans; eassumption.
  - intros [Ha _] j Hj. destruct (decide (j = S i)) as [->|Hne].
    + exact Heq.
    + now apply Ha.
Qed.


Lemma insert_ordered heap item :
  ordered heap -> ordered (insert comparator heap item).
Proof.
  intros Hord. unfold insert, bubbleUp. apply bubbleUp_from_ordered.
  rewrite length_app. cbn [length].
  replace (length heap + 1 - 1)%nat with (length heap) by lia.
  split.
  - intros j Hj Hne. pose proof (parent_lt j Hj).
    destruct (decide (j < length heap)%nat) as [Hlt|Hge].
    + rewrite <- (Hord j Hj). apply less_lookup; apply lookup_app_l; lia.
    + apply less_out_l. apply lookup_ge_None. rewrite length_app. cbn [length]. lia.
  - intros j Hj Hpj _. pose proof (parent_lt j Hj).
    apply less_out_l. apply lookup_ge_None. rewrite length_app. cbn [length]. lia.
Qed.

(** While an item moves down from [i]: every edge but those below [i]
    is in order, and the children of [i] are not below its parent. *)
Definition down_inv (heap : list T) (i : nat) : Prop :=
  (forall j, (0 < j)%nat -> parent j <> i ->
     less comparator heap j (parent j) = false)
  /\ (forall j, (0 < j)%nat -> parent j = i -> (0 < i)%nat ->
        less comparator heap j (parent i) = false).

Lemma smallestOf_cases heap i :
  let l := (2 * i + 1)%nat in
  let r := (2 * i + 2)%nat in
  (smallestOf comparator heap i = i
   /\ less comparator heap l i = false /\ less comparator heap r i = false)
  \/ (smallestOf comparator heap i = l
      /\ less comparator heap l i = true /\ less comparator heap r l = false)
  \/ (smallestOf comparator heap i = r
      /\ less comparator heap r i = true /\ less comparator heap l r = false).
Proof.
  destruct Horders as [Hasym Htrans].
  intros l r. unfold smallestOf. cbv zeta. fold l r.
  assert (forall k j, (k <=? length heap - 1)%nat = false ->
            (0 < k)%nat -> less comparator heap k j = false) as Hout.
  { intros k j Hk%Nat.leb_gt Hk0. apply less_out_l, lookup_ge_None. lia. }
  destruct (l <=? length heap - 1)%nat eqn:El; cbn [andb].
  - destruct (less comparator heap l i) eqn:Hl.
    + destruct (r <=? length heap - 1)%nat eqn:Er; cbn [andb].
      * destruct (less comparator heap r l) eqn:Hr.
        -- right. right. split; [reflexivity|].
           apply less_true in Hl as (xl & x & Hxl & Hx & Hlx).
           apply less_true in Hr as (xr & xl' & Hxr & Hxl' & Hrl).
           assert (xl' = xl) as -> by congruence.
           rewrite (less_values _ _ _ _ _ Hxr Hx), (less_values _ _ _ _ _ Hxl Hxr).
           split; [eapply below_trans; eassumption | now apply Hasym].
        -- right. left. auto.
      * right. left. repeat split; trivial. apply Hout; [assumption | subst r; lia].
    + destruct (r <=? length heap - 1)%nat eqn:Er; cbn [andb].
      * destruct (less comparator heap r i) eqn:Hr.
        -- right. right. repeat split; trivial.
           apply less_true in Hr as (xr & x & Hxr & Hx & Hrx).
           unfold less in *. rewrite Hxr. rewrite Hx in Hl.
           destruct (heap !! l) as [xl|]; [|reflexivity].
           destruct (comparator xl xr <? 0)%Z eqn:E; [|reflexivity].
           pose proof (below_trans _ _ _ E Hrx). congruence.
        -- left. auto.
      * left. repeat split; trivial. apply Hout; [assumption | subst r; lia].
  - assert ((r <=? length heap - 1)%nat = false) as ->.
    { apply Nat.leb_gt. apply Nat.leb_gt in El. subst l r. lia. }
    cbn [andb]. left. repeat split; apply Hout; trivial; subst l r; try lia.
    apply Nat.leb_gt. apply Nat.leb_gt in El. lia.
Qed.


Lemma bubbleDown_from_ordered heap index :
  down_inv heap index -> ordered (bubbleDown_from comparator heap index).
Proof.
  funelim (bubbleDown_from comparator heap index);
    destruct Horders as [Hasym Htrans];
    repeat match goal with
           | E : sigmaI _ _ _ = sigmaI _ _ _ |- _ => clear E
           end.
  - intros [Ha Hb] j Hj.
    match goal with E : (_ =? _)%nat = true |- _ => apply Nat.eqb_eq in E; rename E into Hs end.
    destruct (decide (parent j = index)) as [Hpj|Hpj]; [|now apply Ha].
    rewrite Hpj.
    destruct (smallestOf_cases heap index) as [(_ & Hl & Hr) | [(E & _) | (E & _)]];
      [|lia..].
    apply parent_child in Hpj as [-> | ->]; assumption.
  - intros [Ha Hb].
    match goal with E : (_ =? _)%nat = false |- _ => apply Nat.eqb_neq in E; rename E into Hs end.
    match goal with IH : _ -> ordered _ |- _ => apply IH; clear IH end.
    set (m := smallestOf comparator heap index) in *.
    assert (exists s, (m = 2 * index + 1 /\ s = 2 * index + 2
                       \/ m = 2 * index + 2 /\ s = 2 * index + 1)%nat
                      /\ less comparator heap m index = true
                      /\ less comparator heap s m = false) as (s & Hms & Hm & Hsib).
    { destruct (smallestOf_cases heap index) as [(E & _) | [(E & Hl & Hr) | (E & Hl & Hr)]];
        fold m in E; [contradiction | |].
      - exists (2 * index + 2)%nat. rewrite E. auto.
      - exists (2 * index + 1)%nat. rewrite E. auto. }
    apply less_true in Hm as (xm & x & Hxm & Hx & Hlt).
    assert (index < m)%nat as Him by lia.
    pose proof (swap_lookup heap index m x xm) as Hsw.
    assert (parent m = index) as Hpm by (apply parent_child; lia).
    split.
    + intros j Hj Hpj. pose proof (parent_lt j Hj).
      destruct (decide (j = m)) as [->|Hjm].
      * rewrite Hpm. erewrite less_values; [apply (Hasym _ _ Hlt) | |].
        -- rewrite Hsw by (trivial; lia). now rewrite decide_True.
        -- rewrite Hsw by (trivial; lia). rewrite decide_False by lia.
           now rewrite decide_True.
      * destruct (decide (parent j = index)) as [Hpi|Hpi].
        -- assert (j = s) as -> by (apply parent_child in Hpi; lia).
           rewrite Hpi. unfold less in *. rewrite !Hsw by (trivial; lia).
           rewrite (decide_False (P := s = m)) by lia.
           rewrite (decide_False (P := s = index)) by lia.
           rewrite (decide_False (P := index = m)) by lia.
           rewrite (decide_True (P := index = index)) by reflexivity.
           now rewrite Hxm in Hsib.
        -- destruct (decide (j = index)) as [->|Hji].
           ++ specialize (Hb m ltac:(lia) Hpm Hj).
              unfold less in *. rewrite !Hsw by (trivial; lia).
              rewrite (decide_False (P := index = m)) by lia.
              rewrite (decide_True (P := index = index)) by reflexivity.
              rewrite (decide_False (P := parent index = m)) by lia.
              rewrite (decide_False (P := parent index = index)) by lia.
              now rewrite Hxm in Hb.
           ++ rewrite <- (Ha j Hj Hpi). apply less_lookup.
              ** rewrite Hsw by (trivial; lia). rewrite decide_False by lia.
                 now rewrite decide_False by lia.
              ** rewrite Hsw by (trivial; lia). rewrite decide_False by lia.
                 now rewrite decide_False by lia.
    + intros j Hj Hpj _. pose proof (parent_lt j Hj).
      rewrite Hpm.
      assert (parent j <> index) as Hpi by lia.
      specialize (Ha j Hj Hpi). rewrite Hpj in Ha.
      unfold less in *. rewrite !Hsw by (trivial; lia).
      rewrite (decide_False (P := j = m)) by lia.
      rewrite (decide_False (P := j = index)) by lia.
      rewrite (decide_False (P := index = m)) by lia.
      rewrite (decide_True (P := index = index)) by reflexivity.
      now rewrite Hxm in Ha.
Qed.

Lemma extractMin_ordered heap :
  ordered heap -> ordered (extractMin comparator heap).2.
Proof.
  intros Hord. destruct heap as [|a [|b tl]].
  - intros j Hj. reflexivity.
  - intros j Hj. reflexivity.
  - unfold extractMin, bubbleDown. cbn [snd]. apply bubbleDown_from_ordered.
    split; [|intros; lia].
    intros j Hj Hpj. pose proof (parent_lt j Hj).
    set (heap := a :: b :: tl) in *.
    destruct (decide (j < length heap - 1)%nat) as [Hlt|Hge].
    + rewrite <- (Hord j Hj). apply less_lookup.
      * rewrite list_lookup_insert_ne by lia.
        rewrite removelast_firstn_len. apply lookup_take_lt. lia.
      * rewrite list_lookup_insert_ne by lia.
        rewrite removelast_firstn_len. apply lookup_take_lt. lia.
    + apply less_out_l, lookup_ge_None. rewrite length_insert.
      rewrite removelast_firstn_len, length_take. lia.
Qed.

(** In an ordered heap no item is below the root. *)
Lemma root_least heap m :
  ordered heap -> heap !! 0%nat = Some m ->
  forall x, x ∈ heap -> (comparator x m <? 0)%Z = false.
Proof.
  destruct Horders as [Hasym Htrans].
  intros Hord Hm x [i Hi]%list_elem_of_lookup. revert x Hi.
  induction i as [i IH] using lt_wf_ind. intros x Hi.
  destruct i as [|i].
  - assert (x = m) as -> by congruence.
    destruct (comparator m m <? 0)%Z eqn:E; [|reflexivity].
    now rewrite (Hasym _ _ E) in E.
  - pose proof (parent_lt (S i) ltac:(lia)) as Hp.
    pose proof (lookup_lt_Some _ _ _ Hi).
    destruct (lookup_lt_is_Some_2 heap (parent (S i)) ltac:(lia)) as [y Hy].
    pose proof (less_false _ _ _ _ _ (Hord (S i) ltac:(lia)) Hi Hy).
    eapply Htrans; [exact (IH _ Hp y Hy) | assumption].
Qed.


(** A test of heap order that runs. *)
Definition orderedb (heap : list T) : bool :=
  forallb (fun j => negb (less comparator heap j (parent j)))
          (seq 1 (length heap - 1)).

Lemma orderedb_ordered heap : orderedb heap = true -> ordered heap.
Proof.
  unfold orderedb. rewrite forallb_forall. intros Hall j Hj.
  destruct (decide (j < length heap)%nat) as [Hlt|Hge].
  - apply negb_true_iff, Hall, in_seq. lia.
  - apply less_out_l, lookup_ge_None. lia.
Qed.

(** X11. [insert] keeps heap order, adds exactly the new item and makes the
    heap one longer. *)
Theorem minheap_insert_keeps_order (heap : list T) (item : T) :
  ordered heap ->
  ordered (insert comparator heap item)
  /\ insert comparator heap item ≡ₚ item :: heap
  /\ size (insert comparator heap item) = S (size heap).
Proof.
  intros Hord. split; [now apply insert_ordered|]. split.
  - apply insert_heap_Permutation.
  - apply length_insert_heap.
Qed.

(** X12. On a non-empty heap in heap order, [extractMin] returns the item
    [peekMin] shows, which no item of the heap compares below; it removes
    exactly that item and leaves the rest in heap order. *)
Theorem minheap_extractMin_takes_least (heap : list T) :
  ordered heap -> heap <> [] ->
  exists min rest,
    extractMin comparator heap = (Some min, rest)
    /\ peekMin heap = Some min
    /\ heap ≡ₚ min :: rest
    /\ ordered rest
    /\ forall x, x ∈ heap -> (comparator x min <? 0)%Z = false.
Proof.
  intros Hord Hne.
  destruct (extractMin_Permutation comparator heap Hne) as (min & rest & E & Hperm).
  exists min, rest.
  assert (peekMin heap = Some min) as Hpeek.
  { destruct heap as [|a [|b tl]]; [congruence | |];
      unfold extractMin in E; now injection E as <- _. }
  repeat split; trivial.
  - pose proof (extractMin_ordered heap Hord) as Ho. now rewrite E in Ho.
  - now apply root_least.
Qed.

End MinHeap_order.

(** The comparator of [buildHuffmanTree] orders the nodes. *)
Lemma byFreq_orders : orders Huffman.byFreq.
Proof.
  unfold Huffman.byFreq. split.
  - intros a b H%Z.ltb_lt. apply Z.ltb_ge. lia.
  - intros a b c H1%Z.ltb_ge H2%Z.ltb_ge. apply Z.ltb_ge. lia.
Qed.

Definition three_leaves : list Huffman.HuffmanNode :=
  [Huffman.Node (Some (str "a")) 1 None None;
   Huffman.Node (Some (str "b")) 3 None None;
   Huffman.Node (Some (str "c")) 2 None None].

Lemma minheap_insert_keeps_order_witness :
  ordered Huffman.byFreq three_leaves
  /\ ordered Huffman.byFreq
       (MinHeap.insert Huffman.byFreq three_leaves
          (Huffman.Node (Some (str "d")) 0 None None)).
Proof.
  split; [apply orderedb_ordered; reflexivity|].
  apply (minheap_insert_keeps_order Huffman.byFreq byFreq_orders three_leaves).
  apply orderedb_ordered. reflexivity.
Defined.

Lemma minheap_extractMin_takes_least_witness :
  ordered Huffman.byFreq three_leaves
  /\ exists min rest,
       MinHeap.extractMin Huffman.byFreq three_leaves = (Some min, rest)
       /\ MinHeap.peekMin three_leaves = Some min
       /\ three_leaves ≡ₚ min :: rest
       /\ ordered Huffman.byFreq rest
       /\ forall x, x ∈ three_leaves -> (Huffman.byFreq x min <? 0)%Z = false.
Proof.
  split; [apply orderedb_ordered; reflexivity|].
  apply (minheap_extractMin_takes_least Huffman.byFreq byFreq_orders three_leaves).
  - apply orderedb_ordered. reflexivity.
  - discriminate.
Defined.

(** ** Huffman: the frequency map *)

Lemma mapGet_mapSet {V} (m : list (jsstring * V)) k v k' :
  Huffman.mapGet (Huffman.mapSet m k v) k'
  = if decide (k = k') then Some v else Huffman.mapGet m k'.
Proof.
  induction m as [|[j w] m IH]; cbn [Huffman.mapSet Huffman.mapGet].
  - destruct (decide (k = k')); reflexivity.
  - destruct (decide (j = k)) as [->|Hjk]; cbn [Huffman.mapGet].
    + destruct (decide (k = k')); reflexivity.
    + rewrite IH. destruct (decide (j = k')) as [->|Hjk'].
      * now rewrite decide_False by congruence.
      * reflexivity.
Qed.

Lemma mapGet_foldl_countChar ch cs : forall m,
  Huffman.mapGet (foldl countChar m cs) ch
  = match length (filter (fun x => x = ch) cs) with
    | O => Huffman.mapGet m ch
    | S n => Some (default 0 (Huffman.mapGet m ch) + N.of_nat (S n))
    end.
Proof.
  induction cs as [|c cs IH]; intros m; cbn [foldl]; [reflexivity|].
  rewrite IH. unfold countChar. rewrite !mapGet_mapSet.
  rewrite filter_cons. destruct (decide (c = ch)) as [->|Hne].
  - cbn [length default from_option].
    unfold id. destruct (length (filter (fun x => x = ch) cs)); f_equal; lia.
  - reflexivity.
Qed.

Lemma total_mapSet m k v :
  total (Huffman.mapSet m k v) + default 0 (Huffman.mapGet m k) = total m + v.
Proof.
  induction m as [|[j w] m IH]; cbn [Huffman.mapSet Huffman.mapGet].
  - unfold total. simpl. lia.
  - destruct (decide (j = k)) as [->|Hne].
    + unfold total. simpl. unfold id. lia.
    + unfold total in *. simpl in *. lia.
Qed.

Lemma total_foldl_countChar cs : forall m,
  total (foldl countChar m cs) = total m + N.of_nat (length cs).
Proof.
  induction cs as [|c cs IH]; intros m; cbn [foldl length]; [lia|].
  rewrite IH. unfold countChar.
  pose proof (total_mapSet m c (default 0 (Huffman.mapGet m c) + 1)). lia.
Qed.

(** X13. [buildFrequencyMap] has one entry for each distinct character of the
    text, holding the number of times the iterator gives it; the
    frequencies add up to the number of characters. *)
Theorem huffman_frequency_map_counts (text : jsstring) :
  NoDup (Huffman.buildFrequencyMap text).*1
  /\ (forall ch,
        Huffman.mapGet (Huffman.buildFrequencyMap text) ch
        = if decide (ch ∈ chars text)
          then Some (N.of_nat (occurrences ch text)) else None)
  /\ total (Huffman.buildFrequencyMap text) = N.of_nat (length (chars text)).
Proof.
  split; [apply buildFrequencyMap_NoDup|]. split.
  - intros ch. change (Huffman.buildFrequencyMap text) with (foldl countChar [] (chars text)).
    rewrite mapGet_foldl_countChar. unfold occurrences. cbn [Huffman.mapGet].
    destruct (decide (ch ∈ chars text)) as [Hin|Hout].
    + destruct (filter (fun x => x = ch) (chars text)) as [|y l] eqn:E.
      * exfalso. apply (not_elem_of_nil ch). rewrite <- E.
        apply list_elem_of_filter. auto.
      * cbn [length default from_option]. f_equal.
    + destruct (filter (fun x => x = ch) (chars text)) as [|y l] eqn:E; [reflexivity|].
      exfalso. apply Hout.
      assert (y ∈ filter (fun x => x = ch) (chars text)) as Hy by (rewrite E; constructor).
      apply list_elem_of_filter in Hy as [-> Hy]. exact Hy.
  - change (Huffman.buildFrequencyMap text) with (foldl countChar [] (chars text)).
    rewrite total_foldl_countChar. reflexivity.
Qed.

(** ** Huffman: the tree that [buildHuffmanTree] returns *)

Lemma merged_wf t : merged t -> wf_tree t.
Proof. induction 1; now constructor. Qed.

Lemma total_app m1 m2 : total (m1 ++ m2) = total m1 + total m2.
Proof.
  unfold total. induction m1 as [|e m1 IH]; simpl; [reflexivity|].
  simpl in IH. lia.
Qed.

Lemma total_Permutation m1 m2 : m1 ≡ₚ m2 -> total m1 = total m2.
Proof.
  unfold total. induction 1; simpl in *; lia.
Qed.

Lemma merged_freq t : merged t -> Huffman.freq t = total (leafEntries t).
Proof.
  induction 1 as [c f | l r Hl IHl Hr IHr Hle].
  - unfold total. simpl. lia.
  - cbn [Huffman.freq leafEntries]. rewrite total_app. lia.
Qed.

Lemma leafEntries_keys t : wf_tree t -> (leafEntries t).*1 = leaves t.
Proof.
  induction 1 as [c f | f l r Hl IHl Hr IHr]; [reflexivity|].
  cbn [leafEntries leaves]. now rewrite fmap_app, IHl, IHr.
Qed.

Lemma extractMin_least heap min rest :
  ordered Huffman.byFreq heap ->
  MinHeap.extractMin Huffman.byFreq heap = (Some min, rest) ->
  ordered Huffman.byFreq rest
  /\ forall x, x ∈ heap -> Huffman.freq min <= Huffman.freq x.
Proof.
  intros Hord E. split.
  - pose proof (extractMin_ordered Huffman.byFreq byFreq_orders heap Hord) as Ho.
    now rewrite E in Ho.
  - intros x Hx.
    assert (heap !! 0%nat = Some min) as H0.
    { destruct heap as [|a [|b tl]]; [discriminate | |];
        unfold MinHeap.extractMin in E; now injection E as <- _. }
    pose proof (root_least Huffman.byFreq byFreq_orders heap min Hord H0 x Hx) as Hl.
    apply Z.ltb_ge in Hl. unfold Huffman.byFreq in Hl. lia.
Qed.

Lemma concat_leafEntries_Permutation (h1 h2 : list Huffman.HuffmanNode) :
  h1 ≡ₚ h2 -> concat (leafEntries <$> h1) ≡ₚ concat (leafEntries <$> h2).
Proof. intros Hp. now rewrite Hp. Qed.

Lemma mergeLoop_merged heap :
  Forall merged heap -> ordered Huffman.byFreq heap -> heap <> [] ->
  exists t,
    Huffman.mergeLoop heap = Ok [t] /\ merged t
    /\ leafEntries t ≡ₚ concat (leafEntries <$> heap).
Proof.
  funelim (Huffman.mergeLoop heap); intros Hm Hord Hne; clear Heqcall;
    repeat match goal with
           | H : sigmaI _ _ _ = sigmaI _ _ _ |- _ => clear H
           end.
  - match goal with E : (1 <? _)%nat = false |- _ => apply Nat.ltb_ge in E end.
    destruct minHeap as [|t [|u h]]; [congruence | | simpl in *; lia].
    exists t. split; [reflexivity|]. split; [now inversion Hm|].
    cbn [fmap list_fmap concat]. now rewrite app_nil_r.
  - destruct (extractMin_Permutation Huffman.byFreq minHeap Hne) as (m1 & r1 & X1 & P1).
    congruence.
  - destruct (extract_two _ _ _ _ _ Hsize E1 E2) as [P1 P2].
    destruct (extractMin_least _ _ _ Hord E1) as [Hord1 Hleast1].
    destruct (extractMin_least _ _ _ Hord1 E2) as [Hord2 _].
    assert (Huffman.freq left <= Huffman.freq right) as Hle.
    { apply Hleast1. rewrite P1. right. rewrite P2. left. }
    pose proof Hm as Hm'.
    rewrite P1 in Hm'. apply list.Forall_cons in Hm' as [Hleft Hm'].
    rewrite P2 in Hm'. apply list.Forall_cons in Hm' as [Hright Hm'].
    match goal with
    | IH : Forall merged (MinHeap.insert _ _ ?parentNode) -> _ |- _ =>
        destruct IH as (t & Ht & Hmt & Hperm);
        [ rewrite insert_heap_Permutation;
          constructor; [now constructor | assumption]
        | now apply insert_ordered; [apply byFreq_orders|]
        | intros E; apply (f_equal length) in E;
          rewrite MinHeap.length_insert_heap in E; discriminate
        | ];
        exists t; split; [exact Ht|]; split; [exact Hmt|];
        rewrite Hperm;
        rewrite (concat_leafEntries_Permutation _ _
                   (insert_heap_Permutation Huffman.byFreq h2 parentNode));
        rewrite (concat_leafEntries_Permutation _ _ P1);
        cbn [fmap list_fmap concat];
        rewrite (concat_leafEntries_Permutation _ _ P2);
        cbn [fmap list_fmap concat leafEntries];
        now rewrite <- app_assoc
    end.
  - match goal with
    | E1 : MinHeap.extractMin _ minHeap = (Some ?a, ?h1),
      E2 : MinHeap.extractMin _ ?h1 = (None, _) |- _ =>
        destruct (extractMin_Permutation Huffman.byFreq minHeap Hne) as (m1 & r1 & X1 & P1);
        rewrite X1 in E1; injection E1 as <- <-;
        assert (r1 <> []) as Hne1
          by (apply Nat.ltb_lt in Hsize; apply Permutation_length in P1;
              destruct r1; simpl in *; [lia | discriminate]);
        destruct (extractMin_Permutation Huffman.byFreq r1 Hne1) as (m2 & r2 & X2 & P2);
        congruence
    end.
Qed.

Lemma foldl_insertLeaf_ordered freqMap : forall heap,
  ordered Huffman.byFreq heap ->
  ordered Huffman.byFreq (foldl insertLeaf heap freqMap).
Proof.
  induction freqMap as [|[c f] m IH]; intros heap Hord; cbn [foldl]; [assumption|].
  apply IH. unfold insertLeaf. now apply insert_ordered; [apply byFreq_orders|].
Qed.

Lemma concat_leafEntries_leafOf freqMap :
  concat (leafEntries <$> (leafOf <$> freqMap)) = freqMap.
Proof.
  induction freqMap as [|[c f] m IH]; [reflexivity|].
  cbn [fmap list_fmap concat leafOf leafEntries fst snd app]. f_equal. exact IH.
Qed.

Lemma buildHuffmanTree_merged (freqMap : list (jsstring * N)) :
  freqMap <> [] ->
  exists t,
    Huffman.buildHuffmanTree freqMap = Ok (Some t)
    /\ merged t
    /\ leafEntries t ≡ₚ freqMap
    /\ Huffman.freq t = total freqMap.
Proof.
  intros Hfm. unfold Huffman.buildHuffmanTree.
  change (foldl _ [] freqMap) with (foldl insertLeaf [] freqMap).
  pose proof (foldl_insertLeaf freqMap []) as P. rewrite app_nil_r in P.
  assert (ordered Huffman.byFreq (foldl insertLeaf [] freqMap)) as Hord.
  { apply foldl_insertLeaf_ordered. intros j Hj. reflexivity. }
  set (minHeap := foldl insertLeaf [] freqMap) in *.
  assert (length minHeap = length freqMap) as Hl by now rewrite P, length_fmap.
  assert (Forall merged minHeap) as Hm.
  { rewrite P. apply Forall_fmap, Forall_forall. intros [c f] _. constructor. }
  assert (minHeap <> []) as Hne.
  { intros E. rewrite E in Hl. destruct freqMap; [congruence | discriminate]. }
  assert (concat (leafEntries <$> minHeap) ≡ₚ freqMap) as Hent.
  { rewrite (concat_leafEntries_Permutation _ _ P).
    now rewrite concat_leafEntries_leafOf. }
  assert (forall t, merged t -> leafEntries t ≡ₚ freqMap ->
            merged t /\ leafEntries t ≡ₚ freqMap
            /\ Huffman.freq t = total freqMap) as Hfin.
  { intros t Ht Hp. repeat split; trivial.
    rewrite (merged_freq t Ht). now apply total_Permutation. }
  cbv zeta. destruct (Nat.eqb_spec (length minHeap) 1) as [H1|H1].
  - destruct minHeap as [|t [|u h]]; try discriminate.
    exists t. split; [reflexivity|]. apply Hfin.
    + now inversion Hm.
    + rewrite <- Hent. cbn [fmap list_fmap concat]. now rewrite app_nil_r.
  - destruct (mergeLoop_merged minHeap Hm Hord Hne) as (t & Ht & Hmt & Hp).
    exists t. rewrite Ht. split; [reflexivity|]. apply Hfin; [assumption|].
    now rewrite Hp.
Qed.

(** X14. [buildHuffmanTree] returns [null] for the empty map and otherwise a
    tree whose leaves are the entries of the map, each once; every
    parent carries the sum of its two children, the left child is never
    more frequent than the right one, and the root carries the sum of
    all frequencies. The extractions in the loop never come back
    [undefined]. *)
Theorem huffman_tree_of_frequency_map (freqMap : list (jsstring * N)) :
  match freqMap with
  | [] => Huffman.buildHuffmanTree freqMap = Ok None
  | _ :: _ =>
      exists t,
        Huffman.buildHuffmanTree freqMap = Ok (Some t)
        /\ merged t
        /\ leafEntries t ≡ₚ freqMap
        /\ Huffman.freq t = total freqMap
  end.
Proof.
  destruct freqMap as [|e0 m0]; [reflexivity|].
  now apply buildHuffmanTree_merged.
Qed.

(** ** Huffman: the codes *)

Lemma hasCode_prefix t p1 c1 :
  hasCode t p1 c1 -> forall q c2, hasCode t (p1 ++ q) c2 -> q = [] /\ c1 = c2.
Proof.
  induction 1 as [c f | f l r p c Hp IH | f l r p c Hp IH]; intros q c2 H2.
  - inversion H2; subst. auto.
  - inversion H2; subst. eauto.
  - inversion H2; subst. eauto.
Qed.

Lemma hasCode_leaves t p c : hasCode t p c -> c ∈ leaves t.
Proof.
  induction 1 as [c f | f l r p c Hp IH | f l r p c Hp IH];
    cbn [leaves]; [constructor | |]; apply elem_of_app; auto.
Qed.

(** The tree and the codes of a text of two or more distinct
    characters. *)
Lemma encoding_of_text (text : jsstring) :
  (2 <= length (Huffman.buildFrequencyMap text))%nat ->
  exists t,
    Huffman.buildHuffmanTree (Huffman.buildFrequencyMap text) = Ok (Some t)
    /\ wf_tree t /\ Huffman.isLeaf t = false
    /\ (forall k, k ∈ leaves t <-> k ∈ chars text)
    /\ (forall ch code, Huffman.buildEncodingMap (Some t) !! ch = Some code ->
          hasCode t code ch)
    /\ (forall ch, ch ∈ chars text ->
          exists code, hasCode t code ch
                       /\ Huffman.buildEncodingMap (Some t) !! ch = Some code).
Proof.
  intros Hlen.
  pose proof (buildHuffmanTree_merged (Huffman.buildFrequencyMap text)) as Htree.
  pose proof (buildFrequencyMap_NoDup text) as Hnd.
  pose proof (buildFrequencyMap_keys text) as Hkeys.
  destruct (Huffman.buildFrequencyMap text) as [|e1 [|e2 m2]];
    try (simpl in Hlen; lia).
  destruct Htree as (t & Ht & Hmt & Hperm & _); [discriminate|].
  pose proof (merged_wf t Hmt) as Hwf.
  assert (forall k, k ∈ leaves t <-> k ∈ chars text) as Hleaves.
  { intros k. rewrite <- Hkeys, <- (leafEntries_keys t Hwf). now rewrite Hperm. }
  assert (Huffman.isLeaf t = false) as Hroot.
  { apply (two_leaves_internal t e1.1 e2.1 Hwf).
    - apply Hleaves, Hkeys. simpl. constructor.
    - apply Hleaves, Hkeys. simpl. constructor. constructor.
    - simpl in Hnd. inversion Hnd as [|? ? Hk1 _]. subst.
      intros E. apply Hk1. rewrite E. constructor. }
  exists t. repeat split; trivial; try apply Hleaves.
  - intros ch code E. cbn [Huffman.buildEncodingMap] in E.
    destruct (traverse_spec t Hwf [] ∅ ch (or_intror Hroot)) as [Hin Hout].
    destruct (decide (ch ∈ leaves t)) as [Hl|Hl].
    + destruct (Hin Hl) as (p & Hp & E'). rewrite E' in E. now injection E as <-.
    + rewrite (Hout Hl), lookup_empty in E. discriminate.
  - intros ch Hch%Hleaves.
    destruct (traverse_spec t Hwf [] ∅ ch (or_intror Hroot)) as [Hin _].
    destruct (Hin Hch) as (p & Hp & E). exists p. auto.
Qed.

(** X15. For a text of two or more distinct characters, the encoding map has
    a code for exactly the characters of the text; each code is a
    non-empty string of 0 and 1 that leads from the root to the leaf of
    its character, and no code is a prefix of the code of another
    character. *)
Theorem huffman_codes_prefix_free (text : jsstring) :
  (2 <= length (Huffman.buildFrequencyMap text))%nat ->
  exists t,
    Huffman.buildHuffmanTree (Huffman.buildFrequencyMap text) = Ok (Some t)
    /\ (forall ch, is_Some (Huffman.buildEncodingMap (Some t) !! ch)
                   <-> ch ∈ chars text)
    /\ (forall ch code, Huffman.buildEncodingMap (Some t) !! ch = Some code ->
          hasCode t code ch /\ code <> [] /\ Forall isBit code)
    /\ (forall ch1 ch2 code1 code2,
          Huffman.buildEncodingMap (Some t) !! ch1 = Some code1 ->
          Huffman.buildEncodingMap (Some t) !! ch2 = Some code2 ->
          code1 `prefix_of` code2 -> ch1 = ch2).
Proof.
  intros Hlen.
  destruct (encoding_of_text text Hlen) as (t & Ht & Hwf & Hroot & Hleaves & Hcode & Hin).
  exists t. split; [exact Ht|]. split; [|split].
  - intros ch. split.
    + intros [code E]. eapply Hleaves, hasCode_leaves, Hcode, E.
    + intros Hch. destruct (Hin ch Hch) as (p & _ & E). eauto.
  - intros ch code E. pose proof (Hcode ch code E) as Hp.
    split; [assumption|]. split.
    + eapply hasCode_internal; eassumption.
    + eapply hasCode_bits; eassumption.
  - intros ch1 ch2 code1 code2 E1 E2 [q ->].
    now destruct (hasCode_prefix t code1 ch1 (Hcode _ _ E1) q ch2 (Hcode _ _ E2)).
Qed.

(** ** Huffman: what [compress] returns *)

Lemma distinct_characters text :
  text <> [] ->
  (exists ch n, chars text = replicate (S n) ch)
  \/ (2 <= length (Huffman.buildFrequencyMap text))%nat.
Proof.
  intros Hne.
  destruct (decide (2 <= length (Huffman.buildFrequencyMap text))%nat) as [Hlen|Hlen];
    [now right | left].
  pose proof (buildFrequencyMap_keys text) as Hkeys.
  pose proof (chars_not_empty text Hne) as Hcs.
  destruct (Huffman.buildFrequencyMap text) as [|[ch v] [|e m]];
    [ | | simpl in Hlen; lia].
  - destruct (chars text) as [|x cs]; [congruence|].
    exfalso. apply (not_elem_of_nil x). apply Hkeys. constructor.
  - assert (forall y, y ∈ chars text -> y = ch) as Hall.
    { intros y Hy%Hkeys. simpl in Hy. now apply list_elem_of_singleton in Hy. }
    pose proof (all_equal_replicate ch _ Hall) as Hrep.
    destruct (chars text) as [|x cs]; [congruence|].
    exists ch, (length cs). exact Hrep.
Qed.

Lemma compress_general `{Huffman.JSON} text t :
  (2 <= length (Huffman.buildFrequencyMap text))%nat ->
  Huffman.buildHuffmanTree (Huffman.buildFrequencyMap text) = Ok (Some t) ->
  Huffman.compress text
  = Ok (Huffman.CompressionResult
          (Huffman.encode (Huffman.buildEncodingMap (Some t)) text)
          (Huffman.JSON_stringify t) None).
Proof.
  intros Hlen Ht. unfold Huffman.compress.
  destruct text as [|c0 text']; [simpl in Hlen; lia|].
  cbn [isEmpty]. cbv zeta. rewrite Ht. cbn [bind].
  destruct (Huffman.buildFrequencyMap (c0 :: text')) as [|e1 [|e2 m]];
    simpl in Hlen; try lia; destruct e1; reflexivity.
Qed.

Lemma compress_returns_bits `{Huffman.JSON} (text : jsstring) :
  text <> [] ->
  exists r t,
    Huffman.compress text = Ok r
    /\ Forall isBit (Huffman.compressed r) /\ Huffman.compressed r <> []
    /\ Huffman.tree r = Huffman.JSON_stringify t
    /\ (forall ch, ch ∈ leaves t <-> ch ∈ chars text)
    /\ Huffman.freq t = N.of_nat (length (chars text)).
Proof.
  intros Hne. destruct (distinct_characters text Hne) as [(ch & n & E) | Hlen].
  - eexists. exists (Huffman.Node (Some ch) (N.of_nat (S n)) None None).
    split; [apply (compress_single text ch n E)|].
    cbn [Huffman.compressed Huffman.tree Huffman.freq leaves].
    change (str "0") with [48]. rewrite repeat_str_unit.
    repeat split.
    + apply Forall_replicate. now left.
    + destruct text; [congruence | discriminate].
    + intros ->%list_elem_of_singleton. rewrite E. constructor.
    + rewrite E. intros [-> _]%elem_of_replicate. constructor.
    + now rewrite E, length_replicate.
  - destruct (encoding_of_text text Hlen)
      as (t & Ht & Hwf & Hroot & Hleaves & Hcode & Hin).
    eexists. exists t. split; [apply (compress_general text t Hlen Ht)|].
    cbn [Huffman.compressed Huffman.tree]. rewrite encode_concat.
    repeat split; try apply Hleaves.
    + eapply codes_are_bits. exact Hin.
    + pose proof (chars_not_empty text Hne) as Hcs.
      destruct (chars text) as [|ch cs]; [congruence|].
      destruct (Hin ch) as (p & Hp & E); [constructor|].
      cbn [fmap list_fmap concat]. unfold codeIn at 1. rewrite E.
      cbn [default from_option].
      pose proof (hasCode_internal _ _ _ Hp Hroot).
      destruct p; [congruence | discriminate].
    + destruct (buildHuffmanTree_merged (Huffman.buildFrequencyMap text))
        as (t' & Ht' & _ & _ & Hfreq).
      { intros E. rewrite E in Hlen. simpl in Hlen. lia. }
      assert (t' = t) as -> by congruence.
      rewrite Hfreq.
      change (Huffman.buildFrequencyMap text) with (foldl countChar [] (chars text)).
      now rewrite total_foldl_countChar.
Qed.

(** X16. On a non-empty text Huffman [compress] does not throw: its
    payload is a non-empty string of 0 and 1, and its tree string is
    [JSON.stringify] of a tree whose leaves are the characters of the
    text and whose root carries the number of characters. *)
Theorem huffman_compress_returns_bits `{Huffman.JSON} (text : jsstring) :
  text <> [] ->
  exists r t,
    Huffman.compress text = Ok r
    /\ Forall isBit (Huffman.compressed r) /\ Huffman.compressed r <> []
    /\ Huffman.tree r = Huffman.JSON_stringify t
    /\ (forall ch, ch ∈ leaves t <-> ch ∈ chars text)
    /\ Huffman.freq t = N.of_nat (length (chars text)).
Proof. apply compress_returns_bits. Qed.

Lemma huffman_compress_returns_bits_witness :
  exists r t,
    Huffman.compress (H := Reference.nodeJSON) (str "abracadabra") = Ok r
    /\ Forall isBit (Huffman.compressed r) /\ Huffman.compressed r <> []
    /\ Huffman.tree r = Huffman.JSON_stringify (JSON := Reference.nodeJSON) t
    /\ (forall ch, ch ∈ leaves t <-> ch ∈ chars (str "abracadabra"))
    /\ Huffman.freq t = N.of_nat (length (chars (str "abracadabra"))).
Proof.
  apply (huffman_compress_returns_bits (H := Reference.nodeJSON)).
  discriminate.
Defined.

Lemma huffman_codes_prefix_free_witness :
  exists t,
    Huffman.buildHuffmanTree (Huffman.buildFrequencyMap (str "abracadabra"))
    = Ok (Some t)
    /\ (forall ch, is_Some (Huffman.buildEncodingMap (Some t) !! ch)
                   <-> ch ∈ chars (str "abracadabra"))
    /\ (forall ch code, Huffman.buildEncodingMap (Some t) !! ch = Some code ->
          hasCode t code ch /\ code <> [] /\ Forall isBit code)
    /\ (forall ch1 ch2 code1 code2,
          Huffman.buildEncodingMap (Some t) !! ch1 = Some code1 ->
          Huffman.buildEncodingMap (Some t) !! ch2 = Some code2 ->
          code1 `prefix_of` code2 -> ch1 = ch2).
Proof.
  apply (huffman_codes_prefix_free (str "abracadabra")).
  vm_compute. lia.
Defined.

(** ** Huffman: one distinct character *)

(** X24. A text whose characters are all the same character compresses
    to a tree that is a single leaf with that character and the number
    of characters, and to as many [0]s as the text has UTF-16 code
    units; decompressing with a single-leaf tree repeats the leaf's
    character once for each code unit of the compressed string;
    ["zzzz"] gives four [0]s and comes back. *)
Theorem huffman_single_character `{Huffman.JSON} :
  JSON_faithful ->
  (forall text ch n,
     chars text = replicate (S n) ch ->
     exists r,
       Huffman.compress text = Ok r
       /\ Huffman.tree r
          = Huffman.JSON_stringify
              (Huffman.Node (Some ch) (N.of_nat (S n)) None None)
       /\ Huffman.compressed r = repeat_str (str "0") (length text)
       /\ length (Huffman.compressed r) = length text)
  /\ (forall compressed treeStr ch f,
        treeStr <> [] ->
        Huffman.JSON_parse treeStr = Ok (Huffman.Node (Some ch) f None None) ->
        Huffman.decompress compressed treeStr
        = Ok (repeat_str ch (length compressed)))
  /\ (exists r,
        Huffman.compress (str "zzzz") = Ok r
        /\ Huffman.tree r
           = Huffman.JSON_stringify (Huffman.Node (Some (str "z")) 4 None None)
        /\ length (Huffman.compressed r) = 4%nat
        /\ Huffman.decompress (Huffman.compressed r) (Huffman.tree r)
           = Ok (str "zzzz")).
Proof.
  intros HJ. split; [|split].
  - intros text ch n E. eexists. split; [apply (compress_single text ch n E)|].
    cbn [Huffman.tree Huffman.compressed]. repeat split.
    change (str "0") with [48]. apply length_repeat_unit.
  - intros compressed treeStr ch f Hne Hparse.
    now apply decompress_leaf with f.
  - eexists. split; [apply (compress_single (str "zzzz") (str "z") 3 eq_refl)|].
    cbn [Huffman.tree Huffman.compressed]. repeat split.
    destruct (HJ (Huffman.Node (Some (str "z")) 4 None None)).
    now rewrite (decompress_leaf _ _ (str "z") 4).
Qed.

Lemma huffman_single_character_witness :
  exists r,
    Huffman.compress (H := Reference.nodeJSON) (str "zzzz") = Ok r
    /\ Huffman.tree r
       = Reference.stringify (Huffman.Node (Some (str "z")) 4 None None)
    /\ length (Huffman.compressed r) = 4%nat
    /\ Huffman.decompress (H := Reference.nodeJSON)
         (Huffman.compressed r) (Huffman.tree r)
       = Ok (str "zzzz").
Proof.
  exact (proj2 (proj2 (huffman_single_character (H := Reference.nodeJSON)
                         nodeJSON_faithful))).
Defined.

(** ** Huffman: bits that end inside a code *)

(** X17. When the bits run out, [decompress] returns what it has decoded,
    wherever in the tree it stands: bits that end inside a code are
    dropped without an error. *)
Theorem huffman_decompress_drops_incomplete_code `{Huffman.JSON}
    (compressed : jsstring) (tree node : Huffman.HuffmanNode) (result : jsstring) :
  JSON_faithful -> Huffman.isLeaf tree = false -> compressed <> [] ->
  walk tree (chars compressed) node result ->
  Huffman.decompress compressed (Huffman.JSON_stringify tree) = Ok result.
Proof.
  intros HJ Hroot Hne Hwalk.
  rewrite decompress_stringify by assumption. f_equal.
  rewrite decompressTree_internal by assumption.
  rewrite <- (app_nil_r (chars compressed)).
  now rewrite (decodeBits_walk tree _ node result Hwalk []).
Qed.

Definition tree_abc : Huffman.HuffmanNode :=
  Huffman.Node None 4
    (Some (Huffman.Node (Some (str "a")) 2 None None))
    (Some (Huffman.Node None 2
             (Some (Huffman.Node (Some (str "b")) 1 None None))
             (Some (Huffman.Node (Some (str "c")) 1 None None)))).

Lemma huffman_decompress_drops_incomplete_code_witness :
  Huffman.decompress (H := Reference.nodeJSON) (str "01")
    (Huffman.JSON_stringify (JSON := Reference.nodeJSON) tree_abc)
  = Ok (str "a").
Proof.
  apply (huffman_decompress_drops_incomplete_code (H := Reference.nodeJSON)
           (str "01") tree_abc
           (Huffman.Node None 2
              (Some (Huffman.Node (Some (str "b")) 1 None None))
              (Some (Huffman.Node (Some (str "c")) 1 None None)))
           (str "a")).
  - apply nodeJSON_faithful.
  - reflexivity.
  - discriminate.
  - apply (walk_inner tree_abc [str "0"] tree_abc (str "a") (str "1")).
    + apply (walk_leaf tree_abc [] tree_abc [] (str "0")
               (Huffman.Node (Some (str "a")) 2 None None));
        [constructor | reflexivity | reflexivity].
    + reflexivity.
    + reflexivity.
Defined.

(** ** Huffman: every outcome of the decoding loop *)

Lemma walk_or_fault tree bits :
  (exists node result, walk tree bits node result) \/ faultAt tree bits.
Proof.
  induction bits as [|b bits IH] using rev_ind.
  - left. exists tree, []. constructor.
  - destruct IH as [(node & result & Hw) | (pre & bit & post & node & result & -> & Hw & Hf)].
    + destruct (descend node b) as [next|] eqn:Ed.
      * left. destruct (Huffman.isLeaf next) eqn:El.
        -- exists tree, (result ++ default [] (Huffman.char next)).
           eapply walk_leaf; eassumption.
        -- exists next, result. eapply walk_inner; eassumption.
      * right. exists bits, b, [], node, result. auto.
    + right. exists pre, bit, (post ++ [b]), node, result.
      rewrite <- app_assoc. auto.
Qed.

(** X18. With a tree that is not a lone leaf, [decompress] never throws and
    has two outcomes: the bits lead through the tree to the end, and it
    returns the characters of the leaves reached; or it meets a
    character other than 0 and 1, or a missing child, and returns the
    text "ERROR: Malformed data". *)
Theorem huffman_decompress_outcomes `{Huffman.JSON}
    (compressed : jsstring) (tree : Huffman.HuffmanNode) :
  JSON_faithful -> Huffman.isLeaf tree = false -> compressed <> [] ->
  (exists node result,
     walk tree (chars compressed) node result
     /\ Huffman.decompress compressed (Huffman.JSON_stringify tree) = Ok result)
  \/ (faultAt tree (chars compressed)
      /\ Huffman.decompress compressed (Huffman.JSON_stringify tree)
         = Ok Huffman.malformed).
Proof.
  intros HJ Hroot Hne.
  rewrite decompress_stringify by assumption.
  rewrite decompressTree_internal by assumption.
  destruct (walk_or_fault tree (chars compressed))
    as [(node & result & Hw) | Hfault].
  - left. exists node, result. split; [exact Hw|]. f_equal.
    rewrite <- (app_nil_r (chars compressed)).
    now rewrite (decodeBits_walk tree _ node result Hw []).
  - right. split; [exact Hfault|].
    destruct Hfault as (pre & bit & post & node & result & -> & Hw & Hf).
    f_equal. now apply (decodeBits_fault tree pre node result bit post).
Qed.

Lemma huffman_decompress_outcomes_witness :
  (exists node result,
     walk tree_abc (chars (str "01")) node result
     /\ Huffman.decompress (H := Reference.nodeJSON) (str "01")
          (Huffman.JSON_stringify (JSON := Reference.nodeJSON) tree_abc)
        = Ok result)
  \/ (faultAt tree_abc (chars (str "01"))
      /\ Huffman.decompress (H := Reference.nodeJSON) (str "01")
           (Huffman.JSON_stringify (JSON := Reference.nodeJSON) tree_abc)
         = Ok Huffman.malformed).
Proof.
  apply (huffman_decompress_outcomes (H := Reference.nodeJSON) (str "01") tree_abc).
  - apply nodeJSON_faithful.
  - reflexivity.
  - discriminate.
Defined.

(** ** The Decompress button ([App.tsx]) *)

Lemma trimStart_nil s : App.trimStart s = [] <-> blank s.
Proof.
  induction s as [|c r IH]; cbn [App.trimStart].
  - split; [constructor | reflexivity].
  - destruct (isWhiteSpace c) eqn:E.
    + rewrite IH. split; [now constructor | now inversion 1].
    + split; [discriminate | inversion 1; congruence].
Qed.

Lemma trimStart_suffix s : exists ws, s = ws ++ App.trimStart s /\ blank ws.
Proof.
  induction s as [|c r (ws & E & Hws)]; cbn [App.trimStart].
  - exists []. split; [reflexivity | constructor].
  - destruct (isWhiteSpace c) eqn:Ec.
    + exists (c :: ws). split; [cbn [app]; congruence | now constructor].
    + exists []. split; [reflexivity | constructor].
Qed.

Lemma trim_empty s : isEmpty (App.trim s) = true <-> blank s.
Proof.
  unfold App.trim.
  assert (forall l : jsstring, isEmpty l = true <-> l = []) as Hemp
    by (intros []; split; (reflexivity || discriminate)).
  rewrite Hemp. split.
  - intros E. apply (f_equal (@rev N)) in E. rewrite rev_involutive in E.
    cbn [rev] in E. apply trimStart_nil in E.
    destruct (trimStart_suffix s) as (ws & Es & Hws).
    assert (blank (App.trimStart s)) as Hb.
    { unfold blank in *. rewrite <- (rev_involutive (App.trimStart s)).
      now apply Forall_rev. }
    rewrite Es. apply Forall_app. auto.
  - intros Hb. assert (App.trimStart s = []) as -> by now apply trimStart_nil.
    reflexivity.
Qed.

Lemma not_blank s c : c ∈ s -> isWhiteSpace c = false -> isEmpty (App.trim s) = false.
Proof.
  intros Hc Hw. destruct (isEmpty (App.trim s)) eqn:E; [|reflexivity].
  apply trim_empty in E. unfold blank in E. rewrite list.Forall_forall in E.
  specialize (E c Hc). congruence.
Qed.

Lemma digit_not_white c : isDigit c = true -> isWhiteSpace c = false.
Proof.
  intros Hc%isDigit_range.
  assert (c = 48 \/ c = 49 \/ c = 50 \/ c = 51 \/ c = 52 \/ c = 53 \/ c = 54
          \/ c = 55 \/ c = 56 \/ c = 57) as Hcases by lia.
  repeat (destruct Hcases as [-> | Hcases]; [reflexivity|]). now subst.
Qed.

(** X19. The handler's own checks come first: it asks for input exactly when
    the compressed text is blank, and for the tree exactly when the text
    is not blank, the algorithm is Huffman and the tree string is empty.
    Whenever it alerts, the text shown stays as it was; the loading flag
    ends cleared. *)
Theorem app_checks_before_decoding `{NumberBuiltin} `{Huffman.JSON} (st : App.state) :
  ((App.handleDecompress st).2 = Some App.EnterCompressedText
   <-> blank (App.compressedText st))
  /\ ((App.handleDecompress st).2 = Some App.TreeRequired
      <-> ~ blank (App.compressedText st)
          /\ App.algorithm st = App.Huffman /\ App.huffmanTree st = [])
  /\ (forall error, (App.handleDecompress st).2 = Some error ->
        App.decompressedText (App.handleDecompress st).1 = App.decompressedText st)
  /\ App.loading (App.handleDecompress st).1 = false.
Proof.
  unfold App.handleDecompress, App.decompressed.
  pose proof (trim_empty (App.compressedText st)) as Hb.
  destruct (isEmpty (App.trim (App.compressedText st))).
  - cbn [fst snd App.decompressedText App.loading].
    assert (blank (App.compressedText st)) as Hbl by now apply Hb.
    repeat split; trivial; try discriminate. now intros [? _].
  - assert (~ blank (App.compressedText st)) as Hnb
      by (intros Hbl%Hb; discriminate).
    destruct (App.algorithm st).
    + destruct (RLE.decompress _);
        cbn [fst snd App.decompressedText App.loading];
        repeat split; trivial; try discriminate; try (now intros [_ [? _]]);
        intros E; now apply Hnb in E.
    + destruct (App.huffmanTree st) as [|t0 tr] eqn:Et; cbn [isEmpty].
      * cbn [fst snd App.decompressedText App.loading].
        repeat split; trivial; try discriminate.
        intros E. now apply Hnb in E.
      * destruct (Huffman.decompress _ _);
          cbn [fst snd App.decompressedText App.loading];
          repeat split; trivial; try discriminate; try (now intros [_ [_ ?]]);
          intros E; now apply Hnb in E.
    + destruct (LZW.decompress _);
        cbn [fst snd App.decompressedText App.loading];
        repeat split; trivial; try discriminate; try (now intros [_ [? _]]);
        intros E; now apply Hnb in E.
Qed.

(** *** From the Compress button to the Decompress button *)

Lemma rle_fold_keeps_chars rest : forall st c,
  c ∈ RLE.result st \/ c = RLE.currentChar st \/ c ∈ rest ->
  c ∈ RLE.appendRun (fold_left RLE.compress_step rest st).
Proof.
  induction rest as [|x rest IH]; intros st c Hc; cbn [fold_left].
  - unfold RLE.appendRun. rewrite !elem_of_app, list_elem_of_singleton.
    destruct Hc as [?|[?|Hc]]; auto. now apply not_elem_of_nil in Hc.
  - apply IH. unfold RLE.compress_step.
    destruct (N.eqb_spec x (RLE.currentChar st)) as [->|Hne];
      cbn [RLE.result RLE.currentChar].
    + rewrite elem_of_cons in Hc. tauto.
    + unfold RLE.appendRun. rewrite !elem_of_app, list_elem_of_singleton.
      rewrite elem_of_cons in Hc. tauto.
Qed.

Lemma rle_compress_keeps_chars text c : c ∈ text -> c ∈ RLE.compress text.
Proof.
  destruct text as [|c0 rest]; [trivial|]. intros Hc. unfold RLE.compress.
  apply rle_fold_keeps_chars. cbn [RLE.result RLE.currentChar].
  rewrite elem_of_cons in Hc. tauto.
Qed.

Lemma first_not_white (s : jsstring) (P : N -> Prop) :
  s <> [] -> Forall P s -> (forall c, P c -> isWhiteSpace c = false) ->
  isEmpty (App.trim s) = false.
Proof.
  intros Hne Hs HP. destruct s as [|c r]; [congruence|].
  apply list.Forall_cons in Hs as [Hc _].
  apply (not_blank _ c); [constructor | now apply HP].
Qed.

Lemma lzw_compress_not_blank text :
  text <> [] -> isEmpty (App.trim (LZW.compress text)) = false.
Proof.
  intros Hne.
  apply (first_not_white _ _ (lzw_compress_not_empty text Hne)
           (lzw_compress_alphabet text)).
  intros c [Hc | ->]; [now apply digit_not_white | reflexivity].
Qed.

Lemma bits_not_blank (s : jsstring) :
  s <> [] -> Forall isBit s -> isEmpty (App.trim s) = false.
Proof.
  intros Hne Hs. apply (first_not_white s isBit Hne Hs).
  intros c [-> | ->]; reflexivity.
Qed.

(** X20. On a non-empty text (and [extractTextFromPDF] throws rather than
    return a blank one) the [switch] of [handleCompress] gives non-empty
    compressed data under every algorithm, and no codec throws: the
    check "Compression failed - no output generated" never fires. *)
Theorem app_compression_always_has_output `{Huffman.JSON}
    (algorithm : App.CompressionAlgorithm) (text huffmanTree : jsstring) :
  text <> [] ->
  exists data tree,
    App.compressedData algorithm text huffmanTree = Ok (data, tree)
    /\ data <> [].
Proof.
  intros Hne. destruct algorithm; cbn [App.compressedData].
  - do 2 eexists. split; [reflexivity|].
    destruct text as [|c0 rest]; [congruence|]. unfold RLE.compress.
    pose proof (appendRun_not_empty
      (fold_left RLE.compress_step rest (RLE.CState [] 1 c0))) as Hrun.
    intros E. rewrite E in Hrun. discriminate.
  - destruct (compress_returns_bits text Hne) as (r & t & E & _ & Hr & _).
    rewrite E. cbn [bind]. eauto.
  - do 2 eexists. split; [reflexivity|]. now apply lzw_compress_not_empty.
Qed.

Lemma app_compression_always_has_output_witness :
  exists data tree,
    App.compressedData (H := Reference.nodeJSON) App.Huffman (str "abracadabra") []
    = Ok (data, tree)
    /\ data <> [].
Proof.
  apply (app_compression_always_has_output (H := Reference.nodeJSON)).
  discriminate.
Defined.

(** X21. Compress, then Decompress on the compressed data with the state's
    tree string: the text shown is the original text and nothing is
    alerted, for a digit-free text with a character that is not white
    space under RLE, a non-empty text of code units up to 255 under LZW,
    and a non-empty text that is not one repeated surrogate pair under
    Huffman. *)
Theorem app_decompress_gives_text_back `{NumberBuiltin} `{Huffman.JSON}
    (algorithm : App.CompressionAlgorithm) (text data tree tree0 shown : jsstring)
    (busy : bool) :
  Number_reads_decimal -> JSON_faithful ->
  comesBack algorithm text ->
  App.compressedData algorithm text tree0 = Ok (data, tree) ->
  App.handleDecompress (App.State algorithm busy data shown tree)
  = (App.State algorithm false data text tree, None).
Proof.
  intros HN HJ Hback Hdata.
  unfold App.handleDecompress, App.decompressed.
  cbn [App.algorithm App.compressedText App.decompressedText App.huffmanTree].
  destruct algorithm; cbn [App.compressedData comesBack] in *.
  - injection Hdata as <- <-. destruct Hback as [Hdf Hex].
    apply Exists_exists in Hex as (c & Hc%list_elem_of_In & Hw).
    rewrite (not_blank _ c (rle_compress_keeps_chars text c Hc) Hw).
    now rewrite roundtrip_digitFree.
  - destruct Hback as [Hpair Hne].
    destruct (compress_returns_bits text Hne) as (r & t & E & Hbits & Hr & Ht & _).
    rewrite E in Hdata. cbn [bind] in Hdata. injection Hdata as <- <-.
    rewrite (bits_not_blank _ Hr Hbits).
    assert (isEmpty (Huffman.tree r) = false) as ->.
    { rewrite Ht. destruct (HJ t) as [_ Hs].
      destruct (Huffman.JSON_stringify t); [congruence | reflexivity]. }
    destruct (roundtrip text HJ Hpair) as (r' & E' & Hrt).
    assert (r' = r) as -> by congruence. now rewrite Hrt.
  - injection Hdata as <- <-. destruct Hback as [Hl Hne].
    rewrite (lzw_compress_not_blank text Hne).
    now rewrite lzw_roundtrip_latin1.
Qed.

Lemma app_decompress_gives_text_back_witness :
  App.handleDecompress (H := Reference.decimalNumber) (H0 := Reference.nodeJSON)
    (App.State App.RLE true (str "3A2BC") [] [])
  = (App.State App.RLE false (str "3A2BC") (str "AAABBC") [], None).
Proof.
  apply (app_decompress_gives_text_back (H := Reference.decimalNumber)
           (H0 := Reference.nodeJSON) App.RLE (str "AAABBC") (str "3A2BC") [] [] [] true).
  - apply decimalNumber_reads_decimal.
  - apply nodeJSON_faithful.
  - split.
    + unfold digitFree. repeat constructor.
    + apply Exists_cons_hd. reflexivity.
  - reflexivity.
Defined.

(** X22. Malformed Huffman data does not alert: the handler shows the text
    "ERROR: Malformed data" as the decompressed text. *)
Theorem app_shows_malformed_as_text `{NumberBuiltin} `{Huffman.JSON}
    (st : App.state) (tree node : Huffman.HuffmanNode)
    (bits rest : list jsstring) (bit result : jsstring) :
  JSON_faithful ->
  App.algorithm st = App.Huffman ->
  App.huffmanTree st = Huffman.JSON_stringify tree ->
  Huffman.isLeaf tree = false ->
  ~ blank (App.compressedText st) ->
  chars (App.compressedText st) = bits ++ bit :: rest ->
  walk tree bits node result -> descend node bit = None ->
  App.handleDecompress st
  = (App.State App.Huffman false (App.compressedText st) Huffman.malformed
       (App.huffmanTree st), None).
Proof.
  intros HJ Halg Htree Hroot Hnb Hchars Hwalk Hfault.
  unfold App.handleDecompress, App.decompressed. rewrite Halg.
  destruct (isEmpty (App.trim (App.compressedText st))) eqn:Eb.
  { apply trim_empty in Eb. contradiction. }
  assert (App.compressedText st <> []) as Hne.
  { intros E. rewrite E in Hchars. now destruct bits. }
  rewrite Htree. destruct (HJ tree) as [_ Hs].
  assert (isEmpty (Huffman.JSON_stringify tree) = false) as ->
    by (destruct (Huffman.JSON_stringify tree); [congruence | reflexivity]).
  rewrite decompress_stringify by assumption.
  rewrite decompressTree_internal by assumption.
  rewrite Hchars, (decodeBits_fault tree bits node result bit rest Hwalk Hfault).
  reflexivity.
Qed.

Lemma app_shows_malformed_as_text_witness :
  App.handleDecompress (H := Reference.decimalNumber) (H0 := Reference.nodeJSON)
    (App.State App.Huffman true (str "0x") []
       (Huffman.JSON_stringify (JSON := Reference.nodeJSON) tree_abc))
  = (App.State App.Huffman false (str "0x") Huffman.malformed
       (Huffman.JSON_stringify (JSON := Reference.nodeJSON) tree_abc), None).
Proof.
  apply (app_shows_malformed_as_text (H := Reference.decimalNumber)
           (H0 := Reference.nodeJSON)
           (App.State App.Huffman true (str "0x") []
              (Huffman.JSON_stringify (JSON := Reference.nodeJSON) tree_abc))
           tree_abc tree_abc [str "0"] [] (str "x") (str "a")).
  - apply nodeJSON_faithful.
  - reflexivity.
  - reflexivity.
  - reflexivity.
  - intros Hb. apply list.Forall_cons in Hb as [Hb _]. discriminate.
  - reflexivity.
  - apply (walk_leaf tree_abc [] tree_abc [] (str "0")
             (Huffman.Node (Some (str "a")) 2 None None));
      [constructor | reflexivity | reflexivity].
  - reflexivity.
Defined.
